(** * gmoney: the weighted exact-partition engine ([pkg/allocate])

    A shallow embedding of [allocate.Split] (largest-remainder split of an
    [int64] amount over integer weights) and of [allocate.AllocateTree]
    (the recursive allocator over a weighted tree), together with the
    properties the specification states about them. The packages built
    on them follow: [money.Add], [ledger.NewTransaction], the two refund
    calculations of [pkg/refund], [pkg/tax], [pkg/exchange] and
    [pkg/pricing].

    Conventions.
    - Go's [int64] (and [int], 64 bits wide on the platforms the library
      targets) is a [Z] with the wrap-around of two's complement written
      out ([int64.wrap]).
    - [math/big] integers are plain [Z]; [big.Div] and [big.Mod] are the
      Euclidean division of [math/big]. A [big.Rat] is a rational in
      lowest terms, [Qc].
    - [sort.Slice] is taken through its contract (a permutation of its
      input, ordered by the comparator, ties in no promised order) where
      a statement holds for every routine within it; where the order of
      ties matters it is the routine of the [sort] package itself
      ([sort.Slice] below: insertion sort up to twelve elements,
      pattern-defeating quicksort beyond). Examples are evaluated on
      slices of at most twelve elements, with the insertion sort.
    - A run of [Split] ends with the parts, with the error value
      [ErrInvalidWeights], or with a run-time panic. *)

From stdpp Require Import base numbers list sorting strings.
From Stdlib Require Import ZArith Lia QArith Qcanon Qround Lqa.

#[local] Set Warnings "-register-all".

Local Open Scope Z_scope.

(** ** Machine integers *)

Module int64.

Definition MinInt64 : Z := - 2 ^ 63.
Definition MaxInt64 : Z := 2 ^ 63 - 1.

Definition in_range (z : Z) : Prop := MinInt64 <= z <= MaxInt64.

(** The value an [int64] holds after an operation whose exact result
    is [z]. *)
Definition wrap (z : Z) : Z := (z + 2 ^ 63) mod 2 ^ 64 - 2 ^ 63.

Definition add (x y : Z) : Z := wrap (x + y).
Definition sub (x y : Z) : Z := wrap (x - y).
Definition incr (x : Z) : Z := wrap (x + 1).

End int64.

(** ** [math/big] *)

Module big.

Definition Mul (x y : Z) : Z := x * y.

(** [Int.Div]: truncated quotient, then stepped so that the modulus is
    never negative (Euclidean division). Callers pass [y <> 0]. *)
Definition Div (x y : Z) : Z :=
  let q := Z.quot x y in
  let r := Z.rem x y in
  if r <? 0 then (if y <? 0 then q + 1 else q - 1) else q.

(** [Int.Mod]: truncated remainder, moved into [0, |y|). *)
Definition Mod (x y : Z) : Z :=
  let r := Z.rem x y in
  if r <? 0 then (if y <? 0 then r - y else r + y) else r.

(** [Int.Int64]: the low 64 bits of the magnitude, read as [int64],
    negated (with wrap-around) for a negative [x]. *)
Definition Int64 (x : Z) : Z :=
  let v := int64.wrap (Z.abs x mod 2 ^ 64) in
  if x <? 0 then int64.wrap (- v) else v.

End big.

(** ** [pkg/money] *)

Module money.

Record Money : Type := New { Amount : Z; Currency : string }.

End money.

Import money.

(** ** Outcomes of a call *)

Inductive error : Type := ErrInvalidWeights.

(** The run-time panics the code can end in: an index out of range, a
    nil pointer dereferenced, and the division by zero of [math/big]. *)
Inductive panic : Type := IndexOutOfRange | NilDereference | DivisionByZero.

Inductive result (A : Type) : Type :=
  | Ok (a : A)
  | Err (e : error)
  | Panic (p : panic).

Arguments Ok {A} a.
Arguments Err {A} e.
Arguments Panic {A} p.

Definition bind {A B : Type} (r : result A) (k : A -> result B) : result B :=
  match r with
  | Ok a => k a
  | Err e => Err e
  | Panic p => Panic p
  end.

Notation "x <-! r ; k" := (bind r (fun x => k))
  (at level 100, r at next level, right associativity).

(** ** [sort.Slice] *)

(** What a comparator must satisfy for [sort.Slice] to order by it. *)
Record strict_weak {A : Type} (less : A -> A -> bool) : Prop := {
  less_asym : forall x y, less x y = true -> less y x = false;
  less_negtrans :
    forall x y z, less x y = false -> less y z = false -> less x z = false
}.

(** [ordered less l]: no element of [l] is [less] than an earlier one. *)
Definition ordered {A : Type} (less : A -> A -> bool) (l : list A) : Prop :=
  StronglySorted (fun x y => less y x = false) l.

(** A sorting routine in the shape of [sort.Slice]. *)
Class Sorter : Type :=
  sort_Slice : forall A : Type, (A -> A -> bool) -> list A -> list A.

Arguments sort_Slice {_ A} less l.

(** The contract of [sort.Slice]: the slice is permuted into an order
    compatible with [less]; equal elements may land in any order. *)
Class SorterContract (S : Sorter) : Prop := {
  sort_Slice_perm :
    forall A (less : A -> A -> bool) (l : list A), sort_Slice less l ≡ₚ l;
  sort_Slice_ordered :
    forall A (less : A -> A -> bool) (l : list A),
      strict_weak less -> ordered less (sort_Slice less l)
}.

(** Go's [insertionSort]: for [i] from [1], the element at [i] is swapped
    leftwards while it is [less] than its left neighbour. The sorted
    prefix is kept reversed, so that its head is that left neighbour. *)
Fixpoint shift_left {A : Type} (less : A -> A -> bool) (x : A)
    (rprefix : list A) : list A :=
  match rprefix with
  | [] => [x]
  | y :: rest =>
      if less x y then y :: shift_left less x rest else x :: y :: rest
  end.

Definition insertionSort (A : Type) (less : A -> A -> bool) (l : list A)
    : list A :=
  reverse (fold_left (fun rprefix x => shift_left less x rprefix) l []).

(** The insertion sort alone, as a sorting routine. It is what
    [sort.Slice] runs on a slice of at most twelve elements, and only
    there does it stand for [sort.Slice] ([sort.Slice] itself is modelled
    below, and [Slice_short] is the link); on longer slices [sort.Slice]
    orders equal elements differently. *)
Definition short_slice_sorter : Sorter := insertionSort.

(** A routine that is not Go's: the same insertion sort run over the
    slice read from its far end, so that equal elements come out in the
    opposite order. It meets the contract of [sort.Slice], and serves
    only as a second instance of that contract; nothing about the code
    is read off it. *)
Definition mirrored_sorter : Sorter :=
  fun A less l => insertionSort A less (reverse l).

(** ** [sort.Slice], as the [sort] package runs it *)

Module sort.

Local Open Scope nat_scope.

Inductive sortedHint : Type := unknownHint | increasingHint | decreasingHint.

(** [bits.Len(uint(n))]: the number of bits of [n]. *)
Definition bits_Len (n : nat) : nat := N.size_nat (N.of_nat n).

(** [xorshift.Next], on a 64-bit state. *)
Definition xorshift_Next (r : Z) : Z :=
  let r := Z.lxor r (Z.shiftl r 13 mod 2 ^ 64) in
  let r := Z.lxor r (Z.shiftr r 7) in
  Z.lxor r (Z.shiftl r 17 mod 2 ^ 64).

(** [nextPowerOfTwo(length)]. *)
Definition nextPowerOfTwo (length : nat) : Z :=
  Z.shiftl 1 (Z.of_nat (bits_Len length)).

(** [for i <= j && p(i) { i++ }], with [n = j + 1 - i] turns left. *)
Fixpoint scan_up (p : nat -> bool) (n i : nat) : nat :=
  match n with
  | 0 => i
  | S n => if p i then scan_up p n (S i) else i
  end.

(** [for i <= j && p(j) { j-- }], with [n = j + 1 - i] turns left; [i]
    is at least one wherever this loop runs, so [j] stays a natural
    number. *)
Fixpoint scan_down (p : nat -> bool) (n j : nat) : nat :=
  match n with
  | 0 => j
  | S n => if p j then scan_down p n (j - 1) else j
  end.

Section lessSwap.

Context {A : Type} (less : A -> A -> bool).

(** [data.Less(i, j)] and [data.Swap(i, j)] of [lessSwap]; the routines
    below only pass indices inside the slice. *)
Definition Less (data : list A) (i j : nat) : bool :=
  match data !! i, data !! j with
  | Some x, Some y => less x y
  | _, _ => false
  end.

Definition Swap (data : list A) (i j : nat) : list A :=
  match data !! i, data !! j with
  | Some x, Some y => <[j := x]> (<[i := y]> data)
  | _, _ => data
  end.

(** [insertionSort_func(data, a, b)]: the insertion sort above, on
    [data[a:b]]. *)
Definition insertionSort_func (data : list A) (a b : nat) : list A :=
  take a data ++ insertionSort A less (take (b - a) (drop a data))
    ++ drop b data.

(** [siftDown_func(data, lo, hi, first)], [root] starting at [lo]; it
    grows at every turn and stays below [hi]. *)
Fixpoint siftDown_loop (turns : nat) (data : list A) (root hi first : nat)
    : list A :=
  match turns with
  | 0 => data
  | S turns =>
      let child := 2 * root + 1 in
      if hi <=? child then data
      else
        let child :=
          if (child + 1 <? hi)
             && Less data (first + child) (first + child + 1)
          then child + 1 else child in
        if negb (Less data (first + root) (first + child)) then data
        else siftDown_loop turns (Swap data (first + root) (first + child))
               child hi first
  end.

Definition siftDown_func (data : list A) (lo hi first : nat) : list A :=
  siftDown_loop hi data lo hi first.

Definition heapSort_func (data : list A) (a b : nat) : list A :=
  let first := a in
  let lo := 0 in
  let hi := b - a in
  (* for i := (hi - 1) / 2; i >= 0; i-- *)
  let data :=
    foldl (fun data i => siftDown_func data i hi first) data
      (reverse (seq 0 (S ((hi - 1) / 2)))) in
  (* for i := hi - 1; i >= 0; i-- *)
  foldl (fun data i => siftDown_func (Swap data first (first + i)) lo i first)
    data (reverse (seq 0 hi)).

(** The loop of [partition_func] after its first exchange. [i] moves up
    and [j] down at every turn, so the [b - a] turns it is given are
    never used up. *)
Fixpoint partition_loop (turns : nat) (data : list A) (a i j : nat)
    : list A * nat :=
  match turns with
  | 0 => (data, j)
  | S turns =>
      let i := scan_up (fun i => Less data i a) (j + 1 - i) i in
      let j := scan_down (fun j => negb (Less data j a)) (j + 1 - i) j in
      if j <? i then (data, j)
      else partition_loop turns (Swap data i j) a (i + 1) (j - 1)
  end.

Definition partition_func (data : list A) (a b pivot : nat)
    : list A * nat * bool :=
  let data := Swap data a pivot in
  let i := a + 1 in
  let j := b - 1 in
  let i := scan_up (fun i => Less data i a) (j + 1 - i) i in
  let j := scan_down (fun j => negb (Less data j a)) (j + 1 - i) j in
  if j <? i then (Swap data j a, j, true)
  else
    let data := Swap data i j in
    let '(data, j) := partition_loop (b - a) data a (i + 1) (j - 1) in
    (Swap data j a, j, false).

(** The loop of [partitionEqual_func], bounded like the one of
    [partition_func]: the index it returns. *)
Fixpoint partitionEqual_loop (turns : nat) (data : list A) (a i j : nat)
    : nat :=
  match turns with
  | 0 => i
  | S turns =>
      let i := scan_up (fun i => negb (Less data a i)) (j + 1 - i) i in
      let j := scan_down (fun j => Less data a j) (j + 1 - i) j in
      if j <? i then i
      else partitionEqual_loop turns (Swap data i j) a (i + 1) (j - 1)
  end.

(** The slice that loop leaves. *)
Fixpoint partitionEqual_data (turns : nat) (data : list A) (a i j : nat)
    : list A :=
  match turns with
  | 0 => data
  | S turns =>
      let i := scan_up (fun i => negb (Less data a i)) (j + 1 - i) i in
      let j := scan_down (fun j => Less data a j) (j + 1 - i) j in
      if j <? i then data
      else partitionEqual_data turns (Swap data i j) a (i + 1) (j - 1)
  end.

Definition partitionEqual_func (data : list A) (a b pivot : nat)
    : list A * nat :=
  let data := Swap data a pivot in
  (partitionEqual_data (b - a) data a (a + 1) (b - 1),
   partitionEqual_loop (b - a) data a (a + 1) (b - 1)).

(** [for j := i - 1; j >= 1; j--] of [partialInsertionSort_func], at most
    [i - 1] turns. *)
Fixpoint shift_smaller (turns : nat) (data : list A) (j : nat) : list A :=
  match turns with
  | 0 => data
  | S turns =>
      if 1 <=? j
      then if negb (Less data j (j - 1)) then data
           else shift_smaller turns (Swap data j (j - 1)) (j - 1)
      else data
  end.

(** [for j := i + 1; j < b; j++] of [partialInsertionSort_func], at most
    [b - (i + 1)] turns. *)
Fixpoint shift_greater (turns : nat) (data : list A) (j b : nat) : list A :=
  match turns with
  | 0 => data
  | S turns =>
      if j <? b
      then if negb (Less data j (j - 1)) then data
           else shift_greater turns (Swap data j (j - 1)) (j + 1) b
      else data
  end.

Fixpoint partialInsertionSort_steps (steps : nat) (data : list A)
    (a b i : nat) : list A * bool :=
  match steps with
  | 0 => (data, false)
  | S steps =>
      (* for i < b && !data.Less(i, i-1) { i++ } *)
      let i := scan_up (fun i => negb (Less data i (i - 1))) (b - i) i in
      if i =? b then (data, true)
      else if b - a <? 50 then (data, false)
      else
        let data := Swap data i (i - 1) in
        let data :=
          if 2 <=? i - a then shift_smaller (i - 1) data (i - 1) else data in
        let data :=
          if 2 <=? b - i then shift_greater (b - (i + 1)) data (i + 1) b
          else data in
        partialInsertionSort_steps steps data a b i
  end.

Definition partialInsertionSort_func (data : list A) (a b : nat)
    : list A * bool :=
  partialInsertionSort_steps 5 data a b (a + 1).

Definition breakPatterns_func (data : list A) (a b : nat) : list A :=
  let length := b - a in
  if 8 <=? length then
    let modulus := nextPowerOfTwo length in
    let idx := a + (length / 4) * 2 - 1 in
    let turn '(data, random) i :=
      let random := xorshift_Next random in
      let other := Z.to_nat (Z.land random (modulus - 1)) in
      let other := if length <=? other then other - length else other in
      (Swap data (idx - 1 + i) (a + other), random) in
    (foldl turn (data, Z.of_nat length) [0; 1; 2]).1
  else data.

Definition order2_func (data : list A) (a b swaps : nat)
    : nat * nat * nat :=
  if Less data b a then (b, a, S swaps) else (a, b, swaps).

Definition median_func (data : list A) (a b c swaps : nat) : nat * nat :=
  let '(a, b, swaps) := order2_func data a b swaps in
  let '(b, c, swaps) := order2_func data b c swaps in
  let '(a, b, swaps) := order2_func data a b swaps in
  (b, swaps).

Definition medianAdjacent_func (data : list A) (a swaps : nat) : nat * nat :=
  median_func data (a - 1) a (a + 1) swaps.

Definition choosePivot_func (data : list A) (a b : nat)
    : nat * sortedHint :=
  let l := b - a in
  let swaps := 0 in
  let i := a + l / 4 * 1 in
  let j := a + l / 4 * 2 in
  let k := a + l / 4 * 3 in
  let '(j, swaps) :=
    if 8 <=? l then
      let '(i, j, k, swaps) :=
        if 50 <=? l then
          let '(i, swaps) := medianAdjacent_func data i swaps in
          let '(j, swaps) := medianAdjacent_func data j swaps in
          let '(k, swaps) := medianAdjacent_func data k swaps in
          (i, j, k, swaps)
        else (i, j, k, swaps) in
      median_func data i j k swaps
    else (j, swaps) in
  match swaps with
  | 0 => (j, increasingHint)
  | 12 => (j, decreasingHint)
  | _ => (j, unknownHint)
  end.

(** [for i < j { data.Swap(i, j); i++; j-- }]. *)
Fixpoint reverseRange_loop (turns : nat) (data : list A) (i j : nat)
    : list A :=
  match turns with
  | 0 => data
  | S turns =>
      if i <? j then reverseRange_loop turns (Swap data i j) (i + 1) (j - 1)
      else data
  end.

Definition reverseRange_func (data : list A) (a b : nat) : list A :=
  reverseRange_loop (b - a) data a (b - 1).

(** [pdqsort_func(data, a, b, limit)]. Every turn of its loop and every
    call of itself is on a shorter part of the slice; [fuel] counts
    them, and [None] is the answer only when [fuel] was too small.
    [wasBalanced] and [wasPartitioned] are the two flags of the loop. *)
Fixpoint pdqsort_loop (fuel : nat) (data : list A) (a b limit : nat)
    (wasBalanced wasPartitioned : bool) : option (list A) :=
  match fuel with
  | 0 => None
  | S fuel =>
      let length := b - a in
      if length <=? 12 then Some (insertionSort_func data a b)
      else if limit =? 0 then Some (heapSort_func data a b)
      else
        let '(data, limit) :=
          if negb wasBalanced
          then (breakPatterns_func data a b, limit - 1)
          else (data, limit) in
        let '(pivot, hint) := choosePivot_func data a b in
        let '(data, pivot, hint) :=
          match hint with
          | decreasingHint =>
              (reverseRange_func data a b, (b - 1) - (pivot - a),
               increasingHint)
          | _ => (data, pivot, hint)
          end in
        let '(data, sorted) :=
          match hint with
          | increasingHint =>
              if wasBalanced && wasPartitioned
              then partialInsertionSort_func data a b
              else (data, false)
          | _ => (data, false)
          end in
        if sorted then Some data
        else if (0 <? a) && negb (Less data (a - 1) pivot) then
          let '(data, mid) := partitionEqual_func data a b pivot in
          pdqsort_loop fuel data mid b limit wasBalanced wasPartitioned
        else
          let '(data, mid, alreadyPartitioned) :=
            partition_func data a b pivot in
          let wasPartitioned := alreadyPartitioned in
          let leftLen := mid - a in
          let rightLen := b - mid in
          let balanceThreshold := length / 8 in
          if leftLen <? rightLen then
            let wasBalanced := balanceThreshold <=? leftLen in
            match pdqsort_loop fuel data a mid limit true true with
            | None => None
            | Some data =>
                pdqsort_loop fuel data (mid + 1) b limit
                  wasBalanced wasPartitioned
            end
          else
            let wasBalanced := balanceThreshold <=? rightLen in
            match pdqsort_loop fuel data (mid + 1) b limit true true with
            | None => None
            | Some data =>
                pdqsort_loop fuel data a mid limit
                  wasBalanced wasPartitioned
            end
  end.

Definition pdqsort_func (data : list A) (a b limit : nat)
    : option (list A) :=
  pdqsort_loop (S (b - a)) data a b limit true true.

End lessSwap.

(** [sort.Slice(x, less)], with [less] on the elements. *)
Definition Slice : Sorter :=
  fun A less x =>
    let n := length x in
    let limit := bits_Len n in
    default x (pdqsort_func less x 0 n limit).

End sort.

(** ** Sums of integer lists *)

Definition Zsum (l : list Z) : Z := foldr Z.add 0 l.

(** ** [allocate.Split] *)

Record entry : Type := Entry { index : nat; base : Z; residue : Z }.

(** The comparator handed to [sort.Slice]: residue, descending. *)
Definition less_residue (e1 e2 : entry) : bool := residue e2 <? residue e1.

(** [sumWeights += int64(w)] over the weights. *)
Definition sumWeights (weights : list Z) : Z :=
  fold_left int64.add weights 0.

(** The body of pass 1 for the weight [w] at index [i]. *)
Definition make_entry (totalAmount sumW : Z) (i : nat) (w : Z) : entry :=
  let bBase := big.Div (big.Mul totalAmount w) sumW in
  let bResidue := big.Mod (big.Mul totalAmount w) sumW in
  {| index := i; base := big.Int64 bBase; residue := big.Int64 bResidue |}.

(** Pass 1, from index [i] on: the entries, and [remainder] after every
    [remainder -= base]. *)
Fixpoint pass1 (totalAmount sumW : Z) (i : nat) (weights : list Z)
    (remainder : Z) : list entry * Z :=
  match weights with
  | [] => ([], remainder)
  | w :: ws =>
      let e := make_entry totalAmount sumW i w in
      let '(es, r) :=
        pass1 totalAmount sumW (S i) ws (int64.sub remainder (base e)) in
      (e :: es, r)
  end.

Definition bump (e : entry) : entry :=
  {| index := index e; base := int64.incr (base e); residue := residue e |}.

(** [for i := 0; i < int(remainder); i++ { entries[i].base++ }], resumed
    at [i] with [rest] the entries from [i] on. Reaching the end of the
    slice with [i < remainder] is an index out of range. *)
Fixpoint add_units (remainder i : Z) (rest : list entry)
    : result (list entry) :=
  match rest with
  | [] => if i <? remainder then Panic IndexOutOfRange else Ok []
  | e :: rest' =>
      if i <? remainder then
        rest'' <-! add_units remainder (i + 1) rest' ;
        Ok (bump e :: rest'')
      else Ok (e :: rest')
  end.

(** [finalParts[e.index] = e.base]. *)
Definition store (finalParts : list Z) (e : entry) : result (list Z) :=
  if decide (index e < length finalParts)%nat
  then Ok (<[index e := base e]> finalParts)
  else Panic IndexOutOfRange.

(** Pass 3 over the remaining [entries]. *)
Fixpoint pass3 (entries : list entry) (finalParts : list Z)
    : result (list Z) :=
  match entries with
  | [] => Ok finalParts
  | e :: es => finalParts' <-! store finalParts e ; pass3 es finalParts'
  end.

Definition Split `{Sorter} (total : Money) (weights : list Z)
    : result (list Money) :=
  if decide (length weights = 0%nat) then Err ErrInvalidWeights else
  let totalAmount := Amount total in
  let sumW := sumWeights weights in
  if decide (sumW = 0) then Err ErrInvalidWeights else
  let '(entries, remainder) :=
    pass1 totalAmount sumW 0 weights totalAmount in
  let entries := sort_Slice less_residue entries in
  entries <-! add_units remainder 0 entries ;
  finalParts <-! pass3 entries (replicate (length weights) 0) ;
  Ok ((fun amt => New amt (Currency total)) <$> finalParts).

(** The state of [Split] between its passes: the entries pass 1 builds,
    the remainder it leaves, and the entries as [sort.Slice] ranks them. *)
Definition entries_of (total : Money) (weights : list Z) : list entry :=
  (pass1 (Amount total) (sumWeights weights) 0 weights (Amount total)).1.

Definition remainder_of (total : Money) (weights : list Z) : Z :=
  (pass1 (Amount total) (sumWeights weights) 0 weights (Amount total)).2.

Definition ranking `{Sorter} (total : Money) (weights : list Z)
    : list entry :=
  sort_Slice less_residue (entries_of total weights).

(** The weights [Split] is written for: none negative, and a positive
    sum that [sumWeights], an [int64], can hold. *)
Definition valid_weights (weights : list Z) : Prop :=
  Forall (fun w => 0 <= w) weights
  /\ 0 < Zsum weights <= int64.MaxInt64.

(** ** The allocation tree *)

#[local] Unset Elimination Schemes.

Inductive Node : Type :=
  NewNode' {
    Name : string;
    Weight : Z;
    Children : list Node;
    Allocated : Money
  }.

#[local] Set Elimination Schemes.

(** [money.Money{}], the value of a field never written. *)
Definition zero_Money : Money := New 0 "".

(** [NewNode]: [Allocated] is left at its zero value. *)
Definition NewNode (name : string) (weight : Z) (children : list Node)
    : Node :=
  NewNode' name weight children zero_Money.

(** How a call on a tree ends. *)
Inductive outcome : Type :=
  | Done
  | Failed (e : error)
  | Panicked (p : panic).

Section Distribute.

Context `{Sorter}.

(** Step C of [distribute]: the loop over the children, paired with
    [amounts]. [visit child a] stands for the loop body,
    [child.Allocated = a] followed by [distribute(child)]. The loop
    returns at the first child whose [distribute] does not return
    [nil]; the children after it are not reached. *)
Fixpoint step_C (visit : Node -> Money -> Node * outcome)
    (children : list Node) (amounts : list Money)
    : list Node * outcome :=
  match children with
  | [] => ([], Done)
  | child :: rest =>
      match amounts with
      | [] => (child :: rest, Panicked IndexOutOfRange)
      | a :: amounts' =>
          let '(child', o) := visit child a in
          match o with
          | Done =>
              let '(rest', o') := step_C visit rest amounts' in
              (child' :: rest', o')
          | _ => (child' :: rest, o)
          end
      end
  end.

(** [node.Allocated = amount] followed by [distribute(node)]: the node
    as the two statements leave it, and how the call ended. *)
Fixpoint assign_distribute (node : Node) (amount : Money)
    : Node * outcome :=
  match node with
  | NewNode' name weight children _ =>
      match children with
      | [] => (NewNode' name weight [] amount, Done)
      | _ :: _ =>
          match Split amount (Weight <$> children) with
          | Err e => (NewNode' name weight children amount, Failed e)
          | Panic p => (NewNode' name weight children amount, Panicked p)
          | Ok amounts =>
              let '(children', o) :=
                step_C assign_distribute children amounts in
              (NewNode' name weight children' amount, o)
          end
      end
  end.

Definition distribute (parent : Node) : Node * outcome :=
  assign_distribute parent (Allocated parent).

(** [root.Allocated = total; return distribute(root)]. *)
Definition AllocateTree (root : Node) (total : Money) : Node * outcome :=
  assign_distribute root total.

End Distribute.

(** Every internal node holds exactly what its children hold together,
    down to the leaves. *)
Fixpoint conserved (node : Node) : bool :=
  match node with
  | NewNode' _ _ children allocated =>
      match children with
      | [] => true
      | _ :: _ =>
          (Amount allocated =? Zsum (Amount ∘ Allocated <$> children))
          && forallb conserved children
      end
  end.

(** The trees [AllocateTree] is written for: under every internal node,
    the weights of the children are valid for [Split]. *)
Inductive valid_tree : Node -> Prop :=
  | valid_node name weight children allocated :
      (children <> [] -> valid_weights (Weight <$> children)) ->
      Forall valid_tree children ->
      valid_tree (NewNode' name weight children allocated).

(** A tree with every [Allocated] blanked: names, weights, and the
    children in their order. *)
Fixpoint structure (node : Node) : Node :=
  match node with
  | NewNode' name weight children _ =>
      NewNode' name weight (structure <$> children) zero_Money
  end.

(** The rank the specification asks for: residue descending, and among
    equal residues the smaller index first. *)
Definition rank_before (e1 e2 : entry) : Prop :=
  residue e2 < residue e1
  \/ (residue e1 = residue e2 /\ (index e1 < index e2)%nat).

(** What the leaves below a node hold together. *)
Fixpoint leaves_total (node : Node) : Z :=
  match node with
  | NewNode' _ _ children allocated =>
      match children with
      | [] => Amount allocated
      | _ :: _ => Zsum (leaves_total <$> children)
      end
  end.

(** The nodes of a tree, parent first, in the order [PrintTree] walks
    them. *)
Fixpoint nodes (node : Node) : list Node :=
  match node with
  | NewNode' _ _ children _ => node :: concat (nodes <$> children)
  end.

(** ** Calls of the other packages *)

(** How a call outside [allocate] ends: with its value, with an error of
    its package, or in a run-time panic. *)
Inductive returns (E A : Type) : Type :=
  | Value (a : A)
  | Error (e : E)
  | Panics (p : panic).

Arguments Value {E A} a.
Arguments Error {E A} e.
Arguments Panics {E A} p.

Definition and_then {E A B : Type} (r : returns E A)
    (k : A -> returns E B) : returns E B :=
  match r with
  | Value a => k a
  | Error e => Error e
  | Panics p => Panics p
  end.

(** ** [money.Add] *)

Module money_errors.

Inductive error : Type := ErrMismatchCurrency | ErrInvalidAmount.

End money_errors.

(** [m.Add(other)]: the currencies must agree; the amounts are added as
    [int64]. *)
Definition Add (m other : Money) : returns money_errors.error Money :=
  if decide (Currency m = Currency other)
  then Value (New (int64.add (Amount m) (Amount other)) (Currency m))
  else Error money_errors.ErrMismatchCurrency.

(** ** [pkg/ledger] *)

Module ledger.

Record Entry : Type := { AccountID : string; Amount : Money }.

(** [PostedAt] is the reading of the clock, as an instant counted from
    some epoch. *)
Record Transaction : Type := {
  ID : string;
  PostedAt : Z;
  Reference : string;
  Entries : list Entry
}.

(** The three errors [NewTransaction] builds, with the values their
    messages are formatted from. *)
Inductive error : Type :=
  | TooFewEntries
  | MixedCurrencies (currency other : string)
  | DoesNotBalance (balance : Z).

(** The loop of [NewTransaction] over the remaining [entries]: the
    balance after them, or the error of the first entry in another
    currency. *)
Fixpoint add_entries (currency : string) (entries : list Entry)
    (balance : Z) : returns error Z :=
  match entries with
  | [] => Value balance
  | e :: rest =>
      if decide (Currency (Amount e) = currency)
      then add_entries currency rest
             (int64.add balance (money.Amount (Amount e)))
      else Error (MixedCurrencies currency (Currency (Amount e)))
  end.

(** [NewTransaction(id, ref, entries)], with [now] the value of
    [time.Now()]. *)
Definition NewTransaction (now : Z) (id ref : string) (entries : list Entry)
    : returns error Transaction :=
  match entries with
  | [] | [_] => Error TooFewEntries
  | first :: _ :: _ =>
      let currency := Currency (Amount first) in
      and_then (add_entries currency entries 0) (fun balance =>
      if decide (balance = 0)
      then Value {| ID := id; PostedAt := now; Reference := ref;
                    Entries := entries |}
      else Error (DoesNotBalance balance))
  end.

End ledger.

(** The amounts of a list of entries. *)
Definition entry_amounts (entries : list ledger.Entry) : list Z :=
  (fun e => Amount (ledger.Amount e)) <$> entries.

(** ** [pkg/refund] *)

(** The error type of [allocate], under a name that stays visible. *)
Definition allocate_error : Type := error.

Module refund.

Record Component : Type := { Name : string; Amount : Money }.

Record RefundResult : Type := {
  Components : list Component;
  Total : Money
}.

Module LineItem.

Record LineItem : Type := {
  Quantity : Z;
  Components : list Component
}.

End LineItem.

Record RefundCalculation : Type := {
  MaxRefundable : Money;
  RefundedParts : list Component
}.

(** The errors of the package: the four it creates, with the values the
    last message is formatted from, and the error of [allocate.Split]
    that it passes on. *)
Inductive error : Type :=
  | RefundExceedsOriginal
  | ReturnExceedsPurchased
  | ReturnNotPositive
  | NegotiatedExceedsReturned (negotiated maxRefundable : Money)
  | Allocate (e : allocate_error).

(** [Component{}]. *)
Definition zero_Component : Component :=
  {| Name := ""; Amount := zero_Money |}.

(** [weights[i] = int(part.Amount.Amount())]. *)
Definition weights_of (parts : list Component) : list Z :=
  (fun part => money.Amount (Amount part)) <$> parts.

(** [originalTotalAmt += part.Amount.Amount()] over the parts. *)
Definition total_of (parts : list Component) : Z :=
  fold_left (fun acc part => int64.add acc (money.Amount (Amount part)))
    parts 0.

(** The loop that rebuilds the breakdown,
    [components[i] = Component{Name: parts[i].Name, Amount: amt}] for the
    amounts from index [i] on. *)
Fixpoint rebuild {E : Type} (parts : list Component) (i : nat)
    (amounts : list Money) (components : list Component)
    : returns E (list Component) :=
  match amounts with
  | [] => Value components
  | amt :: rest =>
      match parts !! i with
      | None => Panics IndexOutOfRange
      | Some part =>
          if decide (i < length components)%nat
          then rebuild parts (S i) rest
                 (<[i := {| Name := Name part; Amount := amt |}]> components)
          else Panics IndexOutOfRange
      end
  end.

(** The breakdown the loop leaves when there is one amount per part:
    the names of the parts, with the amounts in their order. *)
Definition with_amounts (parts : list Component) (amounts : list Money)
    : list Component :=
  zip_with (fun part amt => {| Name := Name part; Amount := amt |})
    parts amounts.

Definition CalculateNegotiatedRefund `{Sorter}
    (originalParts : list Component) (refundAmount : Money)
    : returns error RefundResult :=
  let weights := weights_of originalParts in
  let originalTotalAmt := total_of originalParts in
  if originalTotalAmt <? money.Amount refundAmount
  then Error RefundExceedsOriginal
  else
    match Split refundAmount weights with
    | Err e => Error (Allocate e)
    | Panic p => Panics p
    | Ok allocatedRefunds =>
        and_then
          (rebuild originalParts 0 allocatedRefunds
             (replicate (length originalParts) zero_Component))
          (fun components =>
             Value {| Components := components; Total := refundAmount |})
    end.

(** Level 1 of [CalculateItemizedRefund], over the remaining components:
    each amount is split by [[returnQty, quantity - returnQty]] (the
    error of that call is dropped and the first part is read), which
    gives the next scope weight and adds to [maxRefundableTotal]. *)
Fixpoint level_1 `{Sorter} (quantity returnQty : Z)
    (components : list Component) (maxRefundableTotal : Z)
    : returns error (list Z * Z) :=
  match components with
  | [] => Value ([], maxRefundableTotal)
  | comp :: rest =>
      match Split (Amount comp)
              [returnQty; int64.sub quantity returnQty] with
      | Panic p => Panics p
      | Err _ | Ok [] => Panics IndexOutOfRange
      | Ok (valOfReturnedItems :: _) =>
          and_then
            (level_1 quantity returnQty rest
               (int64.add maxRefundableTotal
                  (money.Amount valOfReturnedItems)))
            (fun '(scopeWeights, total) =>
               Value (money.Amount valOfReturnedItems :: scopeWeights, total))
      end
  end.

Definition CalculateItemizedRefund `{Sorter}
    (line : LineItem.LineItem) (returnQty : Z) (negotiatedAmount : Money)
    : returns error RefundCalculation :=
  if LineItem.Quantity line <? returnQty then Error ReturnExceedsPurchased
  else if returnQty <=? 0 then Error ReturnNotPositive
  else
    and_then
      (level_1 (LineItem.Quantity line) returnQty
         (LineItem.Components line) 0)
      (fun '(scopeWeights, maxRefundableTotal) =>
         let maxRefundable :=
           New maxRefundableTotal (Currency negotiatedAmount) in
         if maxRefundableTotal <? money.Amount negotiatedAmount
         then Error (NegotiatedExceedsReturned negotiatedAmount maxRefundable)
         else
           match Split negotiatedAmount scopeWeights with
           | Err e => Error (Allocate e)
           | Panic p => Panics p
           | Ok allocatedAmounts =>
               and_then
                 (rebuild (LineItem.Components line) 0 allocatedAmounts
                    (replicate (length (LineItem.Components line))
                       zero_Component))
                 (fun finalParts =>
                    Value {| MaxRefundable := maxRefundable;
                             RefundedParts := finalParts |})
           end).

End refund.

(** ** [math/big.Rat] *)

Module bigRat.

(** The value a [*big.Rat] points to: a rational number, which
    [math/big] keeps in lowest terms with a positive denominator. A
    pointer that may be nil is an [option Rat]; the methods below take
    the values of pointers that are not nil. *)
Definition Rat : Type := Qc.

Definition SetInt64 (x : Z) : Rat := Qc_of_Z x.

(** [big.NewRat(a, b)]; the callers pass a literal [b > 0]. *)
Definition NewRat (a b : Z) : Rat := Q2Qc (a # Z.to_pos b).

Definition Add (x y : Rat) : Rat := (x + y)%Qc.

Definition Mul (x y : Rat) : Rat := (x * y)%Qc.

(** [Rat.Quo] panics on a zero divisor. *)
Definition Quo {E : Type} (x y : Rat) : returns E Rat :=
  if decide (y = 0%Qc) then Panics DivisionByZero else Value (x / y)%Qc.

Definition Num (x : Rat) : Z := Qnum (this x).

Definition Denom (x : Rat) : Z := Z.pos (Qden (this x)).

End bigRat.

(** The integer nearest to [x], a half going up: what [roundRat] returns
    as long as that integer is an [int64]. *)
Definition round_half_up (x : Qc) : Z := Qfloor (this x + (1 # 2)).

(** ** [pkg/rate] *)

Module rate.

(** [value] is a [*big.Rat]: [rate.New] sets it, and it is nil in the
    zero [Rate{}], which [rate.New] returns with its error. *)
Record Rate : Type := { value : option bigRat.Rat }.

(** [r.Mul(quantity)]: the product dereferences [r.value]. *)
Definition Mul {E : Type} (r : Rate) (quantity : Z) : returns E bigRat.Rat :=
  let q := bigRat.SetInt64 quantity in
  match value r with
  | None => Panics NilDereference
  | Some v => Value (bigRat.Mul v q)
  end.

Definition Raw (r : Rate) : option bigRat.Rat := value r.

End rate.

(** ** [pkg/tax] *)

Module tax.

Record TaxResult : Type := { Base : Money; Tax : Money; Total : Money }.

(** The two functions return a nil error on every path. *)
Inductive error : Type := .

(** Add one half, then floor by the integer division of the numerator
    by the denominator. *)
Definition roundRat (r : bigRat.Rat) : Z :=
  let half := bigRat.NewRat 1 2 in
  let sum := bigRat.Add r half in
  let num := bigRat.Num sum in
  let denom := bigRat.Denom sum in
  big.Int64 (big.Div num denom).

Definition CalculateInclusive (gross : Money) (taxRate : rate.Rate)
    : returns error TaxResult :=
  let grossRat := bigRat.SetInt64 (Amount gross) in
  let one := bigRat.NewRat 1 1 in
  match rate.Raw taxRate with
  | None => Panics NilDereference
  | Some rateRat =>
      let denominator := bigRat.Add one rateRat in
      and_then (bigRat.Quo grossRat denominator) (fun baseRat =>
      let baseCents := roundRat baseRat in
      let taxCents := int64.sub (Amount gross) baseCents in
      Value {| Base := New baseCents (Currency gross);
               Tax := New taxCents (Currency gross);
               Total := gross |})
  end.

Definition CalculateExclusive (base : Money) (taxRate : rate.Rate)
    : returns error TaxResult :=
  let baseRat := bigRat.SetInt64 (Amount base) in
  match rate.Raw taxRate with
  | None => Panics NilDereference
  | Some rateRat =>
      let taxRat := bigRat.Mul baseRat rateRat in
      let taxCents := roundRat taxRat in
      Value {| Base := base;
               Tax := New taxCents (Currency base);
               Total := New (int64.add (Amount base) taxCents)
                          (Currency base) |}
  end.

End tax.

(** ** [pkg/exchange] *)

Module exchange.

Record Rate : Type := {
  Source : string;
  Target : string;
  Price : rate.Rate
}.

(** The error of [Convert], with the two currencies its message is
    formatted from. *)
Inductive error : Type := RateMismatch (money source : string).

Definition roundRat (r : bigRat.Rat) : Z :=
  let half := bigRat.NewRat 1 2 in
  let sum := bigRat.Add r half in
  let num := bigRat.Num sum in
  let denom := bigRat.Denom sum in
  big.Int64 (big.Div num denom).

Definition Convert (amount : Money) (r : Rate) : returns error Money :=
  if decide (Currency amount <> Source r)
  then Error (RateMismatch (Currency amount) (Source r))
  else
    and_then (rate.Mul (Price r) (Amount amount)) (fun convertedRat =>
    let finalAmount := roundRat convertedRat in
    Value (New finalAmount (Target r))).

Record SettlementResult : Type := {
  ConvertedAmount : Money;
  GainLoss : Money;
  IsGain : bool
}.

Definition SettlePayment (foreignAmount : Money) (currentRate : Rate)
    (originalValue : Money) : returns error SettlementResult :=
  and_then (Convert foreignAmount currentRate) (fun actualValue =>
  let diff := int64.sub (Amount actualValue) (Amount originalValue) in
  let gainLoss := New diff (Currency originalValue) in
  let isGain := 0 <=? diff in
  let gainLoss :=
    if diff <? 0
    then New (int64.wrap (- diff)) (Currency originalValue)
    else gainLoss in
  Value {| ConvertedAmount := actualValue;
           GainLoss := gainLoss;
           IsGain := isGain |}).

End exchange.

(** ** [pkg/pricing] *)

Module pricing.

Record Tier : Type := { UpTo : Z; Price : rate.Rate }.

Inductive error : Type := UsageNegative.

(** The loop over the remaining tiers: [total] after it, or the panic
    of a tier that is reached and whose price holds no value. *)
Fixpoint fill (tiers : list Tier) (remainingUsage : Z) (total : bigRat.Rat)
    : returns error bigRat.Rat :=
  match tiers with
  | [] => Value total
  | tier :: rest =>
      if remainingUsage <=? 0 then Value total
      else
        let countInTier :=
          if (UpTo tier =? 0) || (remainingUsage <=? UpTo tier)
          then remainingUsage
          else UpTo tier in
        and_then (rate.Mul (Price tier) countInTier) (fun tierCost =>
        fill rest (int64.sub remainingUsage countInTier)
          (bigRat.Add total tierCost))
  end.

Definition CalculateGraduatedCost (usage : Z) (tiers : list Tier)
    : returns error Money :=
  if usage <? 0 then Error UsageNegative
  else
    and_then (fill tiers usage (bigRat.SetInt64 0)) (fun total =>
    let centsRat := bigRat.Mul total (bigRat.NewRat 100 1) in
    let half := bigRat.NewRat 1 2 in
    let centsRat := bigRat.Add centsRat half in
    let num := bigRat.Num centsRat in
    let denom := bigRat.Denom centsRat in
    let finalCents := big.Int64 (big.Div num denom) in
    Value (New finalCents "USD")).

End pricing.

(** * Properties *)

(** ** [int64] arithmetic *)

Module int64_facts.

Import int64.

Lemma wrap_spec z : exists k, wrap z = z + k * 2 ^ 64 /\ in_range (wrap z).
Proof.
  unfold wrap, in_range, MinInt64, MaxInt64.
  exists (- ((z + 2 ^ 63) `div` 2 ^ 64)).
  pose proof (Z.div_mod (z + 2 ^ 63) (2 ^ 64) ltac:(lia)) as Hdm.
  pose proof (Z.mod_pos_bound (z + 2 ^ 63) (2 ^ 64) ltac:(lia)) as Hb.
  lia.
Qed.

Lemma wrap_in_range z : in_range (wrap z).
Proof. destruct (wrap_spec z) as (k & _ & Hr). exact Hr. Qed.

Lemma wrap_unique z r k : in_range r -> r = z + k * 2 ^ 64 -> wrap z = r.
Proof.
  intros Hr ->. destruct (wrap_spec z) as (k' & Hk' & Hr').
  unfold in_range, MinInt64, MaxInt64 in *. lia.
Qed.

Lemma wrap_id z : in_range z -> wrap z = z.
Proof. intros Hz. apply (wrap_unique z z 0); [exact Hz | lia]. Qed.

(** Two exact results that differ by a multiple of [2^64] wrap to the
    same [int64]. *)
Lemma wrap_congr a b k : a = b + k * 2 ^ 64 -> wrap a = wrap b.
Proof.
  intros ->. destruct (wrap_spec b) as (kb & Hb & Hr).
  apply (wrap_unique _ _ (kb - k)); [exact Hr | lia].
Qed.

Lemma wrap_add_l a b : wrap (wrap a + b) = wrap (a + b).
Proof.
  destruct (wrap_spec a) as (k & Hk & _).
  apply (wrap_congr _ _ k). lia.
Qed.

Lemma wrap_sub_l a b : wrap (wrap a - b) = wrap (a - b).
Proof.
  destruct (wrap_spec a) as (k & Hk & _).
  apply (wrap_congr _ _ k). lia.
Qed.

Lemma wrap_sub_r a b : wrap (a - wrap b) = wrap (a - b).
Proof.
  destruct (wrap_spec b) as (k & Hk & _).
  apply (wrap_congr _ _ (- k)). lia.
Qed.

(** A value strictly between [-n] and [n] wraps to a value below [n]. *)
Lemma wrap_lt_bound z n : - n < z < n -> wrap z < n.
Proof.
  intros Hz. destruct (Z_lt_le_dec n (2 ^ 63)) as [Hn | Hn].
  - rewrite wrap_id; [lia |]. unfold in_range, MinInt64, MaxInt64. lia.
  - pose proof (wrap_in_range z) as Hr.
    unfold in_range, MinInt64, MaxInt64 in Hr. lia.
Qed.

End int64_facts.

(** ** [math/big] division *)

Module big_facts.

Import int64 int64_facts.

(** [Div] and [Mod] are the Euclidean quotient and modulus. *)
Lemma Div_Mod_spec x y :
  y <> 0 ->
  x = y * big.Div x y + big.Mod x y /\ 0 <= big.Mod x y < Z.abs y.
Proof.
  intros Hy. unfold big.Div, big.Mod.
  pose proof (Z.quot_rem' x y) as Hqr.
  pose proof (Z.rem_bound_abs x y Hy) as Hab.
  destruct (Z.ltb_spec (Z.rem x y) 0), (Z.ltb_spec y 0); lia.
Qed.

(** For a positive divisor they are the floor quotient and its modulus. *)
Lemma Div_floor x y : 0 < y -> big.Div x y = x `div` y.
Proof.
  intros Hy. destruct (Div_Mod_spec x y ltac:(lia)) as [Heq Hb].
  apply (Z.div_unique_pos x y _ (big.Mod x y)); lia.
Qed.

Lemma Mod_floor x y : 0 < y -> big.Mod x y = x `mod` y.
Proof.
  intros Hy. destruct (Div_Mod_spec x y ltac:(lia)) as [Heq Hb].
  apply (Z.mod_unique_pos x y (big.Div x y)); lia.
Qed.

Lemma Int64_wrap x : big.Int64 x = wrap x.
Proof.
  unfold big.Int64.
  pose proof (Z.div_mod (Z.abs x) (2 ^ 64) ltac:(lia)) as Hdm.
  set (m := Z.abs x `mod` 2 ^ 64) in *.
  set (d := Z.abs x `div` 2 ^ 64) in *.
  destruct (Z.ltb_spec x 0).
  - rewrite <- (Z.sub_0_l (wrap m)), wrap_sub_r, Z.sub_0_l.
    apply (wrap_congr _ _ d). lia.
  - apply (wrap_congr _ _ (- d)). lia.
Qed.

Lemma Int64_id x : in_range x -> big.Int64 x = x.
Proof. intros Hx. rewrite Int64_wrap. by apply wrap_id. Qed.

End big_facts.

(** ** Sorting routines within the contract of [sort.Slice] *)

Section InsertionSort.

Context {A : Type} (less : A -> A -> bool).

Lemma shift_left_perm x rprefix : shift_left less x rprefix ≡ₚ x :: rprefix.
Proof.
  induction rprefix as [| y rest IH]; simpl; [done |].
  destruct (less x y); [| done].
  rewrite IH. apply Permutation_swap.
Qed.

Lemma shift_left_ordered x rprefix :
  strict_weak less ->
  ordered less (reverse rprefix) ->
  ordered less (reverse (shift_left less x rprefix)).
Proof.
  intros [Hasym Hneg]. unfold ordered.
  induction rprefix as [| y rest IH]; simpl; intros Hord.
  - repeat constructor.
  - rewrite reverse_cons in Hord.
    apply StronglySorted_app in Hord as (Hcross & Hrest & _).
    destruct (less x y) eqn:Hxy; rewrite reverse_cons;
      apply StronglySorted_app.
    + split_and!; [| by apply IH | repeat constructor].
      intros z y' Hz ->%list_elem_of_singleton.
      rewrite elem_of_reverse, shift_left_perm in Hz.
      apply elem_of_cons in Hz as [-> | Hz]; [by apply Hasym |].
      apply Hcross;
        [by rewrite elem_of_reverse | by apply list_elem_of_singleton].
    + split_and!; [| | repeat constructor].
      * intros z x' Hz ->%list_elem_of_singleton.
        rewrite reverse_cons in Hz.
        apply elem_of_app in Hz as [Hz | ->%list_elem_of_singleton];
          [| done].
        apply (Hneg _ y); [done |].
        apply Hcross; [done | by apply list_elem_of_singleton].
      * rewrite reverse_cons. apply StronglySorted_app.
        split_and!; [done | done |]. repeat constructor.
Qed.

Lemma shift_all_perm l rprefix :
  fold_left (fun rp x => shift_left less x rp) l rprefix ≡ₚ l ++ rprefix.
Proof.
  revert rprefix. induction l as [| x l IH]; intros rp; simpl; [done |].
  rewrite IH, shift_left_perm. by rewrite Permutation_middle.
Qed.

Lemma shift_all_ordered l rprefix :
  strict_weak less ->
  ordered less (reverse rprefix) ->
  ordered less
    (reverse (fold_left (fun rp x => shift_left less x rp) l rprefix)).
Proof.
  intros Hsw. revert rprefix.
  induction l as [| x l IH]; intros rp Hord; simpl; [done |].
  apply IH. by apply shift_left_ordered.
Qed.

Lemma insertionSort_perm l : insertionSort A less l ≡ₚ l.
Proof.
  unfold insertionSort.
  rewrite reverse_Permutation, shift_all_perm.
  by rewrite app_nil_r.
Qed.

Lemma insertionSort_ordered l :
  strict_weak less -> ordered less (insertionSort A less l).
Proof.
  intros Hsw. unfold insertionSort.
  apply shift_all_ordered; [done | constructor].
Qed.

End InsertionSort.

Lemma short_slice_sorter_contract : SorterContract short_slice_sorter.
Proof.
  split; intros A less l.
  - apply insertionSort_perm.
  - apply insertionSort_ordered.
Qed.

Lemma mirrored_sorter_contract : SorterContract mirrored_sorter.
Proof.
  split; intros A less l; unfold sort_Slice, mirrored_sorter.
  - by rewrite insertionSort_perm, reverse_Permutation.
  - apply insertionSort_ordered.
Qed.

Lemma less_residue_strict_weak : strict_weak less_residue.
Proof. split; unfold less_residue; intros; lia. Qed.

(** ** Integer sums *)

Lemma Zsum_app l1 l2 : Zsum (l1 ++ l2) = Zsum l1 + Zsum l2.
Proof. induction l1 as [| x l1 IH]; simpl; lia. Qed.

Lemma Zsum_perm l1 l2 : l1 ≡ₚ l2 -> Zsum l1 = Zsum l2.
Proof. induction 1; simpl; lia. Qed.

Lemma Zsum_replicate_0 n : Zsum (replicate n 0) = 0.
Proof. induction n as [| n IH]; simpl; lia. Qed.

Lemma Zsum_insert l i v x :
  l !! i = Some v -> Zsum (<[i := x]> l) = Zsum l - v + x.
Proof.
  revert i. induction l as [| y l IH]; intros [| i] Hl; simplify_eq/=.
  - lia.
  - rewrite (IH i Hl). lia.
Qed.

Lemma Zsum_nonneg l : Forall (fun x => 0 <= x) l -> 0 <= Zsum l.
Proof. induction 1; simpl; lia. Qed.

Lemma Zsum_elem_le l x : Forall (fun y => 0 <= y) l -> x ∈ l -> x <= Zsum l.
Proof.
  induction 1 as [| y l Hy Hl IH]; intros Hx.
  - by apply elem_of_nil in Hx.
  - pose proof (Zsum_nonneg l Hl).
    apply elem_of_cons in Hx as [-> | Hx]; simpl; [lia |].
    specialize (IH Hx). lia.
Qed.

(** ** The passes of [Split] *)

Section Passes.

Import int64 int64_facts big_facts.

Lemma sumWeights_from acc weights :
  in_range acc ->
  fold_left int64.add weights acc = wrap (acc + Zsum weights).
Proof.
  revert acc. induction weights as [| w ws IH]; intros acc Hacc; simpl.
  - rewrite Z.add_0_r. by rewrite wrap_id.
  - rewrite IH by apply wrap_in_range.
    unfold int64.add. rewrite wrap_add_l. f_equal. lia.
Qed.

(** [sumWeights] is the exact sum of the weights, wrapped. *)
Lemma sumWeights_wrap weights : sumWeights weights = wrap (Zsum weights).
Proof.
  unfold sumWeights. rewrite sumWeights_from; [done |].
  unfold in_range, MinInt64, MaxInt64. lia.
Qed.

Lemma sumWeights_exact weights :
  in_range (Zsum weights) -> sumWeights weights = Zsum weights.
Proof. intros Hr. rewrite sumWeights_wrap. by apply wrap_id. Qed.

Section Pass1.

Variables totalAmount sumW : Z.

Lemma pass1_length i weights r :
  length (pass1 totalAmount sumW i weights r).1 = length weights.
Proof.
  revert i r. induction weights as [| w ws IH]; intros i r; simpl; [done |].
  specialize (IH (S i) (int64.sub r (base (make_entry totalAmount sumW i w)))).
  destruct (pass1 _ _ _ _ _) as [es r']. simpl in *. by rewrite IH.
Qed.

Lemma pass1_lookup i weights r k w :
  weights !! k = Some w ->
  (pass1 totalAmount sumW i weights r).1 !! k
  = Some (make_entry totalAmount sumW (i + k) w).
Proof.
  revert i r k. induction weights as [| w0 ws IH]; intros i r k Hk;
    [done |]. simpl.
  specialize (IH (S i) (int64.sub r (base (make_entry totalAmount sumW i w0)))).
  destruct (pass1 _ _ _ _ _) as [es r']. simpl in *.
  destruct k as [| k]; simplify_eq/=.
  - by rewrite Nat.add_0_r.
  - rewrite (IH k Hk). do 2 f_equal. lia.
Qed.

Lemma pass1_index i weights r :
  index <$> (pass1 totalAmount sumW i weights r).1
  = seq i (length weights).
Proof.
  revert i r. induction weights as [| w ws IH]; intros i r; simpl; [done |].
  specialize (IH (S i) (int64.sub r (base (make_entry totalAmount sumW i w)))).
  destruct (pass1 _ _ _ _ _) as [es r']. cbn [fst] in *.
  by rewrite fmap_cons, IH.
Qed.

Lemma pass1_entries i weights r e :
  e ∈ (pass1 totalAmount sumW i weights r).1 ->
  exists k w, weights !! k = Some w
              /\ e = make_entry totalAmount sumW (i + k) w.
Proof.
  intros [k Hk]%list_elem_of_lookup.
  assert (k < length weights)%nat as Hlt.
  { rewrite <- (pass1_length i weights r). by eapply lookup_lt_Some. }
  destruct (lookup_lt_is_Some_2 weights k Hlt) as [w Hw].
  exists k, w. split; [done |].
  rewrite (pass1_lookup i weights r k w Hw) in Hk. by simplify_eq.
Qed.

(** [remainder] ends as the starting amount less every base, wrapped. *)
Lemma pass1_remainder i weights r :
  in_range r \/ weights <> [] ->
  (pass1 totalAmount sumW i weights r).2
  = wrap (r - Zsum (base <$> (pass1 totalAmount sumW i weights r).1)).
Proof.
  revert i r. induction weights as [| w ws IH]; intros i r Hr; simpl.
  - destruct Hr as [Hr | Hr]; [| done].
    rewrite Z.sub_0_r. by rewrite wrap_id.
  - specialize (IH (S i)
      (int64.sub r (base (make_entry totalAmount sumW i w)))
      (or_introl (wrap_in_range _))).
    destruct (pass1 _ _ _ _ _) as [es r']. cbn [fst snd] in *.
    rewrite IH, fmap_cons. unfold int64.sub. rewrite wrap_sub_l.
    f_equal. simpl. lia.
Qed.

End Pass1.

Lemma add_units_ok remainder i rest :
  remainder - i <= Z.of_nat (length rest) ->
  add_units remainder i rest
  = Ok ((bump <$> take (Z.to_nat (remainder - i)) rest)
        ++ drop (Z.to_nat (remainder - i)) rest).
Proof.
  revert i. induction rest as [| e rest IH]; intros i Hle; simpl in *.
  - destruct (Z.ltb_spec i remainder); [lia |].
    by rewrite take_nil, drop_nil.
  - destruct (Z.ltb_spec i remainder).
    + rewrite IH by lia. simpl.
      replace (Z.to_nat (remainder - i))
        with (S (Z.to_nat (remainder - (i + 1)))) by lia.
      done.
    + replace (Z.to_nat (remainder - i)) with 0%nat by lia. done.
Qed.

Lemma add_units_panic remainder i rest :
  Z.of_nat (length rest) < remainder - i ->
  add_units remainder i rest = Panic IndexOutOfRange.
Proof.
  revert i. induction rest as [| e rest IH]; intros i Hlt; simpl in *.
  - destruct (Z.ltb_spec i remainder); [done | lia].
  - destruct (Z.ltb_spec i remainder); [| lia].
    by rewrite IH by lia.
Qed.

(** Pass 3 writes every base at the index of its entry. *)
Lemma pass3_spec entries finalParts :
  NoDup (index <$> entries) ->
  Forall (fun e => (index e < length finalParts)%nat) entries ->
  exists out,
    pass3 entries finalParts = Ok out
    /\ length out = length finalParts
    /\ (forall e, e ∈ entries -> out !! index e = Some (base e))
    /\ (forall i, i ∉ index <$> entries -> out !! i = finalParts !! i).
Proof.
  revert finalParts.
  induction entries as [| e es IH]; intros fp Hnd Hlt; simpl.
  - exists fp. split_and!; [done | done | | done].
    intros e He. by apply elem_of_nil in He.
  - apply NoDup_cons in Hnd as [Hnotin Hnd].
    apply Forall_cons in Hlt as [He Hlt].
    unfold store. rewrite decide_True by done. simpl.
    destruct (IH (<[index e := base e]> fp) Hnd)
      as (out & Hout & Hlen & Hin & Hother).
    { eapply Forall_impl; [exact Hlt |]. intros e'. by rewrite length_insert. }
    exists out. rewrite length_insert in Hlen.
    split_and!; [done | done | |].
    + intros e' [-> | He']%elem_of_cons; [| by apply Hin].
      rewrite (Hother _ Hnotin). by apply list_lookup_insert_eq.
    + intros i Hi. apply not_elem_of_cons in Hi as [Hne Hi].
      rewrite (Hother i Hi). by apply list_lookup_insert_ne.
Qed.

(** Over slots that start at zero, pass 3 leaves the sum of the bases. *)
Lemma pass3_sum entries finalParts out :
  NoDup (index <$> entries) ->
  Forall (fun e => finalParts !! index e = Some 0) entries ->
  pass3 entries finalParts = Ok out ->
  Zsum out = Zsum finalParts + Zsum (base <$> entries).
Proof.
  revert finalParts.
  induction entries as [| e es IH]; intros fp Hnd Hz Hrun.
  - simpl in *. simplify_eq. lia.
  - rewrite fmap_cons in Hnd. apply NoDup_cons in Hnd as [Hnotin Hnd].
    apply Forall_cons in Hz as [He Hz].
    cbn [pass3] in Hrun. unfold store in Hrun.
    rewrite decide_True in Hrun by (by eapply lookup_lt_Some).
    cbn [bind] in Hrun.
    rewrite (IH (<[index e := base e]> fp) Hnd).
    + rewrite (Zsum_insert _ _ 0) by done.
      rewrite fmap_cons. cbn [Zsum foldr]. fold (Zsum (base <$> es)). lia.
    + apply Forall_forall. intros e' He'.
      rewrite list_lookup_insert_ne.
      * by eapply Forall_forall in Hz.
      * intros Heq. apply Hnotin. rewrite Heq.
        by apply list_elem_of_fmap_2.
    + done.
Qed.

End Passes.

(** ** A run of [Split] *)

Lemma Amount_New (amounts : list Z) (currency : string) :
  Amount <$> ((fun amt => New amt currency) <$> amounts) = amounts.
Proof. induction amounts as [| a l IH]; csimpl; [done | by rewrite IH]. Qed.

Section SplitRun.

Import int64 int64_facts big_facts.

Context {sorter : Sorter} {contract : SorterContract sorter}.

Lemma ranking_perm total weights :
  ranking total weights ≡ₚ entries_of total weights.
Proof. apply sort_Slice_perm. Qed.

Lemma ranking_ordered total weights :
  ordered less_residue (ranking total weights).
Proof. apply sort_Slice_ordered, less_residue_strict_weak. Qed.

Lemma ranking_length total weights :
  length (ranking total weights) = length weights.
Proof.
  rewrite (Permutation_length (ranking_perm total weights)).
  apply pass1_length.
Qed.

Lemma ranking_index total weights :
  index <$> ranking total weights ≡ₚ seq 0 (length weights).
Proof.
  rewrite (ranking_perm total weights). unfold entries_of.
  by rewrite pass1_index.
Qed.

(** When the remainder does not exceed the number of weights, [Split]
    returns one part per weight: the base of the entry with that index,
    incremented for the first [remainder] entries of the ranking. *)
Lemma Split_run total weights :
  weights <> [] ->
  sumWeights weights <> 0 ->
  remainder_of total weights <= Z.of_nat (length weights) ->
  let k := Z.to_nat (remainder_of total weights) in
  exists parts,
    Split total weights = Ok parts
    /\ length parts = length weights
    /\ (forall e, e ∈ take k (ranking total weights) ->
          parts !! index e
          = Some (New (int64.incr (base e)) (Currency total)))
    /\ (forall e, e ∈ drop k (ranking total weights) ->
          parts !! index e = Some (New (base e) (Currency total)))
    /\ Zsum (Amount <$> parts)
       = Zsum (int64.incr ∘ base <$> take k (ranking total weights))
         + Zsum (base <$> drop k (ranking total weights)).
Proof.
  intros Hne Hsum Hrem k.
  pose proof (ranking_index total weights) as Hidx.
  pose proof (ranking_length total weights) as Hlen.
  unfold Split, ranking, remainder_of, entries_of in *.
  rewrite decide_False by (by destruct weights).
  rewrite decide_False by done.
  destruct (pass1 _ _ _ _ _) as [es rem]. cbn [fst snd] in *.
  set (ss := sort_Slice less_residue es) in *.
  rewrite add_units_ok by (rewrite Hlen; lia).
  rewrite Z.sub_0_r. fold k. cbn [bind].
  set (bs := (bump <$> take k ss) ++ drop k ss).
  assert (index <$> bs = index <$> ss) as Hbs.
  { unfold bs. rewrite fmap_app, <- list_fmap_compose.
    rewrite <- fmap_app. by rewrite take_drop. }
  destruct (pass3_spec bs (replicate (length weights) 0))
    as (out & Hout & Hlo & Hin & _).
  { rewrite Hbs, Hidx. apply NoDup_seq. }
  { apply Forall_forall. intros e He. rewrite length_replicate.
    assert (index e ∈ index <$> bs) as Hi by (by apply list_elem_of_fmap_2).
    rewrite Hbs, Hidx in Hi. apply elem_of_seq in Hi. lia. }
  rewrite Hout. cbn [bind]. eexists. split; [reflexivity |].
  rewrite length_fmap, Hlo, length_replicate.
  split_and!; [done | | |].
  - intros e He. rewrite list_lookup_fmap.
    assert (bump e ∈ bs) as Hb
      by (apply elem_of_app; left; by apply list_elem_of_fmap_2).
    apply Hin in Hb. cbn [bump index base] in Hb. by rewrite Hb.
  - intros e He. rewrite list_lookup_fmap.
    rewrite (Hin e); [done |]. apply elem_of_app. by right.
  - rewrite Amount_New.
    rewrite (pass3_sum bs (replicate (length weights) 0) out);
      [| | | done].
    + rewrite Zsum_replicate_0. unfold bs.
      rewrite fmap_app, Zsum_app, <- list_fmap_compose. done.
    + rewrite Hbs, Hidx. apply NoDup_seq.
    + apply Forall_forall. intros e He.
      assert (index e ∈ index <$> bs) as Hi by (by apply list_elem_of_fmap_2).
      rewrite Hbs, Hidx in Hi. apply elem_of_seq in Hi.
      apply lookup_replicate_2. lia.
Qed.

End SplitRun.

(** ** [Split] on valid weights *)

Lemma Zsum_fmap_succ {A : Type} (f g : A -> Z) (l : list A) :
  Forall (fun x => f x = g x + 1) l ->
  Zsum (f <$> l) = Zsum (g <$> l) + Z.of_nat (length l).
Proof.
  induction 1 as [| x l Hx Hl IH]; [done |].
  rewrite !fmap_cons. cbn [Zsum foldr length].
  fold (Zsum (f <$> l)). fold (Zsum (g <$> l)). lia.
Qed.

Lemma quotient_bounds T S w :
  0 < S -> 0 <= w <= S ->
  Z.min T 0 <= (T * w) `div` S <= Z.max T 0.
Proof.
  intros HS Hw. destruct (Z_le_gt_dec 0 T) as [HT | HT].
  - split.
    + etrans; [apply Z.le_min_r |]. apply Z.div_pos; nia.
    + etrans; [| apply Z.le_max_l]. apply Z.div_le_upper_bound; nia.
  - split.
    + etrans; [apply Z.le_min_l |]. apply Z.div_le_lower_bound; nia.
    + etrans; [| apply Z.le_max_r]. apply Z.div_le_upper_bound; nia.
Qed.

(** The exact shares of a list of weights: the quotients and the moduli
    add up to the whole. *)
Lemma shares_sum T S (weights : list Z) :
  S <> 0 ->
  T * Zsum weights
  = S * Zsum ((fun w => (T * w) `div` S) <$> weights)
    + Zsum ((fun w => (T * w) `mod` S) <$> weights).
Proof.
  intros HS. induction weights as [| w ws IH]; [simpl; lia |].
  rewrite !fmap_cons. cbn [Zsum foldr].
  fold (Zsum ws). fold (Zsum ((fun w => (T * w) `div` S) <$> ws)).
  fold (Zsum ((fun w => (T * w) `mod` S) <$> ws)).
  pose proof (Z.div_mod (T * w) S HS). lia.
Qed.

Lemma moduli_bounds T S (weights : list Z) :
  0 < S -> Forall (fun w => 0 <= w) weights ->
  0 <= Zsum ((fun w => (T * w) `mod` S) <$> weights)
  /\ Zsum ((fun w => (T * w) `mod` S) <$> weights)
     <= (S - 1) * Z.of_nat (length weights)
  /\ Zsum ((fun w => (T * w) `mod` S) <$> weights)
     <= (S - 1) * Zsum weights.
Proof.
  intros HS. induction 1 as [| w ws Hw Hws IH]; [simpl; lia |].
  rewrite !fmap_cons. cbn [Zsum foldr length].
  fold (Zsum ws). fold (Zsum ((fun w => (T * w) `mod` S) <$> ws)).
  pose proof (Z.mod_pos_bound (T * w) S HS) as Hb.
  destruct IH as (IH0 & IH1 & IH2). split_and!; [lia | lia |].
  destruct (decide (w = 0)) as [-> | Hne].
  - rewrite Z.mul_0_r, Z.mod_0_l by lia. lia.
  - nia.
Qed.

Section ValidSplit.

Import int64 int64_facts big_facts.

Context {sorter : Sorter} {contract : SorterContract sorter}.

Variables (total : Money) (weights : list Z).

Hypothesis total_in_range : in_range (Amount total).
Hypothesis weights_valid : valid_weights weights.

Let T := Amount total.
Let sumW := Zsum weights.

Lemma valid_nonempty : weights <> [].
Proof. destruct weights_valid as [_ Hs]. intros ->. simpl in Hs. lia. Qed.

Lemma valid_sum_positive : 0 < sumW <= MaxInt64.
Proof. by destruct weights_valid. Qed.

Lemma valid_sumWeights : sumWeights weights = sumW.
Proof.
  pose proof valid_sum_positive.
  apply sumWeights_exact. unfold in_range, MinInt64, MaxInt64 in *.
  fold sumW. lia.
Qed.

Lemma valid_weight_bounds w : w ∈ weights -> 0 <= w <= sumW.
Proof.
  destruct weights_valid as [Hw _]. intros Hin. split.
  - by eapply Forall_forall in Hw.
  - by apply Zsum_elem_le.
Qed.

(** No narrowing from [big.Int] loses anything: base and residue are
    the exact floor quotient and modulus. *)
Lemma valid_make_entry i w :
  w ∈ weights ->
  make_entry T sumW i w
  = {| index := i; base := (T * w) `div` sumW;
       residue := (T * w) `mod` sumW |}.
Proof.
  intros Hin. pose proof valid_sum_positive as HS.
  pose proof (valid_weight_bounds w Hin) as Hw.
  unfold make_entry, big.Mul.
  rewrite Div_floor, Mod_floor by lia.
  pose proof (quotient_bounds T sumW w ltac:(lia) Hw) as Hq.
  pose proof (Z.mod_pos_bound (T * w) sumW ltac:(lia)) as Hm.
  pose proof total_in_range as Ht. fold T in Ht.
  rewrite !Int64_id; [done | |];
    unfold in_range, MinInt64, MaxInt64 in *; lia.
Qed.

Lemma valid_entry e :
  e ∈ entries_of total weights ->
  exists w, weights !! index e = Some w
            /\ base e = (T * w) `div` sumW
            /\ residue e = (T * w) `mod` sumW.
Proof.
  unfold entries_of. rewrite valid_sumWeights. fold T.
  intros (k & w & Hk & ->)%pass1_entries.
  rewrite valid_make_entry by (by eapply list_elem_of_lookup_2).
  exists w. by rewrite Nat.add_0_l.
Qed.

Lemma valid_entry_at i w :
  weights !! i = Some w ->
  {| index := i; base := (T * w) `div` sumW; residue := (T * w) `mod` sumW |}
  ∈ entries_of total weights.
Proof.
  intros Hi. apply list_elem_of_lookup. exists i.
  unfold entries_of. rewrite valid_sumWeights. fold T.
  rewrite (pass1_lookup _ _ _ _ _ _ w Hi), Nat.add_0_l.
  by rewrite valid_make_entry by (by eapply list_elem_of_lookup_2).
Qed.

Lemma valid_bases :
  base <$> entries_of total weights
  = (fun w => (T * w) `div` sumW) <$> weights.
Proof.
  apply list_eq. intros i. rewrite !list_lookup_fmap.
  destruct (weights !! i) as [w |] eqn:Hi; simpl.
  - unfold entries_of. rewrite valid_sumWeights. fold T.
    rewrite (pass1_lookup _ _ _ _ _ _ w Hi), Nat.add_0_l.
    rewrite valid_make_entry by (by eapply list_elem_of_lookup_2). done.
  - rewrite lookup_ge_None_2; [done |].
    unfold entries_of. rewrite pass1_length. by apply lookup_ge_None_1.
Qed.

(** The remainder pass 1 leaves is what the moduli add up to, in units
    of the weight sum: at least zero, below the number of weights. *)
Lemma valid_remainder :
  remainder_of total weights = T - Zsum (base <$> entries_of total weights)
  /\ 0 <= remainder_of total weights < Z.of_nat (length weights).
Proof.
  pose proof valid_sum_positive as HS.
  destruct weights_valid as [Hw _].
  pose proof (shares_sum T sumW weights ltac:(lia)) as Hsh.
  pose proof (moduli_bounds T sumW weights ltac:(lia) Hw) as (Hm0 & Hm1 & Hm2).
  fold sumW in Hsh, Hm2.
  unfold remainder_of.
  rewrite pass1_remainder by (left; exact total_in_range).
  fold (entries_of total weights). fold T. rewrite valid_bases.
  set (Q := Zsum ((fun w => (T * w) `div` sumW) <$> weights)) in *.
  set (M := Zsum ((fun w => (T * w) `mod` sumW) <$> weights)) in *.
  assert (0 <= T - Q) by nia.
  assert (T - Q <= sumW - 1) by nia.
  assert (0 < Z.of_nat (length weights)) as Hn.
  { pose proof valid_nonempty. destruct weights; simpl; [done | lia]. }
  assert (T - Q < Z.of_nat (length weights)) by nia.
  rewrite wrap_id by (unfold in_range, MinInt64, MaxInt64 in *; lia).
  lia.
Qed.

Lemma valid_bases_nonneg :
  0 <= T -> Forall (fun b => 0 <= b) (base <$> entries_of total weights).
Proof.
  intros HT. rewrite valid_bases. apply Forall_fmap, Forall_forall.
  intros w Hw. simpl.
  pose proof valid_sum_positive as HS.
  pose proof (quotient_bounds T sumW w ltac:(lia) (valid_weight_bounds w Hw)).
  lia.
Qed.

(** A unit is handed out only when the total is not spent by the bases;
    for a total that is not negative this leaves it positive. *)
Lemma valid_remainder_le_total : 0 <= T -> remainder_of total weights <= T.
Proof.
  intros HT. destruct valid_remainder as [-> _].
  pose proof (Zsum_nonneg _ (valid_bases_nonneg HT)). lia.
Qed.

(** Incrementing the base of an entry that receives a unit does not
    leave [int64]. *)
Lemma valid_bump e :
  e ∈ entries_of total weights ->
  1 <= remainder_of total weights ->
  int64.incr (base e) = base e + 1.
Proof.
  intros He HR. unfold int64.incr. apply wrap_id.
  pose proof valid_sum_positive as HS.
  pose proof total_in_range as Ht. fold T in Ht.
  destruct (valid_entry e He) as (w & Hw & Hb & _).
  pose proof (quotient_bounds T sumW w ltac:(lia)
    (valid_weight_bounds w (list_elem_of_lookup_2 _ _ _ Hw))) as Hq.
  rewrite <- Hb in Hq.
  destruct (Z_le_gt_dec 0 T) as [HT | HT].
  - destruct valid_remainder as [HRe _].
    pose proof (Zsum_elem_le _ (base e) (valid_bases_nonneg HT)
      (list_elem_of_fmap_2 base _ _ He)).
    unfold in_range, MinInt64, MaxInt64 in *. lia.
  - unfold in_range, MinInt64, MaxInt64 in *. lia.
Qed.

(** [Split] on valid input: it returns one part per weight, the first
    [remainder] entries of the ranking get their base plus one, the
    others their base, and the parts add up to the total. *)
Lemma Split_valid :
  let k := Z.to_nat (remainder_of total weights) in
  exists parts,
    Split total weights = Ok parts
    /\ length parts = length weights
    /\ (forall e, e ∈ take k (ranking total weights) ->
          parts !! index e = Some (New (base e + 1) (Currency total)))
    /\ (forall e, e ∈ drop k (ranking total weights) ->
          parts !! index e = Some (New (base e) (Currency total)))
    /\ Zsum (Amount <$> parts) = T.
Proof.
  intros k. destruct valid_remainder as [HRe HR].
  destruct (Split_run total weights valid_nonempty) as
    (parts & Hrun & Hlen & Htake & Hdrop & Hsum).
  { rewrite valid_sumWeights. pose proof valid_sum_positive. lia. }
  { lia. }
  fold k in Htake, Hdrop, Hsum.
  assert (forall e, e ∈ take k (ranking total weights) ->
                    int64.incr (base e) = base e + 1) as Hincr.
  { intros e He. apply valid_bump.
    - rewrite <- (ranking_perm total weights).
      rewrite <- (take_drop k (ranking total weights)).
      apply elem_of_app. by left.
    - destruct (decide (k = 0%nat)) as [Hk | Hk]; [| lia].
      rewrite Hk, take_0 in He. by apply elem_of_nil in He. }
  exists parts. split_and!; [done | done | | done |].
  - intros e He. rewrite (Htake e He). by rewrite Hincr.
  - rewrite Hsum.
    rewrite (Zsum_fmap_succ (int64.incr ∘ base) base)
      by (apply Forall_forall; intros e He; by apply Hincr).
    rewrite length_take, (ranking_length total weights).
    rewrite <- Z.add_assoc, (Z.add_comm (Z.of_nat _)), Z.add_assoc.
    rewrite <- Zsum_app, <- fmap_app, take_drop.
    rewrite (Zsum_perm _ (base <$> entries_of total weights))
      by (by rewrite (ranking_perm total weights)).
    unfold k. lia.
Qed.

(** Where the part of a given index comes from. *)
Lemma Split_valid_part parts i w :
  Split total weights = Ok parts ->
  weights !! i = Some w ->
  let e := {| index := i; base := (T * w) `div` sumW;
              residue := (T * w) `mod` sumW |} in
  let k := Z.to_nat (remainder_of total weights) in
  (e ∈ take k (ranking total weights)
   /\ parts !! i = Some (New ((T * w) `div` sumW + 1) (Currency total)))
  \/ (e ∈ drop k (ranking total weights)
      /\ parts !! i = Some (New ((T * w) `div` sumW) (Currency total))).
Proof.
  intros Hrun Hi e k.
  destruct Split_valid as (parts' & Hrun' & _ & Htake & Hdrop & _).
  rewrite Hrun in Hrun'. injection Hrun' as <-.
  fold k in Htake, Hdrop.
  pose proof (valid_entry_at i w Hi) as He. fold e in He.
  rewrite <- (ranking_perm total weights) in He.
  rewrite <- (take_drop k (ranking total weights)) in He.
  apply elem_of_app in He as [He | He]; [left | right].
  - split; [done |]. by apply (Htake e).
  - split; [done |]. by apply (Hdrop e).
Qed.

Lemma Split_valid_nonneg parts :
  0 <= T ->
  Split total weights = Ok parts ->
  Forall (fun p => 0 <= Amount p) parts.
Proof.
  intros HT Hrun. apply Forall_lookup. intros i p Hp.
  destruct Split_valid as (parts' & Hrun' & Hlen & _).
  rewrite Hrun in Hrun'. injection Hrun' as <-.
  destruct (lookup_lt_is_Some_2 weights i) as [w Hw].
  { rewrite <- Hlen. by eapply lookup_lt_Some. }
  pose proof valid_sum_positive as HS.
  pose proof (quotient_bounds T sumW w ltac:(lia)
    (valid_weight_bounds w (list_elem_of_lookup_2 _ _ _ Hw))) as Hq.
  destruct (Split_valid_part parts i w Hrun Hw) as [[_ Hi] | [_ Hi]];
    rewrite Hp in Hi; injection Hi as ->; simpl; lia.
Qed.

Lemma Split_valid_monotone parts i j wi wj pi pj :
  0 <= T ->
  Split total weights = Ok parts ->
  weights !! i = Some wi -> weights !! j = Some wj ->
  parts !! i = Some pi -> parts !! j = Some pj ->
  wj < wi -> Amount pj <= Amount pi.
Proof.
  intros HT Hrun Hwi Hwj Hpi Hpj Hlt.
  pose proof valid_sum_positive as HS.
  assert ((T * wj) `div` sumW <= (T * wi) `div` sumW) as Hq
    by (apply Z.div_le_mono; nia).
  destruct (Split_valid_part parts i wi Hrun Hwi) as [[Hei Hi] | [Hei Hi]];
    destruct (Split_valid_part parts j wj Hrun Hwj) as [[Hej Hj] | [Hej Hj]];
    rewrite Hpi in Hi; rewrite Hpj in Hj;
    injection Hi as ->; injection Hj as ->; simpl; try lia.
  (* [j] receives a unit and [i] does not: [i] is ranked after [j] *)
  pose proof (ranking_ordered total weights) as Hord.
  rewrite <- (take_drop (Z.to_nat (remainder_of total weights))
                (ranking total weights)) in Hord.
  pose proof (StronglySorted_app_1_elem_of _ _ _ _ _ Hord Hej Hei) as Hres.
  unfold less_residue in Hres. simpl in Hres.
  apply Z.ltb_ge in Hres.
  assert (1 <= remainder_of total weights) as HR.
  { destruct (Z_le_gt_dec 1 (remainder_of total weights)); [done |].
    replace (Z.to_nat (remainder_of total weights)) with 0%nat in Hej by lia.
    rewrite take_0 in Hej. by apply elem_of_nil in Hej. }
  pose proof (valid_remainder_le_total HT) as HRT.
  pose proof (Z.div_mod (T * wi) sumW ltac:(lia)).
  pose proof (Z.div_mod (T * wj) sumW ltac:(lia)).
  nia.
Qed.

End ValidSplit.

(** ** [Split] on any weights whose sum [int64] can hold *)

Lemma Zsum_wrap (l : list Z) :
  exists k, Zsum (int64.wrap <$> l) = Zsum l + k * 2 ^ 64.
Proof.
  induction l as [| x l [k IH]]; [exists 0; simpl; lia |].
  destruct (int64_facts.wrap_spec x) as (kx & Hx & _).
  exists (kx + k). rewrite fmap_cons. cbn [Zsum foldr].
  fold (Zsum (int64.wrap <$> l)). fold (Zsum l). lia.
Qed.

(** The Euclidean shares of a list of weights. *)
Lemma euclid_shares T S (weights : list Z) :
  S <> 0 ->
  T * Zsum weights
  = S * Zsum ((fun w => big.Div (big.Mul T w) S) <$> weights)
    + Zsum ((fun w => big.Mod (big.Mul T w) S) <$> weights)
  /\ 0 <= Zsum ((fun w => big.Mod (big.Mul T w) S) <$> weights)
     <= (Z.abs S - 1) * Z.of_nat (length weights).
Proof.
  intros HS. induction weights as [| w ws IH]; [simpl; lia |].
  rewrite !fmap_cons. cbn [Zsum foldr length].
  fold (Zsum ws).
  fold (Zsum ((fun w => big.Div (big.Mul T w) S) <$> ws)).
  fold (Zsum ((fun w => big.Mod (big.Mul T w) S) <$> ws)).
  destruct (big_facts.Div_Mod_spec (big.Mul T w) S HS) as [Heq Hb].
  unfold big.Mul in Heq at 1. lia.
Qed.

Section RepresentableSum.

Import int64 int64_facts big_facts.

Context {sorter : Sorter} {contract : SorterContract sorter}.

Variables (total : Money) (weights : list Z).

Hypothesis sum_in_range : in_range (Zsum weights).
Hypothesis weights_nonempty : weights <> [].
Hypothesis sum_nonzero : Zsum weights <> 0.

Lemma representable_bases :
  base <$> entries_of total weights
  = int64.wrap
      <$> ((fun w => big.Div (big.Mul (Amount total) w) (Zsum weights))
             <$> weights).
Proof.
  apply list_eq. intros i. rewrite !list_lookup_fmap.
  unfold entries_of. rewrite (sumWeights_exact _ sum_in_range).
  destruct (weights !! i) as [w |] eqn:Hi.
  - rewrite (pass1_lookup _ _ _ _ _ _ w Hi). simpl.
    by rewrite Int64_wrap.
  - rewrite lookup_ge_None_2; [done |].
    rewrite pass1_length. by apply lookup_ge_None_1.
Qed.

(** Whatever the signs of the weights, the remainder stays below their
    number, so the loop that hands out the units never leaves the
    slice. *)
Lemma representable_remainder :
  remainder_of total weights < Z.of_nat (length weights).
Proof.
  unfold remainder_of. rewrite pass1_remainder by (by right).
  fold (entries_of total weights). rewrite representable_bases.
  destruct (Zsum_wrap
    ((fun w => big.Div (big.Mul (Amount total) w) (Zsum weights))
       <$> weights)) as [k Hk].
  rewrite (wrap_congr _
    (Amount total
     - Zsum ((fun w => big.Div (big.Mul (Amount total) w) (Zsum weights))
               <$> weights)) (- k)) by lia.
  apply wrap_lt_bound.
  destruct (euclid_shares (Amount total) (Zsum weights) weights sum_nonzero)
    as (Hsh & Hm0 & Hm1).
  assert (0 < Z.of_nat (length weights)) as Hn
    by (destruct weights; simpl; [done | lia]).
  nia.
Qed.

Lemma Split_representable :
  exists parts,
    Split total weights = Ok parts /\ length parts = length weights.
Proof.
  pose proof representable_remainder as HR.
  destruct (Split_run total weights weights_nonempty)
    as (parts & Hrun & Hlen & _); [| lia | by exists parts].
  by rewrite (sumWeights_exact _ sum_in_range).
Qed.

End RepresentableSum.

(** ** Every part [Split] returns is an [int64] *)

Lemma pass3_Forall (P : Z -> Prop) entries finalParts out :
  Forall P finalParts ->
  Forall (fun e => P (base e)) entries ->
  pass3 entries finalParts = Ok out ->
  Forall P out.
Proof.
  revert finalParts.
  induction entries as [| e es IH]; intros fp Hfp Hes Hrun; simpl in Hrun.
  - by simplify_eq.
  - apply Forall_cons in Hes as [He Hes]. unfold store in Hrun.
    destruct (decide _); [| done]. simpl in Hrun.
    eapply IH; [| done | done]. by apply Forall_insert.
Qed.

Lemma add_units_Forall (P : entry -> Prop) remainder i rest out :
  (forall e, P e -> P (bump e)) ->
  Forall P rest ->
  add_units remainder i rest = Ok out ->
  Forall P out.
Proof.
  intros Hbump. revert i out.
  induction rest as [| e rest IH]; intros i out Hrest Hrun; simpl in Hrun.
  - destruct (i <? remainder); [done |]. by simplify_eq.
  - apply Forall_cons in Hrest as [He Hrest].
    destruct (i <? remainder).
    + destruct (add_units remainder (i + 1) rest) as [rest' | |] eqn:Hrec;
        [| done | done].
      simpl in Hrun. simplify_eq. apply Forall_cons. split; [by apply Hbump |].
      by eapply IH.
    + simplify_eq. by apply Forall_cons.
Qed.

Lemma Split_parts_in_range
    {sorter : Sorter} {contract : SorterContract sorter} total weights parts :
  Split total weights = Ok parts ->
  Forall (fun p => int64.in_range (Amount p)) parts.
Proof.
  unfold Split. intros Hrun.
  destruct (decide _); [done |]. destruct (decide _); [done |].
  pose proof (pass1_entries (Amount total) (sumWeights weights) 0 weights
                (Amount total)) as Hent.
  destruct (pass1 _ _ _ _ _) as [es rem]. cbn [fst] in Hent.
  destruct (add_units _ _ _) as [bs | |] eqn:Hadd; [| done | done].
  cbn [bind] in Hrun.
  destruct (pass3 _ _) as [out | |] eqn:Hp3; [| done | done].
  cbn [bind] in Hrun. simplify_eq.
  apply Forall_fmap. simpl.
  eapply (pass3_Forall int64.in_range); [| | exact Hp3].
  - apply Forall_replicate. unfold int64.in_range, int64.MinInt64,
      int64.MaxInt64. lia.
  - eapply (add_units_Forall (fun e => int64.in_range (base e)));
      [| | exact Hadd].
    + intros e _. apply int64_facts.wrap_in_range.
    + rewrite sort_Slice_perm. apply Forall_forall.
      intros e (k & w & _ & ->)%Hent. simpl.
      rewrite big_facts.Int64_wrap. apply int64_facts.wrap_in_range.
Qed.

(** ** The allocator *)

Lemma Node_ind' (P : Node -> Prop) :
  (forall name weight children allocated,
      Forall P children -> P (NewNode' name weight children allocated)) ->
  forall node, P node.
Proof.
  intros HP. fix IH 1. intros [name weight children allocated]. apply HP.
  induction children as [| c cs IHcs]; constructor; [apply IH | exact IHcs].
Qed.

Section Allocator.

Context {sorter : Sorter}.

(** The first statement of [AllocateTree], and of the body of step C,
    is never undone. *)
Lemma assign_distribute_allocated node amount :
  Allocated (assign_distribute node amount).1 = amount.
Proof.
  destruct node as [name weight [| c cs] allocated]; [done |].
  cbn [assign_distribute].
  destruct (Split _ _); [| done | done].
  by destruct (step_C _ _ _).
Qed.

Lemma step_C_structure children amounts :
  Forall (fun c => forall a,
            structure (assign_distribute c a).1 = structure c) children ->
  structure <$> (step_C assign_distribute children amounts).1
  = structure <$> children.
Proof.
  intros Hall. revert amounts.
  induction Hall as [| c cs Hc Hcs IH]; intros amounts; [done |].
  cbn [step_C]. destruct amounts as [| a amounts]; [done |].
  specialize (Hc a). specialize (IH amounts).
  destruct (assign_distribute c a) as [c' o]. cbn [fst] in Hc.
  destruct o; [| by cbn [fst]; rewrite !fmap_cons, Hc ..].
  destruct (step_C _ _ _) as [cs' o']. cbn [fst] in *.
  by rewrite !fmap_cons, Hc, IH.
Qed.

Lemma assign_distribute_structure node amount :
  structure (assign_distribute node amount).1 = structure node.
Proof.
  revert amount.
  induction node as [name weight children allocated IH] using Node_ind'.
  intros amount. destruct children as [| c cs]; [done |].
  cbn [assign_distribute].
  destruct (Split _ _) as [amounts | |]; [| done | done].
  pose proof (step_C_structure (c :: cs) amounts IH) as Hs.
  destruct (step_C _ _ _) as [cs' o]. cbn [fst structure] in *.
  by rewrite Hs.
Qed.

(** Where step C stops on an error: the children before the failing
    one are done, the failing one holds its amount, and the children
    after it are as they were. *)
Lemma step_C_failed children amounts children' e :
  step_C assign_distribute children amounts = (children', Failed e) ->
  exists i child amount,
    children !! i = Some child
    /\ amounts !! i = Some amount
    /\ (assign_distribute child amount).2 = Failed e
    /\ children' !! i = Some (assign_distribute child amount).1
    /\ (forall k c a, (k < i)%nat ->
          children !! k = Some c -> amounts !! k = Some a ->
          (assign_distribute c a).2 = Done
          /\ children' !! k = Some (assign_distribute c a).1)
    /\ (forall k, (i < k)%nat -> children' !! k = children !! k).
Proof.
  revert amounts children'.
  induction children as [| c cs IH]; intros amounts children' Hrun;
    simpl in Hrun; [done |].
  destruct amounts as [| a amounts]; [done |].
  destruct (assign_distribute c a) as [c' o] eqn:Hc.
  destruct o as [| e' | p].
  - destruct (step_C _ _ _) as [cs' o'] eqn:Hrest. simplify_eq.
    destruct (IH amounts cs' Hrest)
      as (i & child & amount & Hi & Ha & Hfail & Hi' & Hbefore & Hafter).
    exists (S i), child, amount. split_and!; try done.
    + intros [| k] c0 a0 Hk Hc0 Ha0; simplify_eq/=.
      * by rewrite Hc.
      * apply Hbefore; [lia | done | done].
    + intros [| k] Hk; [lia |]. simpl. apply Hafter. lia.
  - simplify_eq. exists 0%nat, c, a. rewrite Hc.
    split_and!; try done.
    + intros k c0 a0 Hk. lia.
    + intros [| k] Hk; [lia | done].
  - done.
Qed.

End Allocator.

Lemma conserved_internal name weight c cs allocated :
  conserved (NewNode' name weight (c :: cs) allocated)
  = (Amount allocated =? Zsum (Amount ∘ Allocated <$> c :: cs))
    && forallb conserved (c :: cs).
Proof. reflexivity. Qed.

Section AllocatorValid.

Import int64.

Context {sorter : Sorter} {contract : SorterContract sorter}.

Lemma step_C_conserves children amounts :
  Forall (fun c => forall a,
            in_range (Amount a) ->
            (assign_distribute c a).2 = Done
            /\ conserved (assign_distribute c a).1 = true) children ->
  length amounts = length children ->
  Forall (fun p => in_range (Amount p)) amounts ->
  (step_C assign_distribute children amounts).2 = Done
  /\ Allocated <$> (step_C assign_distribute children amounts).1 = amounts
  /\ forallb conserved (step_C assign_distribute children amounts).1 = true.
Proof.
  intros Hall. revert amounts.
  induction Hall as [| c cs Hc Hcs IH]; intros amounts Hlen Hrange.
  - by destruct amounts.
  - destruct amounts as [| a amounts]; [done |].
    apply Forall_cons in Hrange as [Ha Hrange].
    cbn [step_C]. destruct (Hc a Ha) as [Ho Hcons].
    pose proof (assign_distribute_allocated c a) as Hal.
    destruct (assign_distribute c a) as [c' o]. cbn [fst snd] in *. subst o.
    destruct (IH amounts) as (Ho' & Hal' & Hcons'); [by simplify_eq/= | done |].
    destruct (step_C _ _ _) as [cs' o']. cbn [fst snd] in *.
    split_and!; [done | by rewrite fmap_cons, Hal, Hal' |].
    cbn [forallb]. by rewrite Hcons, Hcons'.
Qed.

Lemma assign_distribute_conserves node :
  valid_tree node ->
  forall amount,
    in_range (Amount amount) ->
    (assign_distribute node amount).2 = Done
    /\ conserved (assign_distribute node amount).1 = true.
Proof.
  induction node as [name weight children allocated IH] using Node_ind'.
  intros Hvalid amount Hr.
  inversion Hvalid as [n w cs a Hweights Hchildren]; subst.
  destruct children as [| c cs]; [done |].
  cbn [assign_distribute].
  destruct (Split_valid amount (Weight <$> c :: cs) Hr)
    as (parts & Hrun & Hlen & _ & _ & Hsum); [by apply Hweights |].
  rewrite Hrun.
  pose proof (Split_parts_in_range _ _ _ Hrun) as Hrange.
  rewrite length_fmap in Hlen.
  destruct (step_C_conserves (c :: cs) parts) as (Ho & Hal & Hcons);
    [| done | done |].
  { apply Forall_forall. intros x Hx.
    eapply Forall_forall in IH; [| exact Hx].
    eapply Forall_forall in Hchildren; [| exact Hx]. by apply IH. }
  destruct (step_C _ _ _) as [cs' o]. cbn [fst snd] in *. subst o.
  split; [done |].
  destruct cs' as [| c' cs']; [by subst parts |].
  rewrite conserved_internal, Hcons, andb_true_r.
  apply Z.eqb_eq. by rewrite list_fmap_compose, Hal, Hsum.
Qed.

End AllocatorValid.

(** ** Insertion sort keeps equal residues in index order *)

Lemma rank_before_trans e1 e2 e3 :
  rank_before e1 e2 -> rank_before e2 e3 -> rank_before e1 e3.
Proof. unfold rank_before. lia. Qed.

Lemma shift_left_ranked x rprefix :
  StronglySorted rank_before (reverse rprefix) ->
  Forall (fun y => (index y < index x)%nat) rprefix ->
  StronglySorted rank_before (reverse (shift_left less_residue x rprefix)).
Proof.
  induction rprefix as [| y rest IH]; simpl; intros Hord Hidx.
  - repeat constructor.
  - rewrite reverse_cons in Hord.
    apply StronglySorted_app in Hord as (Hcross & Hrest & _).
    apply Forall_cons in Hidx as [Hy Hidx].
    unfold less_residue at 1.
    destruct (Z.ltb_spec (residue y) (residue x)) as [Hlt | Hge];
      rewrite reverse_cons; apply StronglySorted_app.
    + split_and!; [| by apply IH | repeat constructor].
      intros z y' Hz ->%list_elem_of_singleton.
      rewrite elem_of_reverse, shift_left_perm in Hz.
      apply elem_of_cons in Hz as [-> | Hz]; [by left |].
      apply Hcross;
        [by rewrite elem_of_reverse | by apply list_elem_of_singleton].
    + split_and!; [| | repeat constructor].
      * intros z x' Hz ->%list_elem_of_singleton.
        rewrite reverse_cons in Hz.
        apply elem_of_app in Hz as [Hz | ->%list_elem_of_singleton].
        -- specialize (Hcross z y Hz ltac:(by apply list_elem_of_singleton)).
           rewrite elem_of_reverse in Hz.
           eapply Forall_forall in Hidx; [| exact Hz].
           unfold rank_before in *. lia.
        -- unfold rank_before. lia.
      * rewrite reverse_cons. apply StronglySorted_app.
        split_and!; [done | done |]. repeat constructor.
Qed.

Lemma shift_all_ranked l rprefix :
  StronglySorted rank_before (reverse rprefix) ->
  StronglySorted lt (index <$> l) ->
  (forall y x, y ∈ rprefix -> x ∈ l -> (index y < index x)%nat) ->
  StronglySorted rank_before
    (reverse (fold_left (fun rp x => shift_left less_residue x rp) l rprefix)).
Proof.
  revert rprefix.
  induction l as [| x l IH]; intros rp Hord Hl Hlt; simpl; [done |].
  rewrite fmap_cons in Hl. apply StronglySorted_cons in Hl as [Hx Hl].
  apply IH; [| done |].
  - apply shift_left_ranked; [done |].
    apply Forall_forall. intros y Hy. apply Hlt; [done | by left].
  - intros y x' Hy Hx'. rewrite shift_left_perm in Hy.
    apply elem_of_cons in Hy as [-> | Hy].
    + rewrite Forall_fmap in Hx. by eapply Forall_forall in Hx.
    + apply Hlt; [done | by right].
Qed.

Lemma seq_sorted i n : StronglySorted lt (seq i n).
Proof.
  revert i. induction n as [| n IH]; intros i; simpl; constructor; [done |].
  apply Forall_seq. intros j Hj. lia.
Qed.

Lemma short_slice_ranking total weights :
  StronglySorted rank_before (@ranking short_slice_sorter total weights).
Proof.
  unfold ranking, sort_Slice, short_slice_sorter, insertionSort.
  apply shift_all_ranked.
  - constructor.
  - unfold entries_of. rewrite pass1_index. apply seq_sorted.
  - intros y x Hy. by apply elem_of_nil in Hy.
Qed.

Lemma StronglySorted_weaken {A : Type} (R1 R2 : A -> A -> Prop) l :
  (forall x y, R1 x y -> R2 x y) ->
  StronglySorted R1 l -> StronglySorted R2 l.
Proof.
  intros Himp. induction 1 as [| x l Hl IH Hx]; constructor; [done |].
  eapply Forall_impl; [exact Hx | by apply Himp].
Qed.

(** * The claims of the specification *)

Lemma in_range_small z : - 2 ^ 63 <= z <= 2 ^ 63 - 1 -> int64.in_range z.
Proof. done. Qed.

(** ** C1: conservation *)

(** C1, the failing input. [Split] forms the product [total * weight]
    in [big.Int] but adds the weights up in a plain [int64], with no
    check. The weights [MaxInt64, MaxInt64, 4] are non-negative and
    their sum is positive, but it does not fit that [int64]:
    [sumWeights] wraps to 2. For the total 1 the bases are [2^62 - 1],
    [2^62 - 1] and 2, the remainder is negative, no unit is handed out,
    and the parts returned add up to [2^63], not to the total. *)
Lemma Split_conservation_overflow :
  Forall (fun w => 0 <= w) [int64.MaxInt64; int64.MaxInt64; 4]
  /\ 0 < Zsum [int64.MaxInt64; int64.MaxInt64; 4]
  /\ sumWeights [int64.MaxInt64; int64.MaxInt64; 4] = 2
  /\ @Split sort.Slice (New 1 "USD")
       [int64.MaxInt64; int64.MaxInt64; 4]
     = Ok [New (2 ^ 62 - 1) "USD"; New (2 ^ 62 - 1) "USD"; New 2 "USD"]
  /\ Zsum [2 ^ 62 - 1; 2 ^ 62 - 1; 2] <> Amount (New 1 "USD").
Proof.
  split_and!; [repeat constructor; by vm_compute | by vm_compute ..].
Qed.

(** C1, where the sum of the weights fits [int64]. For every [int64]
    total, negative ones included, and every list of non-negative
    weights whose sum is positive and fits [int64], [Split] succeeds with
    one part per weight, and the parts add up exactly to the total. *)
Theorem Split_conservation
    {sorter : Sorter} {contract : SorterContract sorter}
    (total : Money) (weights : list Z) :
  int64.in_range (Amount total) ->
  valid_weights weights ->
  exists parts,
    Split total weights = Ok parts
    /\ length parts = length weights
    /\ Zsum (Amount <$> parts) = Amount total.
Proof.
  intros Ht Hw.
  destruct (Split_valid total weights Ht Hw)
    as (parts & Hrun & Hlen & _ & _ & Hsum).
  by exists parts.
Qed.

Lemma Split_conservation_witness :
  int64.in_range (Amount (New (-10000) "USD"))
  /\ valid_weights [1; 2; 3]
  /\ exists parts,
       @Split short_slice_sorter (New (-10000) "USD") [1; 2; 3] = Ok parts
       /\ length parts = 3%nat
       /\ Zsum (Amount <$> parts) = -10000.
Proof.
  assert (int64.in_range (Amount (New (-10000) "USD"))) as Ht
    by (apply in_range_small; simpl; lia).
  assert (valid_weights [1; 2; 3]) as Hw
    by (split; [repeat constructor; lia | by vm_compute]).
  split_and!; [exact Ht | exact Hw |].
  exact (Split_conservation (contract := short_slice_sorter_contract)
           (New (-10000) "USD") [1; 2; 3] Ht Hw).
Defined.

(** ** C8: non-negativity *)

(** C8, the failing input. The same unchecked [int64] sum of the
    weights: [MaxInt64, MaxInt64, 3] are non-negative with a positive
    sum, but [sumWeights] wraps to 1; for the total 2 the first two bases
    wrap to [-2], and two of the parts returned are negative. *)
Lemma Split_non_negative_overflow :
  Forall (fun w => 0 <= w) [int64.MaxInt64; int64.MaxInt64; 3]
  /\ 0 < Zsum [int64.MaxInt64; int64.MaxInt64; 3]
  /\ 0 <= Amount (New 2 "USD")
  /\ @Split sort.Slice (New 2 "USD")
       [int64.MaxInt64; int64.MaxInt64; 3]
     = Ok [New (-2) "USD"; New (-2) "USD"; New 6 "USD"].
Proof.
  split_and!; [repeat constructor; by vm_compute | by vm_compute ..].
Qed.

(** C8, where the sum of the weights fits [int64]. For every [int64]
    total that is not negative and every list of non-negative weights
    whose sum is positive and fits [int64], [Split] succeeds and no part
    is negative. *)
Theorem Split_non_negative
    {sorter : Sorter} {contract : SorterContract sorter}
    (total : Money) (weights : list Z) :
  int64.in_range (Amount total) ->
  valid_weights weights ->
  0 <= Amount total ->
  exists parts,
    Split total weights = Ok parts
    /\ Forall (fun p => 0 <= Amount p) parts.
Proof.
  intros Ht Hw Hpos.
  destruct (Split_valid total weights Ht Hw) as (parts & Hrun & _).
  exists parts. split; [done |].
  by apply (Split_valid_nonneg total weights Ht Hw).
Qed.

Lemma Split_non_negative_witness :
  int64.in_range (Amount (New 5 "USD"))
  /\ valid_weights [1; 1; 1]
  /\ 0 <= Amount (New 5 "USD")
  /\ exists parts,
       @Split short_slice_sorter (New 5 "USD") [1; 1; 1] = Ok parts
       /\ Forall (fun p => 0 <= Amount p) parts.
Proof.
  assert (int64.in_range (Amount (New 5 "USD"))) as Ht
    by (apply in_range_small; simpl; lia).
  assert (valid_weights [1; 1; 1]) as Hw
    by (split; [repeat constructor; lia | by vm_compute]).
  assert (0 <= Amount (New 5 "USD")) as Hpos by (simpl; lia).
  split_and!; [exact Ht | exact Hw | exact Hpos |].
  exact (Split_non_negative (contract := short_slice_sorter_contract)
           (New 5 "USD") [1; 1; 1] Ht Hw Hpos).
Defined.

(** ** C4: monotonicity *)

(** C4, counterexample. A negative total is split in proportion as well,
    so the heavier weight gets the more negative part: of [-10] over
    [2, 1] the weight 2 receives [-7] and the weight 1 receives [-3]. *)
Lemma Split_negative_total_not_monotone :
  int64.in_range (Amount (New (-10) "USD"))
  /\ valid_weights [2; 1]
  /\ @Split short_slice_sorter (New (-10) "USD") [2; 1]
     = Ok [New (-7) "USD"; New (-3) "USD"]
  /\ ([2; 1] : list Z) !! 0%nat = Some 2
  /\ ([2; 1] : list Z) !! 1%nat = Some 1
  /\ 1 < 2
  /\ ~ Amount (New (-3) "USD") <= Amount (New (-7) "USD").
Proof.
  split_and!; try done.
  - split; [repeat constructor; lia | by vm_compute].
  - simpl. lia.
Qed.

(** C4 (amended). For every [int64] total that is not negative and every
    list of non-negative weights whose sum is positive and fits [int64]:
    whenever the weight at [i] exceeds the weight at [j], the part at [i]
    is at least the part at [j]. *)
Theorem Split_monotone
    {sorter : Sorter} {contract : SorterContract sorter}
    (total : Money) (weights : list Z) :
  int64.in_range (Amount total) ->
  valid_weights weights ->
  0 <= Amount total ->
  exists parts,
    Split total weights = Ok parts
    /\ forall i j wi wj pi pj,
         weights !! i = Some wi -> weights !! j = Some wj ->
         parts !! i = Some pi -> parts !! j = Some pj ->
         wj < wi -> Amount pj <= Amount pi.
Proof.
  intros Ht Hw Hpos.
  destruct (Split_valid total weights Ht Hw) as (parts & Hrun & _).
  exists parts. split; [done |].
  intros i j wi wj pi pj.
  by apply (Split_valid_monotone total weights Ht Hw).
Qed.

Lemma Split_monotone_witness :
  int64.in_range (Amount (New 10000 "USD"))
  /\ valid_weights [1; 2; 3]
  /\ 0 <= Amount (New 10000 "USD")
  /\ exists parts,
       @Split short_slice_sorter (New 10000 "USD") [1; 2; 3] = Ok parts
       /\ forall i j wi wj pi pj,
            ([1; 2; 3] : list Z) !! i = Some wi ->
            ([1; 2; 3] : list Z) !! j = Some wj ->
            parts !! i = Some pi -> parts !! j = Some pj ->
            wj < wi -> Amount pj <= Amount pi.
Proof.
  assert (int64.in_range (Amount (New 10000 "USD"))) as Ht
    by (apply in_range_small; simpl; lia).
  assert (valid_weights [1; 2; 3]) as Hw
    by (split; [repeat constructor; lia | by vm_compute]).
  assert (0 <= Amount (New 10000 "USD")) as Hpos by (simpl; lia).
  split_and!; [exact Ht | exact Hw | exact Hpos |].
  exact (Split_monotone (contract := short_slice_sorter_contract)
           (New 10000 "USD") [1; 2; 3] Ht Hw Hpos).
Defined.

(** ** C5: the failure modes *)

(** C5, the failing input. The same unchecked [int64] sum of the
    weights: the list [2^62, 2^62] is not empty and its sum is not zero,
    neither as an integer ([2^63]) nor as [Split] adds it up ([-2^63]).
    For the total 5 both bases are [-2], the remainder is 9, and the
    loop that hands out the units runs off the two entries: [Split] ends
    in a panic, neither with parts nor with [ErrInvalidWeights]. *)
Lemma Split_panics_on_wrapped_sum :
  ([2 ^ 62; 2 ^ 62] : list Z) <> []
  /\ Zsum [2 ^ 62; 2 ^ 62] <> 0
  /\ sumWeights [2 ^ 62; 2 ^ 62] = - 2 ^ 63
  /\ remainder_of (New 5 "USD") [2 ^ 62; 2 ^ 62] = 9
  /\ @Split sort.Slice (New 5 "USD") [2 ^ 62; 2 ^ 62]
     = Panic IndexOutOfRange.
Proof. split_and!; [done | by vm_compute ..]. Qed.

(** X30. For every total and every list of integer weights,
    negative entries included, whose sum fits [int64]: [Split] returns
    [ErrInvalidWeights] exactly when the list is empty or its sum is
    zero, and otherwise succeeds with one part per weight. *)
Theorem Split_failure_modes
    {sorter : Sorter} {contract : SorterContract sorter}
    (total : Money) (weights : list Z) :
  int64.in_range (Zsum weights) ->
  (Split total weights = Err ErrInvalidWeights
   <-> weights = [] \/ Zsum weights = 0)
  /\ (weights <> [] -> Zsum weights <> 0 ->
      exists parts,
        Split total weights = Ok parts /\ length parts = length weights).
Proof.
  intros Hsum.
  assert (weights <> [] -> Zsum weights <> 0 ->
          exists parts,
            Split total weights = Ok parts
            /\ length parts = length weights) as Hok
    by (intros; by apply Split_representable).
  split; [| exact Hok]. split.
  - intros Herr.
    destruct (decide (weights = [])) as [| Hne]; [by left |].
    destruct (decide (Zsum weights = 0)) as [| Hnz]; [by right |].
    destruct (Hok Hne Hnz) as (parts & Hrun & _). congruence.
  - unfold Split. intros [-> | Hz]; [done |].
    destruct (decide _); [done |].
    rewrite (sumWeights_exact _ Hsum), Hz. done.
Qed.

Lemma Split_failure_modes_witness :
  int64.in_range (Zsum [3; -1])
  /\ ([3; -1] : list Z) <> []
  /\ Zsum [3; -1] <> 0
  /\ (@Split short_slice_sorter (New 7 "USD") [3; -1]
      = Err ErrInvalidWeights
      <-> ([3; -1] : list Z) = [] \/ Zsum [3; -1] = 0)
  /\ exists parts,
       @Split short_slice_sorter (New 7 "USD") [3; -1] = Ok parts
       /\ length parts = length ([3; -1] : list Z).
Proof.
  assert (int64.in_range (Zsum [3; -1])) as Hsum
    by (apply in_range_small; simpl; lia).
  assert (([3; -1] : list Z) <> []) as Hne by done.
  assert (Zsum [3; -1] <> 0) as Hnz by (simpl; lia).
  destruct (Split_failure_modes (contract := short_slice_sorter_contract)
              (New 7 "USD") [3; -1] Hsum) as [Hiff Hok].
  split_and!; [exact Hsum | exact Hne | exact Hnz | exact Hiff |].
  exact (Hok Hne Hnz).
Defined.

(** ** C7: the largest total *)

(** C7. [Split(MaxInt64, [1, 1])] succeeds with two parts, neither is
    negative, and they add up to [MaxInt64]: one is [2^62] and the other
    [2^62 - 1], and as Go sorts two entries the first weight holds the
    larger. The product [total * weight] is formed in [big.Int] and never
    wraps: for every valid list of weights, also where
    [MaxInt64 * weight] is far beyond [int64], each part returned for
    [MaxInt64] is the floor of the exact quotient
    [MaxInt64 * weight / sum], or one unit more. *)
Theorem Split_MaxInt64_two_ways
    {sorter : Sorter} {contract : SorterContract sorter}
    (currency : string) :
  (exists p1 p2,
     Split (New int64.MaxInt64 currency) [1; 1] = Ok [p1; p2]
     /\ 0 <= Amount p1
     /\ 0 <= Amount p2
     /\ Amount p1 + Amount p2 = int64.MaxInt64
     /\ 2 ^ 62 - 1 <= Amount p1 <= 2 ^ 62
     /\ 2 ^ 62 - 1 <= Amount p2 <= 2 ^ 62)
  /\ @Split sort.Slice (New int64.MaxInt64 currency) [1; 1]
     = Ok [New (2 ^ 62) currency; New (2 ^ 62 - 1) currency]
  /\ forall weights,
       valid_weights weights ->
       exists parts,
         Split (New int64.MaxInt64 currency) weights = Ok parts
         /\ length parts = length weights
         /\ Zsum (Amount <$> parts) = int64.MaxInt64
         /\ forall i w,
              weights !! i = Some w ->
              exists p,
                parts !! i = Some p
                /\ 0 <= Amount p
                /\ (Amount p = (int64.MaxInt64 * w) `div` Zsum weights
                    \/ Amount p
                       = (int64.MaxInt64 * w) `div` Zsum weights + 1).
Proof.
  assert (int64.in_range (Amount (New int64.MaxInt64 currency))) as Ht
    by (by apply in_range_small).
  assert (forall weights,
            valid_weights weights ->
            exists parts,
              Split (New int64.MaxInt64 currency) weights = Ok parts
              /\ length parts = length weights
              /\ Zsum (Amount <$> parts) = int64.MaxInt64
              /\ forall i w,
                   weights !! i = Some w ->
                   exists p,
                     parts !! i = Some p
                     /\ 0 <= Amount p
                     /\ (Amount p
                         = (int64.MaxInt64 * w) `div` Zsum weights
                         \/ Amount p
                            = (int64.MaxInt64 * w) `div` Zsum weights + 1))
    as Hgeneral.
  { intros weights Hw.
    destruct (Split_valid _ _ Ht Hw) as (parts & Hrun & Hlen & _ & _ & Hsum).
    pose proof (Split_valid_nonneg _ _ Ht Hw parts ltac:(done) Hrun) as Hnn.
    exists parts. split_and!; [done | done | done |].
    intros i w Hi.
    destruct (lookup_lt_is_Some_2 parts i) as [p Hp].
    { rewrite Hlen. by eapply lookup_lt_Some. }
    exists p. split; [done |]. split.
    - by eapply Forall_lookup in Hnn.
    - destruct (Split_valid_part _ _ Ht Hw parts i w Hrun Hi)
        as [[_ Hpart] | [_ Hpart]];
        rewrite Hp in Hpart; injection Hpart as ->; cbn [Amount];
        [by right | by left]. }
  split; [| split; [by vm_compute | exact Hgeneral]].
  assert (valid_weights [1; 1]) as Hw
    by (split; [repeat constructor; lia | by vm_compute]).
  destruct (Hgeneral [1; 1] Hw) as (parts & Hrun & Hlen & Hsum & Hparts).
  destruct parts as [| p1 [| p2 [| p3 parts]]]; try done.
  destruct (Hparts 0%nat 1 eq_refl) as (p1' & Hp1 & Hp1nn & Hp1q).
  destruct (Hparts 1%nat 1 eq_refl) as (p2' & Hp2 & Hp2nn & Hp2q).
  simplify_eq/=.
  change ((int64.MaxInt64 * 1) `div` (1 + (1 + 0))) with (2 ^ 62 - 1)
    in Hp1q, Hp2q.
  exists p1', p2'. unfold int64.MaxInt64 in *.
  split_and!; [done | done | done | lia | lia | lia | lia | lia].
Qed.

Lemma Split_MaxInt64_two_ways_witness :
  valid_weights [3; 1]
  /\ int64.MaxInt64 < int64.MaxInt64 * 3
  /\ exists parts,
       @Split short_slice_sorter (New int64.MaxInt64 "USD") [3; 1] = Ok parts
       /\ length parts = length [3; 1]
       /\ Zsum (Amount <$> parts) = int64.MaxInt64
       /\ forall i w,
            ([3; 1] : list Z) !! i = Some w ->
            exists p,
              parts !! i = Some p
              /\ 0 <= Amount p
              /\ (Amount p = (int64.MaxInt64 * w) `div` Zsum [3; 1]
                  \/ Amount p
                     = (int64.MaxInt64 * w) `div` Zsum [3; 1] + 1).
Proof.
  assert (valid_weights [3; 1]) as Hw
    by (split; [repeat constructor; lia | by vm_compute]).
  split; [exact Hw |]. split; [by vm_compute |].
  exact (proj2 (proj2 (Split_MaxInt64_two_ways
                         (contract := short_slice_sorter_contract) "USD"))
           [3; 1] Hw).
Defined.

(** ** [sort.Slice]: short slices, and termination *)

Section SortSlice.

Local Open Scope nat_scope.

Context {A : Type} (less : A -> A -> bool).

(** Up to twelve elements [sort.Slice] is the insertion sort. *)
Lemma Slice_short (l : list A) :
  length l <= 12 ->
  @sort_Slice sort.Slice A less l = insertionSort A less l.
Proof.
  intros Hlen. unfold sort_Slice, sort.Slice, sort.pdqsort_func.
  cbn [sort.pdqsort_loop]. rewrite Nat.sub_0_r.
  destruct (Nat.leb_spec (length l) 12); [| lia].
  unfold sort.insertionSort_func. cbn [default from_option id].
  rewrite Nat.sub_0_r, take_0, drop_0, firstn_all, drop_all.
  by rewrite app_nil_r.
Qed.

Lemma scan_up_bounds p n i :
  i <= sort.scan_up p n i <= i + n.
Proof.
  revert i. induction n as [| n IH]; intros i; simpl; [lia |].
  destruct (p i); [| lia]. specialize (IH (S i)). lia.
Qed.

Lemma scan_down_bounds p n j :
  j - n <= sort.scan_down p n j <= j.
Proof.
  revert j. induction n as [| n IH]; intros j; simpl; [lia |].
  destruct (p j); [| lia]. specialize (IH (j - 1)). lia.
Qed.

Lemma partition_loop_bounds turns data a i j :
  a < i -> a <= j ->
  a <= (sort.partition_loop less turns data a i j).2 <= j.
Proof.
  revert data i j. induction turns as [| turns IH]; intros data i j Hi Hj.
  - simpl. lia.
  - cbn [sort.partition_loop].
    pose proof (scan_up_bounds (fun i => sort.Less less data i a)
                  (j + 1 - i) i) as Hup.
    set (i1 := sort.scan_up _ _ i) in *.
    pose proof (scan_down_bounds
                  (fun j => negb (sort.Less less data j a))
                  (j + 1 - i1) j) as Hdown.
    set (j1 := sort.scan_down _ _ j) in *.
    destruct (Nat.ltb_spec j1 i1); [simpl; lia |].
    specialize (IH (sort.Swap data i1 j1) (i1 + 1) (j1 - 1)
                  ltac:(lia) ltac:(lia)). lia.
Qed.

Lemma partition_func_bounds data a b pivot :
  a < b ->
  a <= (sort.partition_func less data a b pivot).1.2 <= b - 1.
Proof.
  intros Hab. unfold sort.partition_func.
  set (data0 := sort.Swap data a pivot).
  pose proof (scan_up_bounds (fun i => sort.Less less data0 i a)
                (b - 1 + 1 - (a + 1)) (a + 1)) as Hup.
  set (i1 := sort.scan_up _ _ (a + 1)) in *.
  pose proof (scan_down_bounds
                (fun j => negb (sort.Less less data0 j a))
                (b - 1 + 1 - i1) (b - 1)) as Hdown.
  set (j1 := sort.scan_down _ _ (b - 1)) in *.
  destruct (Nat.ltb_spec j1 i1); [simpl; lia |].
  pose proof (partition_loop_bounds (b - a) (sort.Swap data0 i1 j1) a
                (i1 + 1) (j1 - 1) ltac:(lia) ltac:(lia)) as Hloop.
  destruct (sort.partition_loop _ _ _ _ _ _) as [data2 j2].
  simpl in *. lia.
Qed.

Lemma partitionEqual_loop_bounds turns data a i j :
  i <= sort.partitionEqual_loop less turns data a i j.
Proof.
  revert data i j. induction turns as [| turns IH]; intros data i j.
  - simpl. lia.
  - cbn [sort.partitionEqual_loop].
    pose proof (scan_up_bounds (fun i => negb (sort.Less less data a i))
                  (j + 1 - i) i) as Hup.
    set (i1 := sort.scan_up _ _ i) in *.
    set (j1 := sort.scan_down _ _ j) in *.
    destruct (Nat.ltb_spec j1 i1); [lia |].
    specialize (IH (sort.Swap data i1 j1) (i1 + 1) (j1 - 1)). lia.
Qed.

(** [pdqsort_func] ends: every turn of its loop and every call is on a
    shorter range, so the fuel it is given is enough. *)
Lemma pdqsort_loop_ends fuel data a b limit wasBalanced wasPartitioned :
  b - a < fuel ->
  is_Some (sort.pdqsort_loop less fuel data a b limit
             wasBalanced wasPartitioned).
Proof.
  revert data a b limit wasBalanced wasPartitioned.
  induction fuel as [| fuel IH];
    intros data a b limit wasBalanced wasPartitioned Hfuel; [lia |].
  cbn [sort.pdqsort_loop].
  destruct (Nat.leb_spec (b - a) 12) as [| Hlong]; [done |].
  destruct (limit =? 0); [done |].
  destruct (if negb wasBalanced then _ else _) as [data1 limit1].
  destruct (sort.choosePivot_func less data1 a b) as [pivot hint].
  destruct (match hint with
            | sort.decreasingHint => _
            | _ => _
            end) as [[data2 pivot2] hint2].
  destruct (match hint2 with
            | sort.increasingHint => _
            | _ => _
            end) as [data3 sorted].
  destruct sorted; [done |].
  destruct (_ && _).
  - pose proof (partitionEqual_loop_bounds (b - a)
                  (sort.Swap data3 a pivot2) a (a + 1) (b - 1)) as Hmid.
    unfold sort.partitionEqual_func.
    apply IH. lia.
  - pose proof (partition_func_bounds data3 a b pivot2 ltac:(lia)) as Hmid.
    destruct (sort.partition_func less data3 a b pivot2)
      as [[data4 mid] alreadyPartitioned].
    cbn [fst snd] in Hmid.
    destruct (_ <? _).
    + destruct (IH data4 a mid limit1 true true ltac:(lia)) as [data5 ->].
      apply IH. lia.
    + destruct (IH data4 (mid + 1) b limit1 true true ltac:(lia))
        as [data5 ->].
      apply IH. lia.
Qed.

Lemma pdqsort_func_ends data a b limit :
  is_Some (sort.pdqsort_func less data a b limit).
Proof. apply pdqsort_loop_ends. lia. Qed.

End SortSlice.

(** [Split] depends on the sorting routine through the order it leaves
    on the entries of this call only. *)
Lemma Split_same_ranking (sorter1 sorter2 : Sorter) total weights :
  @ranking sorter1 total weights = @ranking sorter2 total weights ->
  @Split sorter1 total weights = @Split sorter2 total weights.
Proof.
  unfold ranking, entries_of, Split. intros Hsame.
  destruct (decide _); [done |]. destruct (decide _); [done |].
  destruct (pass1 _ _ _ _ _) as [es rem]. cbn [fst] in Hsame.
  by rewrite Hsame.
Qed.

(** On at most twelve weights [Split] runs the insertion sort. *)
Lemma Split_short total weights :
  (length weights <= 12)%nat ->
  @Split sort.Slice total weights = @Split short_slice_sorter total weights.
Proof.
  intros Hlen. apply Split_same_ranking. unfold ranking.
  rewrite Slice_short; [done |].
  unfold entries_of. by rewrite pass1_length.
Qed.

(** The entries that receive a unit come first in the ranking: an entry
    among the first [k] is never after, in the order of the ranking, an
    entry that is not. *)
Lemma prefix_before_rest {A : Type} (R : A -> A -> Prop) (l : list A) k x y :
  StronglySorted R l -> x ∈ take k l -> y ∈ drop k l -> R x y.
Proof.
  intros Hsorted Hx Hy. rewrite <- (take_drop k l) in Hsorted.
  apply StronglySorted_app in Hsorted as (Hcross & _ & _).
  by apply Hcross.
Qed.

(** ** C3: the ranking *)

Section Ranking.

Import int64.

Context {sorter : Sorter} {contract : SorterContract sorter}.

Variables (total : Money) (weights : list Z).

Hypothesis total_in_range : in_range (Amount total).
Hypothesis weights_valid : valid_weights weights.

Let T := Amount total.
Let sumW := Zsum weights.

(** Whatever relation the ranking is sorted by: an entry that the
    relation does not put after another receives a unit whenever that
    other one does. *)
Lemma units_follow_ranking (R : entry -> entry -> Prop) parts i j wi wj :
  StronglySorted R (ranking total weights) ->
  Split total weights = Ok parts ->
  weights !! i = Some wi ->
  weights !! j = Some wj ->
  ~ R {| index := j; base := (T * wj) `div` sumW;
         residue := (T * wj) `mod` sumW |}
      {| index := i; base := (T * wi) `div` sumW;
         residue := (T * wi) `mod` sumW |} ->
  Amount <$> (parts !! j) = Some ((T * wj) `div` sumW + 1) ->
  Amount <$> (parts !! i) = Some ((T * wi) `div` sumW + 1).
Proof.
  intros Hsorted Hrun Hi Hj Hnot Hunit.
  destruct (Split_valid_part total weights total_in_range weights_valid
              parts j wj Hrun Hj) as [[Hej _] | [_ Hpj]].
  - destruct (Split_valid_part total weights total_in_range weights_valid
                parts i wi Hrun Hi) as [[_ Hpi] | [Hei _]].
    + by rewrite Hpi.
    + destruct Hnot. by eapply prefix_before_rest.
  - rewrite Hpj in Hunit. cbn in Hunit. injection Hunit as Heq.
    unfold T, sumW in Heq. lia.
Qed.

Lemma Split_shares :
  exists parts,
    Split total weights = Ok parts
    /\ length parts = length weights
    /\ Zsum (Amount <$> parts) = T
    /\ forall i w,
         weights !! i = Some w ->
         Amount <$> (parts !! i) = Some ((T * w) `div` sumW)
         \/ Amount <$> (parts !! i) = Some ((T * w) `div` sumW + 1).
Proof.
  destruct (Split_valid total weights total_in_range weights_valid)
    as (parts & Hrun & Hlen & _ & _ & Hsum).
  exists parts. split_and!; [done | done | done |].
  intros i w Hi.
  destruct (Split_valid_part total weights total_in_range weights_valid
              parts i w Hrun Hi) as [[_ Hp] | [_ Hp]];
    rewrite Hp; [by right | by left].
Qed.

End Ranking.

(** C3, counterexample. The comparator given to [sort.Slice] looks at the
    residue alone, and beyond twelve entries [sort.Slice] is no longer an
    insertion sort: for the total 4 over twelve weights of 2 and one of
    3, every weight of 2 has the residue 8 and three of them receive a
    unit; they are the weights of index 2, 3 and 6, not those of index
    0, 1 and 2. Index 6 holds a unit that the earlier index 0, of the
    same residue, does not. *)
Lemma Split_ties_beyond_twelve_weights :
  let total := New 4 "USD" in
  let weights := replicate 12 2 ++ [3] in
  (int64.in_range (Amount total) /\ valid_weights weights)
  /\ (exists parts,
        @Split sort.Slice total weights = Ok parts
        /\ Amount <$> parts = [0; 0; 1; 1; 0; 0; 1; 0; 0; 0; 0; 0; 1])
  /\ ~ (forall parts i j wi wj,
          @Split sort.Slice total weights = Ok parts ->
          weights !! i = Some wi ->
          weights !! j = Some wj ->
          (Amount total * wi) `mod` Zsum weights
          = (Amount total * wj) `mod` Zsum weights ->
          (i < j)%nat ->
          Amount <$> (parts !! j)
          = Some ((Amount total * wj) `div` Zsum weights + 1) ->
          Amount <$> (parts !! i)
          = Some ((Amount total * wi) `div` Zsum weights + 1)).
Proof.
  intros total weights.
  assert (exists parts,
            @Split sort.Slice total weights = Ok parts
            /\ Amount <$> parts = [0; 0; 1; 1; 0; 0; 1; 0; 0; 0; 0; 0; 1])
    as Hrun by (eexists; split; by vm_compute).
  split; [| split; [exact Hrun |]].
  - split; [by apply in_range_small |].
    split; [repeat constructor; lia | by vm_compute].
  - intros Hclaim. destruct Hrun as (parts & Hrun & Hparts).
    specialize (Hclaim parts 0%nat 6%nat 2 2 Hrun eq_refl eq_refl eq_refl
                  ltac:(lia)).
    rewrite <- !list_lookup_fmap, Hparts in Hclaim.
    by specialize (Hclaim eq_refl).
Qed.

(** C3 (amended). [Split] lets [sort.Slice] rank the entries by residue
    alone, largest first, and hands the remainder units out in that
    order: every part is the floor of its share or one unit more, the
    parts add up to the total, and an entry receives a unit whenever an
    entry of smaller residue does, whatever routine sorts within the
    contract of [sort.Slice]. On at most twelve weights [sort.Slice] is
    an insertion sort, which keeps equal residues in index order: there
    the earlier of two equal residues receives a unit whenever the later
    does, and [Split(5, [1, 1, 1])] is [[2, 2, 1]]. *)
Theorem Split_ranking
    {sorter : Sorter} {contract : SorterContract sorter}
    (total : Money) (weights : list Z) :
  int64.in_range (Amount total) ->
  valid_weights weights ->
  let T := Amount total in
  let sumW := Zsum weights in
  (exists parts,
     Split total weights = Ok parts
     /\ length parts = length weights
     /\ Zsum (Amount <$> parts) = T
     /\ (forall i w,
           weights !! i = Some w ->
           Amount <$> (parts !! i) = Some ((T * w) `div` sumW)
           \/ Amount <$> (parts !! i) = Some ((T * w) `div` sumW + 1))
     /\ forall i j wi wj,
          weights !! i = Some wi ->
          weights !! j = Some wj ->
          (T * wj) `mod` sumW < (T * wi) `mod` sumW ->
          Amount <$> (parts !! j) = Some ((T * wj) `div` sumW + 1) ->
          Amount <$> (parts !! i) = Some ((T * wi) `div` sumW + 1))
  /\ ((length weights <= 12)%nat ->
      exists parts,
        @Split sort.Slice total weights = Ok parts
        /\ length parts = length weights
        /\ Zsum (Amount <$> parts) = T
        /\ (forall i w,
              weights !! i = Some w ->
              Amount <$> (parts !! i) = Some ((T * w) `div` sumW)
              \/ Amount <$> (parts !! i) = Some ((T * w) `div` sumW + 1))
        /\ forall i j wi wj,
             weights !! i = Some wi ->
             weights !! j = Some wj ->
             (T * wj) `mod` sumW < (T * wi) `mod` sumW
             \/ ((T * wi) `mod` sumW = (T * wj) `mod` sumW /\ (i < j)%nat) ->
             Amount <$> (parts !! j) = Some ((T * wj) `div` sumW + 1) ->
             Amount <$> (parts !! i) = Some ((T * wi) `div` sumW + 1))
  /\ forall currency,
       @Split sort.Slice (New 5 currency) [1; 1; 1]
       = Ok [New 2 currency; New 2 currency; New 1 currency].
Proof.
  intros Ht Hw T sumW. split; [| split; [| by vm_compute]].
  - destruct (Split_shares total weights Ht Hw)
      as (parts & Hrun & Hlen & Hsum & Hshares).
    exists parts. split_and!; [done | done | done | done |].
    intros i j wi wj Hi Hj Hres.
    apply (units_follow_ranking total weights Ht Hw
             (fun x y => less_residue y x = false) parts i j wi wj);
      [apply ranking_ordered | done | done | done |].
    unfold less_residue. cbn [residue]. fold T sumW.
    intros Hle%Z.ltb_ge. lia.
  - intros Hshort.
    destruct (Split_shares (contract := short_slice_sorter_contract)
                total weights Ht Hw)
      as (parts & Hrun & Hlen & Hsum & Hshares).
    exists parts. rewrite (Split_short total weights Hshort).
    split_and!; [done | done | done | done |].
    intros i j wi wj Hi Hj Hrank.
    apply (units_follow_ranking (contract := short_slice_sorter_contract)
             total weights Ht Hw rank_before parts i j wi wj);
      [apply short_slice_ranking | done | done | done |].
    unfold rank_before. cbn [residue index]. fold T sumW.
    pose proof (lookup_lt_Some _ _ _ Hi). lia.
Qed.

Lemma Split_ranking_witness :
  let total := New 5 "USD" in
  let weights := [1; 1; 1] in
  int64.in_range (Amount total)
  /\ valid_weights weights
  /\ (length weights <= 12)%nat
  /\ exists parts,
       @Split sort.Slice total weights = Ok parts
       /\ length parts = length weights
       /\ Zsum (Amount <$> parts) = Amount total
       /\ (forall i w,
             weights !! i = Some w ->
             Amount <$> (parts !! i)
             = Some ((Amount total * w) `div` Zsum weights)
             \/ Amount <$> (parts !! i)
                = Some ((Amount total * w) `div` Zsum weights + 1))
       /\ forall i j wi wj,
            weights !! i = Some wi ->
            weights !! j = Some wj ->
            (Amount total * wj) `mod` Zsum weights
              < (Amount total * wi) `mod` Zsum weights
            \/ ((Amount total * wi) `mod` Zsum weights
                = (Amount total * wj) `mod` Zsum weights /\ (i < j)%nat) ->
            Amount <$> (parts !! j)
            = Some ((Amount total * wj) `div` Zsum weights + 1) ->
            Amount <$> (parts !! i)
            = Some ((Amount total * wi) `div` Zsum weights + 1).
Proof.
  intros total weights.
  assert (int64.in_range (Amount total)) as Ht
    by (apply in_range_small; simpl; lia).
  assert (valid_weights weights) as Hw
    by (split; [repeat constructor; lia | by vm_compute]).
  assert (length weights <= 12)%nat as Hshort by (simpl; lia).
  split; [exact Ht |]. split; [exact Hw |]. split; [exact Hshort |].
  exact (proj1 (proj2 (Split_ranking
                         (contract := short_slice_sorter_contract)
                         total weights Ht Hw)) Hshort).
Defined.

(** ** C2: conservation down the tree *)

(** C2, the failing input. The unchecked [int64] sum of the weights in
    [Split] again: the children of the root weigh [MaxInt64],
    [MaxInt64] and 4, non-negative weights with a positive sum, which
    [sumWeights] wraps to 2. Allocating 1 returns no error, yet the
    children hold [2^62 - 1], [2^62 - 1] and 2 under a root that holds
    1. *)
Lemma AllocateTree_overflow :
  let root := NewNode "root" 1
                [NewNode "a" int64.MaxInt64 []; NewNode "b" int64.MaxInt64 [];
                 NewNode "c" 4 []] in
  let after := @AllocateTree sort.Slice root (New 1 "USD") in
  Forall (fun w => 0 <= w) (Weight <$> Children root)
  /\ 0 < Zsum (Weight <$> Children root)
  /\ after.2 = Done
  /\ Amount (Allocated after.1) = 1
  /\ Amount ∘ Allocated <$> Children after.1 = [2 ^ 62 - 1; 2 ^ 62 - 1; 2]
  /\ conserved after.1 = false.
Proof.
  split_and!; [repeat constructor; by vm_compute | by vm_compute ..].
Qed.

(** C2, where every sum of sibling weights fits [int64]. For every tree
    in which the children of every internal node have non-negative
    weights whose sum is positive and fits [int64], and every [int64]
    total, [AllocateTree] succeeds; afterwards
    the root holds the total and every internal node holds exactly the
    sum of what its children hold, down to the leaves. *)
Theorem AllocateTree_conserves
    {sorter : Sorter} {contract : SorterContract sorter}
    (root : Node) (total : Money) :
  valid_tree root ->
  int64.in_range (Amount total) ->
  exists root',
    AllocateTree root total = (root', Done)
    /\ Allocated root' = total
    /\ conserved root' = true.
Proof.
  intros Hvalid Ht. unfold AllocateTree.
  destruct (assign_distribute_conserves root Hvalid total Ht) as [Ho Hcons].
  pose proof (assign_distribute_allocated root total) as Hal.
  destruct (assign_distribute root total) as [root' o].
  cbn [fst snd] in *. subst o. by exists root'.
Qed.

Lemma AllocateTree_conserves_witness :
  let root :=
    NewNode "CEO Fund" 1
      [NewNode "Dept A" 1
         [NewNode "Team X" 1 []; NewNode "Team Y" 1 []; NewNode "Team Z" 1 []];
       NewNode "Dept B" 1 [];
       NewNode "Dept C" 1 []] in
  valid_tree root
  /\ int64.in_range (Amount (New 10 "USD"))
  /\ exists root',
       @AllocateTree short_slice_sorter root (New 10 "USD") = (root', Done)
       /\ Allocated root' = New 10 "USD"
       /\ conserved root' = true.
Proof.
  intros root.
  assert (valid_weights [1; 1; 1]) as Hw
    by (split; [repeat constructor; lia | by vm_compute]).
  assert (forall name, valid_tree (NewNode name 1 [])) as Hleaf
    by (intros name; by constructor).
  assert (valid_tree root) as Hvalid.
  { unfold root. apply valid_node; [intros _; exact Hw |].
    apply Forall_cons_2;
      [| repeat (apply Forall_cons_2; [apply Hleaf |]); apply Forall_nil_2].
    apply valid_node; [intros _; exact Hw |].
    repeat (apply Forall_cons_2; [apply Hleaf |]). apply Forall_nil_2. }
  assert (int64.in_range (Amount (New 10 "USD"))) as Ht
    by (apply in_range_small; simpl; lia).
  split_and!; [exact Hvalid | exact Ht |].
  exact (AllocateTree_conserves (contract := short_slice_sorter_contract)
           root (New 10 "USD") Hvalid Ht).
Defined.

(** ** C6: what an error leaves behind *)

(** C6, counterexample. The root has the children A and B of weight 1,
    and A has two children of weight 0. [Split(10, [1, 1])] gives 5 to
    each, but the loop assigns A and at once descends into it; the error
    raised there ends the call before B is assigned, and B still holds
    the zero value it started with. *)
Lemma AllocateTree_error_skips_later_siblings :
  let a := NewNode "A" 1 [NewNode "X" 0 []; NewNode "Y" 0 []] in
  let b := NewNode "B" 1 [] in
  let root := NewNode "root" 1 [a; b] in
  @Split short_slice_sorter (New 10 "USD") [1; 1]
  = Ok [New 5 "USD"; New 5 "USD"]
  /\ (@AllocateTree short_slice_sorter root (New 10 "USD")).2
     = Failed ErrInvalidWeights
  /\ Allocated
       <$> Children (@AllocateTree short_slice_sorter root (New 10 "USD")).1
     = [New 5 "USD"; zero_Money].
Proof. split_and!; by vm_compute. Qed.

(** C6 (amended). In step C of [distribute] a child is assigned its
    amount and its subtree is processed before the next child is
    assigned. When [AllocateTree] returns an error raised inside the
    subtree of child [i], that child holds its assigned amount, every
    child before it has been processed to the end, and every child after
    it is exactly as it was before the call. *)
Theorem AllocateTree_error_state
    {sorter : Sorter}
    (name : string) (weight : Z) (children : list Node) (allocated : Money)
    (total : Money) (amounts : list Money) (root' : Node) (e : error) :
  Split total (Weight <$> children) = Ok amounts ->
  AllocateTree (NewNode' name weight children allocated) total
  = (root', Failed e) ->
  exists i child amount,
    children !! i = Some child
    /\ amounts !! i = Some amount
    /\ (assign_distribute child amount).2 = Failed e
    /\ Allocated <$> Children root' !! i = Some amount
    /\ (forall k c a, (k < i)%nat ->
          children !! k = Some c -> amounts !! k = Some a ->
          (assign_distribute c a).2 = Done
          /\ Children root' !! k = Some (assign_distribute c a).1)
    /\ (forall k, (i < k)%nat -> Children root' !! k = children !! k).
Proof.
  intros Hsplit Hrun. unfold AllocateTree in Hrun.
  destruct children as [| c cs]; [by simplify_eq/= |].
  cbn [assign_distribute] in Hrun. rewrite Hsplit in Hrun.
  destruct (step_C _ _ _) as [cs' o] eqn:Hstep. simplify_eq.
  destruct (step_C_failed _ _ _ _ Hstep)
    as (i & child & amount & Hi & Ha & Hfail & Hi' & Hbefore & Hafter).
  exists i, child, amount. cbn [Children].
  split_and!; try done.
  rewrite Hi'. simpl. by rewrite assign_distribute_allocated.
Qed.

Lemma AllocateTree_error_state_witness :
  let a := NewNode "A" 1 [NewNode "X" 0 []; NewNode "Y" 0 []] in
  let b := NewNode "B" 1 [] in
  let root' :=
    NewNode' "root" 1
      [NewNode' "A" 1 [NewNode "X" 0 []; NewNode "Y" 0 []] (New 5 "USD"); b]
      (New 10 "USD") in
  @Split short_slice_sorter (New 10 "USD") (Weight <$> [a; b])
  = Ok [New 5 "USD"; New 5 "USD"]
  /\ @AllocateTree short_slice_sorter
       (NewNode' "root" 1 [a; b] zero_Money) (New 10 "USD")
     = (root', Failed ErrInvalidWeights)
  /\ exists i child amount,
       [a; b] !! i = Some child
       /\ [New 5 "USD"; New 5 "USD"] !! i = Some amount
       /\ (@assign_distribute short_slice_sorter child amount).2
          = Failed ErrInvalidWeights
       /\ Allocated <$> Children root' !! i = Some amount
       /\ (forall k c a0, (k < i)%nat ->
             [a; b] !! k = Some c ->
             [New 5 "USD"; New 5 "USD"] !! k = Some a0 ->
             (@assign_distribute short_slice_sorter c a0).2 = Done
             /\ Children root' !! k
                = Some (@assign_distribute short_slice_sorter c a0).1)
       /\ (forall k, (i < k)%nat -> Children root' !! k = [a; b] !! k).
Proof.
  intros a b root'.
  assert (@Split short_slice_sorter (New 10 "USD") (Weight <$> [a; b])
          = Ok [New 5 "USD"; New 5 "USD"]) as Hsplit by (by vm_compute).
  assert (@AllocateTree short_slice_sorter
            (NewNode' "root" 1 [a; b] zero_Money) (New 10 "USD")
          = (root', Failed ErrInvalidWeights)) as Hrun by (by vm_compute).
  split_and!; [exact Hsplit | exact Hrun |].
  exact (AllocateTree_error_state "root" 1 [a; b] zero_Money (New 10 "USD")
           [New 5 "USD"; New 5 "USD"] root' ErrInvalidWeights Hsplit Hrun).
Defined.

(** ** C9: the frame *)

(** C9. Whatever the tree and the total, and however the call ends,
    [AllocateTree] leaves the name, the weight and the children of every
    node, in their order, as they were: only [Allocated] fields change. *)
Theorem AllocateTree_frame
    {sorter : Sorter} (root : Node) (total : Money) :
  structure (AllocateTree root total).1 = structure root.
Proof. apply assign_distribute_structure. Qed.

(** ** C10: the root is written first *)

(** C10. [AllocateTree] stores the total in the root before anything is
    checked: the root holds it however the call ends. In particular, when
    the weights of the root's children add up to zero the call returns
    [ErrInvalidWeights], and the root, otherwise as it was, holds the
    total. *)
Theorem AllocateTree_root_written_first
    {sorter : Sorter} (root : Node) (total : Money) :
  Allocated (AllocateTree root total).1 = total
  /\ (Children root <> [] ->
      sumWeights (Weight <$> Children root) = 0 ->
      AllocateTree root total
      = (NewNode' (Name root) (Weight root) (Children root) total,
         Failed ErrInvalidWeights)).
Proof.
  split; [apply assign_distribute_allocated |].
  destruct root as [name weight [| c cs] allocated]; [done |].
  intros _ Hzero. unfold AllocateTree. cbn [assign_distribute].
  cbn [Children] in Hzero. unfold Split.
  rewrite decide_False by done. by rewrite decide_True.
Qed.

Lemma AllocateTree_root_written_first_witness :
  let root := NewNode "root" 1 [NewNode "a" 0 []; NewNode "b" 0 []] in
  Children root <> []
  /\ sumWeights (Weight <$> Children root) = 0
  /\ Allocated (@AllocateTree short_slice_sorter root (New 100 "USD")).1
     = New 100 "USD"
  /\ @AllocateTree short_slice_sorter root (New 100 "USD")
     = (NewNode' (Name root) (Weight root) (Children root) (New 100 "USD"),
        Failed ErrInvalidWeights).
Proof.
  intros root.
  assert (Children root <> []) as Hne by done.
  assert (sumWeights (Weight <$> Children root) = 0) as Hzero
    by (by vm_compute).
  destruct (AllocateTree_root_written_first
              (sorter := short_slice_sorter) root (New 100 "USD"))
    as [Hwritten Herr].
  split_and!; [exact Hne | exact Hzero | exact Hwritten |].
  exact (Herr Hne Hzero).
Defined.

(** * Further properties of the code *)

(** ** [Split]: how far a part can be from its exact share *)

Lemma Zsum_fmap_bound {A : Type} (f : A -> Z) (B : Z) (l : list A) :
  Forall (fun x => 0 <= f x <= B) l ->
  0 <= Zsum (f <$> l) <= B * Z.of_nat (length l).
Proof.
  induction 1 as [| x l Hx Hl IH]; [simpl; lia |].
  rewrite fmap_cons. cbn [Zsum foldr length]. fold (Zsum (f <$> l)). lia.
Qed.

Lemma Zsum_fmap_bound_zero {A : Type} (f : A -> Z) (B : Z) (l : list A) x :
  Forall (fun y => 0 <= f y <= B) l ->
  x ∈ l -> f x = 0 ->
  Zsum (f <$> l) <= B * (Z.of_nat (length l) - 1).
Proof.
  induction 1 as [| y l Hy Hl IH]; intros Hin Hx.
  - by apply elem_of_nil in Hin.
  - rewrite fmap_cons. cbn [Zsum foldr length]. fold (Zsum (f <$> l)).
    apply elem_of_cons in Hin as [<- | Hin].
    + pose proof (Zsum_fmap_bound f B l Hl). lia.
    + specialize (IH Hin Hx). lia.
Qed.

Lemma Zsum_fmap_zero {A : Type} (f : A -> Z) (l : list A) :
  Forall (fun x => f x = 0) l -> Zsum (f <$> l) = 0.
Proof.
  induction 1 as [| x l Hx Hl IH]; [done |].
  rewrite fmap_cons. cbn [Zsum foldr]. fold (Zsum (f <$> l)). lia.
Qed.

Section SplitShares.

Import int64 int64_facts big_facts.

Context {sorter : Sorter} {contract : SorterContract sorter}.

Variables (total : Money) (weights : list Z).

Hypothesis total_in_range : in_range (Amount total).
Hypothesis weights_valid : valid_weights weights.

Let T := Amount total.
Let sumW := Zsum weights.

Lemma valid_residues :
  residue <$> entries_of total weights
  = (fun w => (T * w) `mod` sumW) <$> weights.
Proof.
  apply list_eq. intros i. rewrite !list_lookup_fmap.
  destruct (weights !! i) as [w |] eqn:Hi.
  - unfold entries_of. rewrite (valid_sumWeights total weights weights_valid).
    rewrite (pass1_lookup _ _ _ _ _ _ w Hi), Nat.add_0_l.
    by rewrite (valid_make_entry total weights total_in_range weights_valid)
      by (by eapply list_elem_of_lookup_2).
  - rewrite lookup_ge_None_2; [done |].
    unfold entries_of. rewrite pass1_length. by apply lookup_ge_None_1.
Qed.

Lemma valid_residue_bounds e :
  e ∈ entries_of total weights -> 0 <= residue e <= sumW - 1.
Proof.
  intros He.
  destruct (valid_entry total weights total_in_range weights_valid e He)
    as (w & _ & _ & ->).
  pose proof (valid_sum_positive weights weights_valid) as HS.
  pose proof (Z.mod_pos_bound (Amount total * w) (Zsum weights) ltac:(lia)).
  unfold sumW. lia.
Qed.

(** The residues add up to the remainder, in units of the weight sum. *)
Lemma valid_residue_sum :
  Zsum (residue <$> ranking total weights)
  = sumW * remainder_of total weights.
Proof.
  rewrite (Zsum_perm _ (residue <$> entries_of total weights))
    by (by rewrite (ranking_perm total weights)).
  rewrite valid_residues.
  destruct (valid_remainder total weights total_in_range weights_valid)
    as [-> _].
  rewrite (valid_bases total weights total_in_range weights_valid).
  pose proof (valid_sum_positive weights weights_valid) as HS.
  pose proof (shares_sum T sumW weights ltac:(unfold sumW; lia)) as Hsh.
  unfold sumW, T in *. lia.
Qed.

(** Only an entry with a residue is handed a unit: there are always more
    entries with a residue than units to hand out. *)
Lemma unit_needs_residue e :
  e ∈ take (Z.to_nat (remainder_of total weights)) (ranking total weights) ->
  0 < residue e.
Proof.
  set (k := Z.to_nat (remainder_of total weights)).
  intros He.
  assert (forall x, x ∈ ranking total weights -> 0 <= residue x <= sumW - 1)
    as Hb.
  { intros x Hx. apply valid_residue_bounds.
    by rewrite <- (ranking_perm total weights). }
  assert (e ∈ ranking total weights) as Hin.
  { rewrite <- (take_drop k (ranking total weights)).
    apply elem_of_app. by left. }
  destruct (Z_lt_le_dec 0 (residue e)) as [| Hle]; [done | exfalso].
  assert (residue e = 0) as Hzero by (specialize (Hb e Hin); lia).
  pose proof (ranking_ordered total weights) as Hord.
  rewrite <- (take_drop k (ranking total weights)) in Hord.
  assert (Zsum (residue <$> drop k (ranking total weights)) = 0) as Hdrop.
  { apply Zsum_fmap_zero, Forall_forall. intros y Hy.
    pose proof (StronglySorted_app_1_elem_of _ _ _ _ _ Hord He Hy) as Hres.
    unfold less_residue in Hres. apply Z.ltb_ge in Hres.
    assert (y ∈ ranking total weights) as Hyin.
    { rewrite <- (take_drop k (ranking total weights)).
      apply elem_of_app. by right. }
    specialize (Hb y Hyin). lia. }
  assert (Zsum (residue <$> take k (ranking total weights))
          <= (sumW - 1) * (Z.of_nat k - 1)) as Htake.
  { etrans;
      [apply (Zsum_fmap_bound_zero residue (sumW - 1) _ e); [| done | done] |].
    - apply Forall_forall. intros y Hy. apply Hb.
      rewrite <- (take_drop k (ranking total weights)).
      apply elem_of_app. by left.
    - rewrite length_take.
      pose proof (valid_sum_positive weights weights_valid) as HS'.
      pose proof (ranking_length total weights) as Hlen.
      unfold sumW. nia. }
  pose proof valid_residue_sum as Hsum.
  rewrite <- (take_drop k (ranking total weights)) in Hsum at 1.
  rewrite fmap_app, Zsum_app, Hdrop in Hsum.
  destruct (valid_remainder total weights total_in_range weights_valid)
    as [_ HR].
  pose proof (valid_sum_positive weights weights_valid) as HS.
  assert (k <> 0%nat) as Hk
    by (intros Hk0; rewrite Hk0, take_0 in He; by apply elem_of_nil in He).
  unfold k, sumW in *. nia.
Qed.

(** A part carries the currency of the total; its amount is the floor of
    its exact share, or one more when the share is not whole. *)
Lemma Split_valid_share parts i w p :
  Split total weights = Ok parts ->
  weights !! i = Some w ->
  parts !! i = Some p ->
  Currency p = Currency total
  /\ (Amount p = (T * w) `div` sumW
      \/ (Amount p = (T * w) `div` sumW + 1 /\ 0 < (T * w) `mod` sumW)).
Proof.
  intros Hrun Hw Hp.
  destruct (Split_valid_part total weights total_in_range weights_valid
              parts i w Hrun Hw) as [[He Hi] | [_ Hi]].
  - apply unit_needs_residue in He. simpl in He.
    rewrite Hp in Hi. simplify_eq. split; [done | by right].
  - rewrite Hp in Hi. simplify_eq. split; [done | by left].
Qed.

End SplitShares.

Lemma valid_weights_small (weights : list Z) :
  Forall (fun w => 0 <= w) weights ->
  0 < Zsum weights <= 2 ^ 63 - 1 ->
  valid_weights weights.
Proof. by split. Qed.

(** X1. On valid input every part is within one unit of its exact share
    [total * weight / sum], and equals it whenever that share is whole. *)
Theorem Split_quota
    {sorter : Sorter} {contract : SorterContract sorter}
    (total : Money) (weights : list Z) :
  int64.in_range (Amount total) ->
  valid_weights weights ->
  exists parts,
    Split total weights = Ok parts
    /\ forall i w p,
         weights !! i = Some w -> parts !! i = Some p ->
         - Zsum weights < Zsum weights * Amount p - Amount total * w
           < Zsum weights
         /\ ((Amount total * w) `mod` Zsum weights = 0 ->
             Zsum weights * Amount p = Amount total * w).
Proof.
  intros Ht Hw.
  destruct (Split_valid total weights Ht Hw) as (parts & Hrun & _).
  exists parts. split; [done |]. intros i w p Hi Hp.
  pose proof (valid_sum_positive weights Hw) as HS.
  pose proof (Z.div_mod (Amount total * w) (Zsum weights) ltac:(lia)) as Hdm.
  pose proof (Z.mod_pos_bound (Amount total * w) (Zsum weights) ltac:(lia))
    as Hmb.
  destruct (Split_valid_share total weights Ht Hw parts i w p Hrun Hi Hp)
    as [_ [Hq | [Hq Hpos]]]; rewrite Hq; split; nia.
Qed.

Lemma Split_quota_witness :
  int64.in_range (Amount (New 10000 "USD"))
  /\ valid_weights [1; 2; 3]
  /\ exists parts,
       @Split short_slice_sorter (New 10000 "USD") [1; 2; 3] = Ok parts
       /\ forall i w p,
            ([1; 2; 3] : list Z) !! i = Some w -> parts !! i = Some p ->
            - Zsum [1; 2; 3]
              < Zsum [1; 2; 3] * Amount p - Amount (New 10000 "USD") * w
              < Zsum [1; 2; 3]
            /\ ((Amount (New 10000 "USD") * w) `mod` Zsum [1; 2; 3] = 0 ->
                Zsum [1; 2; 3] * Amount p = Amount (New 10000 "USD") * w).
Proof.
  assert (int64.in_range (Amount (New 10000 "USD"))) as Ht
    by (apply in_range_small; simpl; lia).
  assert (valid_weights [1; 2; 3]) as Hw
    by (apply valid_weights_small; [repeat constructor; lia | simpl; lia]).
  split_and!; [exact Ht | exact Hw |].
  exact (Split_quota (contract := short_slice_sorter_contract)
           (New 10000 "USD") [1; 2; 3] Ht Hw).
Defined.

(** X2. On valid input a weight of zero receives nothing, whatever the
    sign of the total. *)
Theorem Split_zero_weight
    {sorter : Sorter} {contract : SorterContract sorter}
    (total : Money) (weights : list Z) :
  int64.in_range (Amount total) ->
  valid_weights weights ->
  exists parts,
    Split total weights = Ok parts
    /\ forall i p,
         weights !! i = Some 0 -> parts !! i = Some p ->
         p = New 0 (Currency total).
Proof.
  intros Ht Hw.
  destruct (Split_valid total weights Ht Hw) as (parts & Hrun & _).
  exists parts. split; [done |]. intros i p Hi Hp.
  pose proof (valid_sum_positive weights Hw) as HS.
  destruct (Split_valid_share total weights Ht Hw parts i 0 p Hrun Hi Hp)
    as [Hcur Hq].
  rewrite Z.mul_0_r, Z.mod_0_l, Z.div_0_l in Hq by lia.
  destruct p as [a c]. simpl in *. f_equal; [lia | done].
Qed.

Lemma Split_zero_weight_witness :
  int64.in_range (Amount (New (-7) "USD"))
  /\ valid_weights [3; 0; 2]
  /\ exists parts,
       @Split short_slice_sorter (New (-7) "USD") [3; 0; 2] = Ok parts
       /\ forall i p,
            ([3; 0; 2] : list Z) !! i = Some 0 -> parts !! i = Some p ->
            p = New 0 (Currency (New (-7) "USD")).
Proof.
  assert (int64.in_range (Amount (New (-7) "USD"))) as Ht
    by (apply in_range_small; simpl; lia).
  assert (valid_weights [3; 0; 2]) as Hw
    by (apply valid_weights_small; [repeat constructor; lia | simpl; lia]).
  split_and!; [exact Ht | exact Hw |].
  exact (Split_zero_weight (contract := short_slice_sorter_contract)
           (New (-7) "USD") [3; 0; 2] Ht Hw).
Defined.

(** X3. On valid input two equal weights receive parts that differ by at
    most one unit. *)
Theorem Split_equal_weights
    {sorter : Sorter} {contract : SorterContract sorter}
    (total : Money) (weights : list Z) :
  int64.in_range (Amount total) ->
  valid_weights weights ->
  exists parts,
    Split total weights = Ok parts
    /\ forall i j w pi pj,
         weights !! i = Some w -> weights !! j = Some w ->
         parts !! i = Some pi -> parts !! j = Some pj ->
         Z.abs (Amount pi - Amount pj) <= 1.
Proof.
  intros Ht Hw.
  destruct (Split_valid total weights Ht Hw) as (parts & Hrun & _).
  exists parts. split; [done |]. intros i j w pi pj Hi Hj Hpi Hpj.
  destruct (Split_valid_share total weights Ht Hw parts i w pi Hrun Hi Hpi)
    as [_ Hqi].
  destruct (Split_valid_share total weights Ht Hw parts j w pj Hrun Hj Hpj)
    as [_ Hqj].
  lia.
Qed.

Lemma Split_equal_weights_witness :
  int64.in_range (Amount (New 5 "USD"))
  /\ valid_weights [1; 1; 1]
  /\ exists parts,
       @Split short_slice_sorter (New 5 "USD") [1; 1; 1] = Ok parts
       /\ forall i j w pi pj,
            ([1; 1; 1] : list Z) !! i = Some w ->
            ([1; 1; 1] : list Z) !! j = Some w ->
            parts !! i = Some pi -> parts !! j = Some pj ->
            Z.abs (Amount pi - Amount pj) <= 1.
Proof.
  assert (int64.in_range (Amount (New 5 "USD"))) as Ht
    by (apply in_range_small; simpl; lia).
  assert (valid_weights [1; 1; 1]) as Hw
    by (apply valid_weights_small; [repeat constructor; lia | simpl; lia]).
  split_and!; [exact Ht | exact Hw |].
  exact (Split_equal_weights (contract := short_slice_sorter_contract)
           (New 5 "USD") [1; 1; 1] Ht Hw).
Defined.

(** X4. When the total is a whole multiple [k] of the weight sum, every
    part is exactly [k] times its weight; in particular splitting the sum
    of the weights returns the weights themselves. *)
Theorem Split_whole_multiple
    {sorter : Sorter} {contract : SorterContract sorter}
    (total : Money) (weights : list Z) (k : Z) :
  int64.in_range (Amount total) ->
  valid_weights weights ->
  Amount total = k * Zsum weights ->
  Split total weights
  = Ok ((fun w => New (k * w) (Currency total)) <$> weights).
Proof.
  intros Ht Hw Hk.
  destruct (Split_valid total weights Ht Hw) as (parts & Hrun & Hlen & _).
  rewrite Hrun. f_equal. apply list_eq. intros i.
  rewrite list_lookup_fmap.
  destruct (weights !! i) as [w |] eqn:Hi; simpl.
  - destruct (lookup_lt_is_Some_2 parts i) as [p Hp].
    { rewrite Hlen. by eapply lookup_lt_Some. }
    rewrite Hp. f_equal.
    pose proof (valid_sum_positive weights Hw) as HS.
    destruct (Split_valid_share total weights Ht Hw parts i w p Hrun Hi Hp)
      as [Hcur Hq].
    replace (Amount total * w) with (k * w * Zsum weights) in Hq by lia.
    rewrite Z.mod_mul, Z.div_mul in Hq by lia.
    destruct p as [a c]. simpl in *. f_equal; [lia | done].
  - apply lookup_ge_None_2. rewrite Hlen. by apply lookup_ge_None_1.
Qed.

Lemma Split_whole_multiple_witness :
  int64.in_range (Amount (New 30000 "USD"))
  /\ valid_weights [20000; 10000]
  /\ Amount (New 30000 "USD") = 1 * Zsum [20000; 10000]
  /\ @Split short_slice_sorter (New 30000 "USD") [20000; 10000]
     = Ok ((fun w => New (1 * w) (Currency (New 30000 "USD")))
             <$> [20000; 10000]).
Proof.
  assert (int64.in_range (Amount (New 30000 "USD"))) as Ht
    by (apply in_range_small; simpl; lia).
  assert (valid_weights [20000; 10000]) as Hw
    by (apply valid_weights_small; [repeat constructor; lia | simpl; lia]).
  assert (Amount (New 30000 "USD") = 1 * Zsum [20000; 10000]) as Hk
    by (simpl; lia).
  split_and!; [exact Ht | exact Hw | exact Hk |].
  exact (Split_whole_multiple (contract := short_slice_sorter_contract)
           (New 30000 "USD") [20000; 10000] 1 Ht Hw Hk).
Defined.

(** X5. For a total that is not positive the order turns around: on
    valid input the larger of two weights receives the smaller (the more
    negative) part, or an equal one. *)
Theorem Split_antitone_nonpositive_total
    {sorter : Sorter} {contract : SorterContract sorter}
    (total : Money) (weights : list Z) :
  int64.in_range (Amount total) ->
  valid_weights weights ->
  Amount total <= 0 ->
  exists parts,
    Split total weights = Ok parts
    /\ forall i j wi wj pi pj,
         weights !! i = Some wi -> weights !! j = Some wj ->
         parts !! i = Some pi -> parts !! j = Some pj ->
         wj < wi -> Amount pi <= Amount pj.
Proof.
  intros Ht Hw Hneg.
  destruct (Split_valid total weights Ht Hw) as (parts & Hrun & _).
  exists parts. split; [done |].
  intros i j wi wj pi pj Hwi Hwj Hpi Hpj Hlt.
  pose proof (valid_sum_positive weights Hw) as HS.
  assert ((Amount total * wi) `div` Zsum weights
          <= (Amount total * wj) `div` Zsum weights) as Hq
    by (apply Z.div_le_mono; nia).
  destruct (Split_valid_part total weights Ht Hw parts i wi Hrun Hwi)
    as [[Hei Hi] | [Hei Hi]];
    destruct (Split_valid_part total weights Ht Hw parts j wj Hrun Hwj)
      as [[Hej Hj] | [Hej Hj]];
    rewrite Hpi in Hi; rewrite Hpj in Hj;
    injection Hi as ->; injection Hj as ->; simpl; try lia.
  (* [i] receives a unit and [j] does not: [j] is ranked after [i] *)
  pose proof (ranking_ordered total weights) as Hord.
  rewrite <- (take_drop (Z.to_nat (remainder_of total weights))
                (ranking total weights)) in Hord.
  pose proof (StronglySorted_app_1_elem_of _ _ _ _ _ Hord Hei Hej) as Hres.
  unfold less_residue in Hres. simpl in Hres. apply Z.ltb_ge in Hres.
  assert (Amount total <> 0) as Hnz.
  { intros Hz.
    pose proof (valid_remainder_le_total total weights Ht Hw ltac:(lia)) as HR.
    replace (Z.to_nat (remainder_of total weights)) with 0%nat in Hei by lia.
    rewrite take_0 in Hei. by apply elem_of_nil in Hei. }
  pose proof (Z.div_mod (Amount total * wi) (Zsum weights) ltac:(lia)).
  pose proof (Z.div_mod (Amount total * wj) (Zsum weights) ltac:(lia)).
  nia.
Qed.

Lemma Split_antitone_nonpositive_total_witness :
  int64.in_range (Amount (New (-10) "USD"))
  /\ valid_weights [2; 1]
  /\ Amount (New (-10) "USD") <= 0
  /\ exists parts,
       @Split short_slice_sorter (New (-10) "USD") [2; 1] = Ok parts
       /\ forall i j wi wj pi pj,
            ([2; 1] : list Z) !! i = Some wi ->
            ([2; 1] : list Z) !! j = Some wj ->
            parts !! i = Some pi -> parts !! j = Some pj ->
            wj < wi -> Amount pi <= Amount pj.
Proof.
  assert (int64.in_range (Amount (New (-10) "USD"))) as Ht
    by (apply in_range_small; simpl; lia).
  assert (valid_weights [2; 1]) as Hw
    by (apply valid_weights_small; [repeat constructor; lia | simpl; lia]).
  assert (Amount (New (-10) "USD") <= 0) as Hneg by (simpl; lia).
  split_and!; [exact Ht | exact Hw | exact Hneg |].
  exact (Split_antitone_nonpositive_total
           (contract := short_slice_sorter_contract)
           (New (-10) "USD") [2; 1] Ht Hw Hneg).
Defined.

(** ** [Split]: when the sorting routine does not matter *)

(** Two rankings of the same entries agree on their first [k] places
    when none of the entries placed there shares its residue. *)
Lemma ordered_prefix_unique (k : nat) (l1 l2 : list entry) :
  l1 ≡ₚ l2 ->
  ordered less_residue l1 ->
  ordered less_residue l2 ->
  (forall x y, x ∈ take k l1 -> y ∈ l1 -> residue x = residue y -> x = y) ->
  take k l1 = take k l2.
Proof.
  revert l1 l2. induction k as [| k IH]; intros l1 l2 Hperm H1 H2 Htie.
  { by rewrite !take_0. }
  destruct l1 as [| x l1], l2 as [| y l2]; [done | | |].
  { by apply Permutation_nil_cons in Hperm. }
  { symmetry in Hperm. by apply Permutation_nil_cons in Hperm. }
  unfold ordered in *.
  apply StronglySorted_cons in H1 as [Hx H1].
  apply StronglySorted_cons in H2 as [Hy H2].
  assert (x = y) as <-.
  { apply Htie; [by left | by rewrite Hperm; left |].
    assert (residue y <= residue x) as Hle1.
    { assert (y ∈ x :: l1) as Hin by (rewrite Hperm; by left).
      apply elem_of_cons in Hin as [-> | Hin]; [lia |].
      eapply Forall_forall in Hx; [| exact Hin].
      unfold less_residue in Hx. by apply Z.ltb_ge in Hx. }
    assert (residue x <= residue y) as Hle2.
    { assert (x ∈ y :: l2) as Hin by (rewrite <- Hperm; by left).
      apply elem_of_cons in Hin as [-> | Hin]; [lia |].
      eapply Forall_forall in Hy; [| exact Hin].
      unfold less_residue in Hy. by apply Z.ltb_ge in Hy. }
    lia. }
  apply Permutation_cons_inv in Hperm.
  cbn [take]. f_equal. apply IH; [done | done | done |].
  intros x' y' Hx' Hy'. apply Htie; [by right | by right].
Qed.

(** X6. The choice of sorting routine only matters for ties between
    positive residues: on valid input in which no two entries share a
    positive residue, every routine within the contract of [sort.Slice]
    makes [Split] return the same parts. *)
Theorem Split_any_sorter
    (sorter1 sorter2 : Sorter)
    (contract1 : SorterContract sorter1) (contract2 : SorterContract sorter2)
    (total : Money) (weights : list Z) :
  int64.in_range (Amount total) ->
  valid_weights weights ->
  (forall e1 e2,
      e1 ∈ entries_of total weights -> e2 ∈ entries_of total weights ->
      0 < residue e1 -> residue e1 = residue e2 -> e1 = e2) ->
  @Split sorter1 total weights = @Split sorter2 total weights.
Proof.
  intros Ht Hw Htie.
  set (k := Z.to_nat (remainder_of total weights)).
  destruct (@Split_valid sorter1 contract1 total weights Ht Hw)
    as (parts1 & Hrun1 & Hlen1 & _).
  destruct (@Split_valid sorter2 contract2 total weights Ht Hw)
    as (parts2 & Hrun2 & Hlen2 & _).
  assert (take k (@ranking sorter1 total weights)
          = take k (@ranking sorter2 total weights)) as Htake.
  { apply ordered_prefix_unique.
    - by rewrite !ranking_perm.
    - apply ranking_ordered.
    - apply ranking_ordered.
    - intros x y Hx Hy. apply Htie.
      + rewrite <- (@ranking_perm sorter1 contract1 total weights).
        rewrite <- (take_drop k (@ranking sorter1 total weights)).
        apply elem_of_app. by left.
      + by rewrite <- (@ranking_perm sorter1 contract1 total weights).
      + by apply (@unit_needs_residue sorter1 contract1 total weights Ht Hw). }
  assert (NoDup (@ranking sorter2 total weights)) as Hnd.
  { apply (NoDup_fmap_1 index).
    rewrite (@ranking_index sorter2 contract2). apply NoDup_seq. }
  assert (NoDup (@ranking sorter1 total weights)) as Hnd1.
  { apply (NoDup_fmap_1 index).
    rewrite (@ranking_index sorter1 contract1). apply NoDup_seq. }
  rewrite <- (take_drop k (@ranking sorter2 total weights)) in Hnd.
  rewrite <- (take_drop k (@ranking sorter1 total weights)) in Hnd1.
  apply NoDup_app in Hnd as (_ & Hdisj & _).
  apply NoDup_app in Hnd1 as (_ & Hdisj1 & _).
  rewrite Hrun1, Hrun2. f_equal. apply list_eq. intros i.
  destruct (weights !! i) as [w |] eqn:Hi.
  - destruct (@Split_valid_part sorter1 contract1 total weights Ht Hw
                parts1 i w Hrun1 Hi) as [[He1 ->] | [He1 ->]];
      destruct (@Split_valid_part sorter2 contract2 total weights Ht Hw
                  parts2 i w Hrun2 Hi) as [[He2 ->] | [He2 ->]];
      try done; fold k in He1, He2; exfalso.
    + rewrite Htake in He1. by apply (Hdisj _ He1).
    + rewrite <- Htake in He2. by apply (Hdisj1 _ He2).
  - rewrite !lookup_ge_None_2; [done | |].
    + rewrite Hlen2. by apply lookup_ge_None_1.
    + rewrite Hlen1. by apply lookup_ge_None_1.
Qed.

Lemma Split_any_sorter_witness :
  int64.in_range (Amount (New 10000 "USD"))
  /\ valid_weights [1; 2; 3]
  /\ (forall e1 e2,
        e1 ∈ entries_of (New 10000 "USD") [1; 2; 3] ->
        e2 ∈ entries_of (New 10000 "USD") [1; 2; 3] ->
        0 < residue e1 -> residue e1 = residue e2 -> e1 = e2)
  /\ @Split short_slice_sorter (New 10000 "USD") [1; 2; 3]
     = @Split mirrored_sorter (New 10000 "USD") [1; 2; 3].
Proof.
  assert (int64.in_range (Amount (New 10000 "USD"))) as Ht
    by (apply in_range_small; simpl; lia).
  assert (valid_weights [1; 2; 3]) as Hw
    by (apply valid_weights_small; [repeat constructor; lia | simpl; lia]).
  assert (forall e1 e2,
             e1 ∈ entries_of (New 10000 "USD") [1; 2; 3] ->
             e2 ∈ entries_of (New 10000 "USD") [1; 2; 3] ->
             0 < residue e1 -> residue e1 = residue e2 -> e1 = e2) as Htie.
  { assert (entries_of (New 10000 "USD") [1; 2; 3]
            = [Entry 0 1666 4; Entry 1 3333 2; Entry 2 5000 0]) as ->
      by (by vm_compute).
    intros e1 e2 H1 H2.
    repeat (apply elem_of_cons in H1 as [-> | H1]);
      [| | | by apply elem_of_nil in H1];
      repeat (apply elem_of_cons in H2 as [-> | H2]);
      try (by apply elem_of_nil in H2); simpl; intros; try done; lia. }
  split_and!; [exact Ht | exact Hw | exact Htie |].
  exact (Split_any_sorter short_slice_sorter mirrored_sorter
           short_slice_sorter_contract mirrored_sorter_contract
           (New 10000 "USD") [1; 2; 3] Ht Hw Htie).
Defined.

(** ** The allocator: leaves, bounds, and running it again *)

Lemma conserved_leaves_total node :
  conserved node = true -> leaves_total node = Amount (Allocated node).
Proof.
  induction node as [name weight children allocated IH] using Node_ind'.
  destruct children as [| c cs]; [done |].
  rewrite conserved_internal. intros [Hsum Hall]%andb_true_iff.
  apply Z.eqb_eq in Hsum. cbn [leaves_total Allocated]. rewrite Hsum.
  f_equal. apply Forall_fmap_ext_1.
  rewrite forallb_forall in Hall. rewrite Forall_forall in IH.
  apply Forall_forall. intros x Hx. simpl. apply IH; [done |].
  by apply Hall, list_elem_of_In.
Qed.

(** X7. On a valid tree the leaves receive the whole total: what they
    hold after [AllocateTree] adds up to it exactly. *)
Theorem AllocateTree_leaves_total
    {sorter : Sorter} {contract : SorterContract sorter}
    (root : Node) (total : Money) :
  valid_tree root ->
  int64.in_range (Amount total) ->
  exists root',
    AllocateTree root total = (root', Done)
    /\ leaves_total root' = Amount total.
Proof.
  intros Hvalid Ht. unfold AllocateTree.
  destruct (assign_distribute_conserves root Hvalid total Ht) as [Ho Hcons].
  pose proof (assign_distribute_allocated root total) as Hal.
  destruct (assign_distribute root total) as [root' o].
  cbn [fst snd] in *. subst o. exists root'. split; [done |].
  by rewrite (conserved_leaves_total root' Hcons), Hal.
Qed.

Lemma AllocateTree_leaves_total_witness :
  let root :=
    NewNode "CEO Fund" 1
      [NewNode "Dept A" 1
         [NewNode "Team X" 1 []; NewNode "Team Y" 1 []; NewNode "Team Z" 1 []];
       NewNode "Dept B" 1 [];
       NewNode "Dept C" 1 []] in
  valid_tree root
  /\ int64.in_range (Amount (New 10 "USD"))
  /\ exists root',
       @AllocateTree short_slice_sorter root (New 10 "USD") = (root', Done)
       /\ leaves_total root' = Amount (New 10 "USD").
Proof.
  intros root.
  assert (valid_weights [1; 1; 1]) as Hw
    by (apply valid_weights_small; [repeat constructor; lia | simpl; lia]).
  assert (forall name, valid_tree (NewNode name 1 [])) as Hleaf
    by (intros name; by constructor).
  assert (valid_tree root) as Hvalid.
  { unfold root. apply valid_node; [intros _; exact Hw |].
    apply Forall_cons_2;
      [| repeat (apply Forall_cons_2; [apply Hleaf |]); apply Forall_nil_2].
    apply valid_node; [intros _; exact Hw |].
    repeat (apply Forall_cons_2; [apply Hleaf |]). apply Forall_nil_2. }
  assert (int64.in_range (Amount (New 10 "USD"))) as Ht
    by (apply in_range_small; simpl; lia).
  split_and!; [exact Hvalid | exact Ht |].
  exact (AllocateTree_leaves_total (contract := short_slice_sorter_contract)
           root (New 10 "USD") Hvalid Ht).
Defined.

Lemma structure_Weight (l1 l2 : list Node) :
  structure <$> l1 = structure <$> l2 -> Weight <$> l1 = Weight <$> l2.
Proof.
  intros Heq.
  assert (forall n, Weight (structure n) = Weight n) as Hw by (by intros []).
  rewrite <- (list_fmap_ext (Weight ∘ structure) Weight l1)
    by (intros; apply Hw).
  rewrite <- (list_fmap_ext (Weight ∘ structure) Weight l2)
    by (intros; apply Hw).
  by rewrite !list_fmap_compose, Heq.
Qed.

Section Rerun.

Context {sorter : Sorter}.

Lemma step_C_rerun children amounts :
  Forall (fun c => forall a,
            assign_distribute (assign_distribute c a).1 a
            = assign_distribute c a) children ->
  step_C assign_distribute (step_C assign_distribute children amounts).1
    amounts
  = step_C assign_distribute children amounts.
Proof.
  intros Hall. revert amounts.
  induction Hall as [| c cs Hc Hcs IH]; intros amounts; [done |].
  cbn [step_C]. destruct amounts as [| a amounts]; [done |].
  specialize (Hc a). specialize (IH amounts).
  destruct (assign_distribute c a) as [c' o] eqn:Hrun. cbn [fst] in Hc.
  destruct o.
  - destruct (step_C assign_distribute cs amounts) as [cs' o'] eqn:Hrest.
    cbn [fst] in *. cbn [step_C]. by rewrite Hc, IH.
  - cbn [fst step_C]. by rewrite Hc.
  - cbn [fst step_C]. by rewrite Hc.
Qed.

Lemma assign_distribute_rerun node amount :
  assign_distribute (assign_distribute node amount).1 amount
  = assign_distribute node amount.
Proof.
  revert amount.
  induction node as [name weight children allocated IH] using Node_ind'.
  intros amount. destruct children as [| c cs]; [done |].
  cbn [assign_distribute].
  destruct (Split amount (Weight <$> c :: cs)) as [amounts | e | p] eqn:Hsplit.
  - pose proof (step_C_structure (c :: cs) amounts) as Hst.
    pose proof (step_C_rerun (c :: cs) amounts IH) as Hre.
    destruct (step_C assign_distribute (c :: cs) amounts) as [cs' o] eqn:Hstep.
    cbn [fst] in *.
    assert (structure <$> cs' = structure <$> c :: cs) as Hsame.
    { apply Hst, Forall_forall. intros x _ a.
      apply assign_distribute_structure. }
    destruct cs' as [| c' cs']; [done |].
    cbn [assign_distribute].
    by rewrite (structure_Weight _ _ Hsame), Hsplit, Hre.
  - cbn [fst assign_distribute]. by rewrite Hsplit.
  - cbn [fst assign_distribute]. by rewrite Hsplit.
Qed.

End Rerun.

(** X8. Running [AllocateTree] a second time on the tree it left, with
    the same total, changes nothing and ends the same way, whether the
    first run succeeded or stopped on an error. *)
Theorem AllocateTree_rerun
    {sorter : Sorter} (root : Node) (total : Money) :
  AllocateTree (AllocateTree root total).1 total = AllocateTree root total.
Proof. apply assign_distribute_rerun. Qed.

Lemma Split_parts_currency {sorter : Sorter} total weights parts :
  Split total weights = Ok parts ->
  Forall (fun p => Currency p = Currency total) parts.
Proof.
  unfold Split. intros Hrun.
  destruct (decide _); [done |]. destruct (decide _); [done |].
  destruct (pass1 _ _ _ _ _) as [es rem].
  destruct (add_units _ _ _) as [bs | |]; [| done | done].
  cbn [bind] in Hrun.
  destruct (pass3 _ _) as [out | |]; [| done | done].
  cbn [bind] in Hrun. simplify_eq.
  apply Forall_fmap, Forall_forall. by intros amt _.
Qed.

Section Bounded.

Import int64.

Context {sorter : Sorter} {contract : SorterContract sorter}.

Lemma step_C_Forall2 (Q : Money -> Prop) (P : Money -> Node -> Prop)
    children amounts :
  Forall (fun c => forall a,
            Q a ->
            (assign_distribute c a).2 = Done
            /\ P a (assign_distribute c a).1) children ->
  length amounts = length children ->
  Forall Q amounts ->
  (step_C assign_distribute children amounts).2 = Done
  /\ Forall2 (fun a c' => Q a /\ P a c') amounts
       (step_C assign_distribute children amounts).1.
Proof.
  intros Hall. revert amounts.
  induction Hall as [| c cs Hc Hcs IH]; intros amounts Hlen HQ.
  - destruct amounts; [| done]. split; [done | constructor].
  - destruct amounts as [| a amounts]; [done |].
    apply Forall_cons in HQ as [Ha HQ].
    cbn [step_C]. destruct (Hc a Ha) as [Ho HP].
    destruct (assign_distribute c a) as [c' o]. cbn [fst snd] in *. subst o.
    destruct (IH amounts) as [Ho' HP']; [by simplify_eq/= | done |].
    destruct (step_C _ _ _) as [cs' o']. cbn [fst snd] in *.
    split; [done |]. by constructor.
Qed.

Lemma assign_distribute_bounded node :
  valid_tree node ->
  forall amount,
    in_range (Amount amount) ->
    0 <= Amount amount ->
    (assign_distribute node amount).2 = Done
    /\ Forall (fun n => 0 <= Amount (Allocated n) <= Amount amount
                        /\ Currency (Allocated n) = Currency amount)
         (nodes (assign_distribute node amount).1).
Proof.
  induction node as [name weight children allocated IH] using Node_ind'.
  intros Hvalid amount Hr Hpos.
  inversion Hvalid as [n w cs a Hweights Hchildren]; subst.
  destruct children as [| c cs].
  { split; [done |]. repeat constructor; simpl; lia || done. }
  cbn [assign_distribute].
  destruct (Split_valid amount (Weight <$> c :: cs) Hr)
    as (parts & Hrun & Hlen & _ & _ & Hsum); [by apply Hweights |].
  rewrite Hrun.
  pose proof (Split_parts_in_range _ _ _ Hrun) as Hrange.
  pose proof (Split_parts_currency _ _ _ Hrun) as Hcur.
  pose proof (Split_valid_nonneg amount (Weight <$> c :: cs) Hr
                (Hweights ltac:(done)) parts Hpos Hrun) as Hnn.
  rewrite length_fmap in Hlen.
  destruct (step_C_Forall2
              (fun a => in_range (Amount a) /\ 0 <= Amount a <= Amount amount
                        /\ Currency a = Currency amount)
              (fun a c' =>
                 Forall (fun n => 0 <= Amount (Allocated n) <= Amount a
                                  /\ Currency (Allocated n) = Currency a)
                   (nodes c'))
              (c :: cs) parts) as [Ho Hall]; [| done | |].
  { apply Forall_forall. intros x Hx a (Ha1 & Ha2 & Ha3).
    eapply Forall_forall in IH; [| exact Hx].
    eapply Forall_forall in Hchildren; [| exact Hx].
    apply IH; [done | done | lia]. }
  { apply Forall_forall. intros p Hp.
    eapply Forall_forall in Hrange; [| exact Hp].
    eapply Forall_forall in Hcur; [| exact Hp].
    pose proof Hnn as Hnn'.
    eapply Forall_forall in Hnn'; [| exact Hp].
    assert (Amount p <= Zsum (Amount <$> parts)) as Hle.
    { apply Zsum_elem_le; [by apply Forall_fmap |].
      by apply list_elem_of_fmap_2. }
    simpl in *. split; [done |]. split; [lia | done]. }
  destruct (step_C _ _ _) as [cs' o]. cbn [fst snd] in *. subst o.
  split; [done |]. cbn [nodes]. apply Forall_cons.
  split; [simpl; split; [lia | done] |].
  apply Forall_concat, Forall_fmap.
  clear -Hall. induction Hall as [| a c' parts cs' [HQ HP] _ IH];
    constructor; [| done].
  simpl. eapply Forall_impl; [exact HP |].
  intros n [Hn1 Hn2]. simpl in *. destruct HQ as (_ & HQ2 & HQ3).
  split; [lia | congruence].
Qed.

End Bounded.

(** X9. On a valid tree and a total that is not negative, every node of
    the tree ends up holding an amount between zero and the total, in the
    currency of the total. *)
Theorem AllocateTree_nodes_bounded
    {sorter : Sorter} {contract : SorterContract sorter}
    (root : Node) (total : Money) :
  valid_tree root ->
  int64.in_range (Amount total) ->
  0 <= Amount total ->
  exists root',
    AllocateTree root total = (root', Done)
    /\ Forall (fun n => 0 <= Amount (Allocated n) <= Amount total
                        /\ Currency (Allocated n) = Currency total)
         (nodes root').
Proof.
  intros Hvalid Ht Hpos. unfold AllocateTree.
  destruct (assign_distribute_bounded root Hvalid total Ht Hpos) as [Ho Hall].
  destruct (assign_distribute root total) as [root' o].
  cbn [fst snd] in *. subst o. by exists root'.
Qed.

Lemma AllocateTree_nodes_bounded_witness :
  let root :=
    NewNode "CEO Fund" 1
      [NewNode "Dept A" 1
         [NewNode "Team X" 1 []; NewNode "Team Y" 1 []; NewNode "Team Z" 1 []];
       NewNode "Dept B" 1 [];
       NewNode "Dept C" 1 []] in
  valid_tree root
  /\ int64.in_range (Amount (New 10 "USD"))
  /\ 0 <= Amount (New 10 "USD")
  /\ exists root',
       @AllocateTree short_slice_sorter root (New 10 "USD") = (root', Done)
       /\ Forall (fun n => 0 <= Amount (Allocated n) <= Amount (New 10 "USD")
                           /\ Currency (Allocated n)
                              = Currency (New 10 "USD"))
            (nodes root').
Proof.
  intros root.
  assert (valid_weights [1; 1; 1]) as Hw
    by (apply valid_weights_small; [repeat constructor; lia | simpl; lia]).
  assert (forall name, valid_tree (NewNode name 1 [])) as Hleaf
    by (intros name; by constructor).
  assert (valid_tree root) as Hvalid.
  { unfold root. apply valid_node; [intros _; exact Hw |].
    apply Forall_cons_2;
      [| repeat (apply Forall_cons_2; [apply Hleaf |]); apply Forall_nil_2].
    apply valid_node; [intros _; exact Hw |].
    repeat (apply Forall_cons_2; [apply Hleaf |]). apply Forall_nil_2. }
  assert (int64.in_range (Amount (New 10 "USD"))) as Ht
    by (apply in_range_small; simpl; lia).
  assert (0 <= Amount (New 10 "USD")) as Hpos by (simpl; lia).
  split_and!; [exact Hvalid | exact Ht | exact Hpos |].
  exact (AllocateTree_nodes_bounded (contract := short_slice_sorter_contract)
           root (New 10 "USD") Hvalid Ht Hpos).
Defined.

(** ** [money.Add] *)

(** X10. [Add] is commutative, and associative as a chain of calls: the
    two ways of adding three amounts end in the same value, or both in
    [ErrMismatchCurrency]. *)
Theorem Add_commutative_associative (m other third : Money) :
  Add m other = Add other m
  /\ and_then (Add m other) (fun sum => Add sum third)
     = and_then (Add other third) (fun sum => Add m sum).
Proof.
  unfold Add, int64.add. split.
  - destruct (decide (Currency m = Currency other)) as [Heq | Hne].
    + rewrite decide_True by done. by rewrite Z.add_comm, Heq.
    + by rewrite decide_False by done.
  - destruct (decide (Currency m = Currency other)) as [Hmo | Hmo];
      destruct (decide (Currency other = Currency third)) as [Hot | Hot];
      cbn [and_then Currency Amount].
    + rewrite !decide_True by congruence. do 2 f_equal.
      rewrite int64_facts.wrap_add_l.
      rewrite (Z.add_comm (Amount m) (int64.wrap _)).
      rewrite int64_facts.wrap_add_l. f_equal. lia.
    + by rewrite decide_False by congruence.
    + by rewrite decide_False by congruence.
    + done.
Qed.

(** ** [ledger.NewTransaction] *)

Section Ledger.

Import int64 int64_facts.

Lemma add_entries_same_currency currency entries balance :
  in_range balance ->
  Forall (fun e => Currency (ledger.Amount e) = currency) entries ->
  ledger.add_entries currency entries balance
  = Value (wrap (balance + Zsum (entry_amounts entries))).
Proof.
  intros Hb Hall. revert balance Hb.
  induction Hall as [| e es He Hes IH]; intros balance Hb.
  - simpl. rewrite Z.add_0_r. by rewrite wrap_id.
  - cbn [ledger.add_entries]. rewrite decide_True by done.
    rewrite IH by apply wrap_in_range.
    unfold int64.add. rewrite wrap_add_l. do 2 f_equal.
    unfold entry_amounts. rewrite fmap_cons. cbn [Zsum foldr].
    fold (Zsum ((fun e => Amount (ledger.Amount e)) <$> es)). lia.
Qed.

Lemma add_entries_mixed currency before e after balance :
  Forall (fun e => Currency (ledger.Amount e) = currency) before ->
  Currency (ledger.Amount e) <> currency ->
  ledger.add_entries currency (before ++ e :: after) balance
  = Error (ledger.MixedCurrencies currency (Currency (ledger.Amount e))).
Proof.
  intros Hall Hne. revert balance.
  induction Hall as [| x xs Hx Hxs IH]; intros balance; simpl.
  - by rewrite decide_False.
  - rewrite decide_True by done. apply IH.
Qed.

Lemma add_entries_value currency entries balance b :
  ledger.add_entries currency entries balance = Value b ->
  Forall (fun e => Currency (ledger.Amount e) = currency) entries.
Proof.
  revert balance. induction entries as [| e es IH]; intros balance Hrun.
  - constructor.
  - simpl in Hrun. destruct (decide _) as [Heq | Hne]; [| done].
    constructor; [done | by eapply IH].
Qed.

End Ledger.

(** X11. [NewTransaction] accepts a list of entries exactly when it has
    at least two entries, all in one currency, whose amounts add up to
    zero as [int64]; the transaction then carries the id, the reference,
    the time of the call and the entries as given. *)
Theorem NewTransaction_accepts
    (now : Z) (id ref : string) (entries : list ledger.Entry)
    (t : ledger.Transaction) :
  ledger.NewTransaction now id ref entries = Value t
  <-> (2 <= length entries)%nat
      /\ (exists currency,
            Forall (fun e => Currency (ledger.Amount e) = currency) entries)
      /\ int64.wrap (Zsum (entry_amounts entries)) = 0
      /\ t = {| ledger.ID := id; ledger.PostedAt := now;
                ledger.Reference := ref; ledger.Entries := entries |}.
Proof.
  destruct entries as [| e1 [| e2 es]].
  - split; [done | intros [Hlen _]; simpl in Hlen; lia].
  - split; [done | intros [Hlen _]; simpl in Hlen; lia].
  - unfold ledger.NewTransaction.
    set (entries := e1 :: e2 :: es).
    assert (int64.in_range 0) as H0 by (by apply in_range_small).
    split.
    + intros Hrun.
      destruct (ledger.add_entries _ entries 0) as [b | |] eqn:Hadd;
        [| done | done].
      pose proof (add_entries_value _ _ _ _ Hadd) as Hcur.
      rewrite (add_entries_same_currency _ _ _ H0 Hcur) in Hadd.
      cbn [and_then] in Hrun. destruct (decide (b = 0)); [| done].
      simplify_eq. split_and!; [simpl; lia | by eexists | done | done].
    + intros (_ & [currency Hcur] & Hsum & ->).
      assert (currency = Currency (ledger.Amount e1)) as ->
        by (by apply Forall_cons in Hcur as [<- _]).
      rewrite (add_entries_same_currency _ _ _ H0 Hcur).
      cbn [and_then]. rewrite Z.add_0_l, Hsum. by rewrite decide_True.
Qed.

(** X12. An entry in another currency than the first is reported as
    such, with the two currencies, whatever the amounts are and whether
    or not they balance. *)
Theorem NewTransaction_mixed_currencies
    (now : Z) (id ref : string) (first e : ledger.Entry)
    (before after : list ledger.Entry) :
  Forall (fun x => Currency (ledger.Amount x)
                   = Currency (ledger.Amount first)) before ->
  Currency (ledger.Amount e) <> Currency (ledger.Amount first) ->
  ledger.NewTransaction now id ref (first :: before ++ e :: after)
  = Error (ledger.MixedCurrencies (Currency (ledger.Amount first))
             (Currency (ledger.Amount e))).
Proof.
  intros Hbefore Hne. unfold ledger.NewTransaction.
  assert (exists x rest, before ++ e :: after = x :: rest) as (x & rest & Heq)
    by (destruct before; simpl; eauto).
  rewrite Heq, <- Heq.
  rewrite (add_entries_mixed _ (first :: before) e after 0); [done | | done].
  by constructor.
Qed.

Lemma NewTransaction_mixed_currencies_witness :
  let cash := {| ledger.AccountID := "cash";
                 ledger.Amount := New 100 "USD" |} in
  let sales := {| ledger.AccountID := "sales";
                  ledger.Amount := New (-100) "EUR" |} in
  Forall (fun x => Currency (ledger.Amount x)
                   = Currency (ledger.Amount cash)) []
  /\ Currency (ledger.Amount sales) <> Currency (ledger.Amount cash)
  /\ ledger.NewTransaction 0 "tx" "Invoice" (cash :: [] ++ sales :: [])
     = Error (ledger.MixedCurrencies "USD" "EUR").
Proof.
  intros cash sales.
  assert (Forall (fun x => Currency (ledger.Amount x)
                           = Currency (ledger.Amount cash)) []) as Hb
    by constructor.
  assert (Currency (ledger.Amount sales) <> Currency (ledger.Amount cash))
    as Hne by done.
  split_and!; [exact Hb | exact Hne |].
  exact (NewTransaction_mixed_currencies 0 "tx" "Invoice" cash sales [] []
           Hb Hne).
Defined.

(** X13. Entries in one currency whose amounts do not add up to zero are
    rejected, and the error carries the exact sum, provided that sum fits
    [int64]. *)
Theorem NewTransaction_unbalanced
    (now : Z) (id ref : string) (entries : list ledger.Entry)
    (currency : string) :
  (2 <= length entries)%nat ->
  Forall (fun e => Currency (ledger.Amount e) = currency) entries ->
  int64.in_range (Zsum (entry_amounts entries)) ->
  Zsum (entry_amounts entries) <> 0 ->
  ledger.NewTransaction now id ref entries
  = Error (ledger.DoesNotBalance (Zsum (entry_amounts entries))).
Proof.
  intros Hlen Hcur Hrange Hnz.
  destruct entries as [| e1 [| e2 es]]; [simpl in Hlen; lia .. |].
  unfold ledger.NewTransaction.
  assert (currency = Currency (ledger.Amount e1)) as ->
    by (by apply Forall_cons in Hcur as [<- _]).
  rewrite (add_entries_same_currency _ _ 0); [| by apply in_range_small | done].
  cbn [and_then]. rewrite Z.add_0_l, int64_facts.wrap_id by done.
  by rewrite decide_False.
Qed.

Lemma NewTransaction_unbalanced_witness :
  let entries := [ {| ledger.AccountID := "cash";
                      ledger.Amount := New 100 "USD" |};
                   {| ledger.AccountID := "sales";
                      ledger.Amount := New (-90) "USD" |} ] in
  (2 <= length entries)%nat
  /\ Forall (fun e => Currency (ledger.Amount e) = "USD") entries
  /\ int64.in_range (Zsum (entry_amounts entries))
  /\ Zsum (entry_amounts entries) <> 0
  /\ ledger.NewTransaction 0 "tx" "Invoice" entries
     = Error (ledger.DoesNotBalance (Zsum (entry_amounts entries))).
Proof.
  intros entries.
  assert (2 <= length entries)%nat as Hlen by (simpl; lia).
  assert (Forall (fun e => Currency (ledger.Amount e) = "USD") entries)
    as Hcur by (by repeat constructor).
  assert (int64.in_range (Zsum (entry_amounts entries))) as Hr
    by (apply in_range_small; simpl; lia).
  assert (Zsum (entry_amounts entries) <> 0) as Hnz by (simpl; lia).
  split_and!; [exact Hlen | exact Hcur | exact Hr | exact Hnz |].
  exact (NewTransaction_unbalanced 0 "tx" "Invoice" entries "USD"
           Hlen Hcur Hr Hnz).
Defined.

(** ** [pkg/refund] *)

Lemma rebuild_from {E : Type} parts i amounts components :
  length components = length parts ->
  (i + length amounts = length parts)%nat ->
  refund.rebuild (E := E) parts i amounts components
  = Value (take i components ++ refund.with_amounts (drop i parts) amounts).
Proof.
  unfold refund.with_amounts. revert i components.
  induction amounts as [| amt rest IH]; intros i components Hlen Hi.
  - simpl in *. rewrite zip_with_nil_r, app_nil_r.
    by rewrite take_ge by lia.
  - simpl in Hi. cbn [refund.rebuild].
    destruct (lookup_lt_is_Some_2 parts i) as [part Hpart]; [lia |].
    rewrite Hpart. rewrite decide_True by lia.
    rewrite IH by (rewrite ?length_insert; lia).
    f_equal.
    rewrite (take_S_r _ i {| refund.Name := refund.Name part;
                             refund.Amount := amt |}).
    + rewrite take_insert, decide_False by lia.
      rewrite (drop_S parts part i Hpart). cbn [zip_with].
      by rewrite <- app_assoc.
    + apply list_lookup_insert_eq. lia.
Qed.

Lemma rebuild_no_error {E : Type} parts i amounts components (e : E) :
  refund.rebuild parts i amounts components <> Error e.
Proof.
  revert i components.
  induction amounts as [| amt rest IH]; intros i components; [done |].
  cbn [refund.rebuild]. destruct (parts !! i); [| done].
  destruct (decide _); [apply IH | done].
Qed.

Lemma rebuild_all {E : Type} parts amounts :
  length amounts = length parts ->
  refund.rebuild (E := E) parts 0 amounts
    (replicate (length parts) refund.zero_Component)
  = Value (refund.with_amounts parts amounts).
Proof.
  intros Hlen. rewrite rebuild_from; [done | by rewrite length_replicate |].
  simpl. lia.
Qed.

Lemma with_amounts_names parts amounts :
  length amounts = length parts ->
  refund.Name <$> refund.with_amounts parts amounts = refund.Name <$> parts.
Proof.
  unfold refund.with_amounts. revert amounts.
  induction parts as [| part parts IH]; intros [| amt amounts] Hlen;
    simplify_eq/=; [done |].
  f_equal. by apply IH.
Qed.

Lemma with_amounts_weights parts amounts :
  length amounts = length parts ->
  refund.weights_of (refund.with_amounts parts amounts) = Amount <$> amounts.
Proof.
  unfold refund.with_amounts, refund.weights_of. revert amounts.
  induction parts as [| part parts IH]; intros [| amt amounts] Hlen;
    simplify_eq/=; [done |].
  f_equal. by apply IH.
Qed.

Lemma with_amounts_lookup parts amounts i c :
  refund.with_amounts parts amounts !! i = Some c ->
  exists part amt,
    parts !! i = Some part /\ amounts !! i = Some amt
    /\ c = {| refund.Name := refund.Name part; refund.Amount := amt |}.
Proof.
  unfold refund.with_amounts. intros Hc.
  apply lookup_zip_with_Some in Hc as (part & amt & -> & Hp & Ha).
  by exists part, amt.
Qed.

Lemma total_of_from parts acc :
  fold_left (fun acc part => int64.add acc (Amount (refund.Amount part)))
    parts acc
  = fold_left int64.add (refund.weights_of parts) acc.
Proof.
  unfold refund.weights_of. revert acc.
  induction parts as [| part parts IH]; intros acc; [done |].
  rewrite fmap_cons. cbn [fold_left]. apply IH.
Qed.

Lemma total_of_wrap parts :
  refund.total_of parts = int64.wrap (Zsum (refund.weights_of parts)).
Proof.
  rewrite <- sumWeights_wrap. unfold refund.total_of, sumWeights.
  apply total_of_from.
Qed.

(** A part that is the floor of its share, or one unit more where the
    share is not whole, stays within its weight when the total stays
    within the sum of the weights. *)
Lemma share_within_weight T S w p :
  0 < S -> 0 <= T <= S -> 0 <= w ->
  p = (T * w) `div` S \/ (p = (T * w) `div` S + 1 /\ 0 < (T * w) `mod` S) ->
  0 <= p <= w.
Proof.
  intros HS HT Hw Hp.
  pose proof (Z.div_mod (T * w) S ltac:(lia)) as Hdm.
  pose proof (Z.mod_pos_bound (T * w) S ltac:(lia)) as Hmb.
  assert (0 <= (T * w) `div` S) by (apply Z.div_pos; nia).
  destruct Hp as [-> | [-> Hpos]]; split; nia.
Qed.

Section Refund.

Import int64 int64_facts.

Context {sorter : Sorter} {contract : SorterContract sorter}.

Lemma negotiated_run parts refundAmount allocated :
  (refund.total_of parts <? Amount refundAmount) = false ->
  Split refundAmount (refund.weights_of parts) = Ok allocated ->
  length allocated = length parts ->
  refund.CalculateNegotiatedRefund parts refundAmount
  = Value {| refund.Components := refund.with_amounts parts allocated;
             refund.Total := refundAmount |}.
Proof.
  intros Hle Hrun Hlen. unfold refund.CalculateNegotiatedRefund.
  rewrite Hle, Hrun. by rewrite rebuild_all.
Qed.

Lemma negotiated_valid parts refundAmount :
  in_range (Amount refundAmount) ->
  valid_weights (refund.weights_of parts) ->
  Amount refundAmount <= Zsum (refund.weights_of parts) ->
  exists allocated,
    Split refundAmount (refund.weights_of parts) = Ok allocated
    /\ length allocated = length parts
    /\ Zsum (Amount <$> allocated) = Amount refundAmount
    /\ refund.CalculateNegotiatedRefund parts refundAmount
       = Value {| refund.Components := refund.with_amounts parts allocated;
                  refund.Total := refundAmount |}.
Proof.
  intros Hr Hw Hle.
  destruct (Split_valid refundAmount _ Hr Hw)
    as (allocated & Hrun & Hlen & _ & _ & Hsum).
  unfold refund.weights_of in Hlen at 1. rewrite length_fmap in Hlen.
  exists allocated. split_and!; [done .. |].
  apply negotiated_run; [| done | done].
  rewrite total_of_wrap, wrap_id; [lia |].
  pose proof (valid_sum_positive _ Hw).
  unfold in_range, MinInt64, MaxInt64 in *. lia.
Qed.

End Refund.

(** X14. A refund no larger than the original total, over components
    with non-negative amounts and a positive total that fits [int64], is
    accepted: the result names the components in their order, carries
    the requested amount as its total, and its component amounts, all in
    the currency of the request, add up to exactly that amount. *)
Theorem CalculateNegotiatedRefund_conserves
    {sorter : Sorter} {contract : SorterContract sorter}
    (originalParts : list refund.Component) (refundAmount : Money) :
  int64.in_range (Amount refundAmount) ->
  valid_weights (refund.weights_of originalParts) ->
  Amount refundAmount <= Zsum (refund.weights_of originalParts) ->
  exists result,
    refund.CalculateNegotiatedRefund originalParts refundAmount = Value result
    /\ refund.Total result = refundAmount
    /\ refund.Name <$> refund.Components result
       = refund.Name <$> originalParts
    /\ Zsum (refund.weights_of (refund.Components result))
       = Amount refundAmount
    /\ Forall (fun c => Currency (refund.Amount c) = Currency refundAmount)
         (refund.Components result).
Proof.
  intros Hr Hw Hle.
  destruct (negotiated_valid originalParts refundAmount Hr Hw Hle)
    as (allocated & Hrun & Hlen & Hsum & Hres).
  eexists. split; [exact Hres |]. cbn [refund.Total refund.Components].
  split_and!; [done | by apply with_amounts_names | |].
  - by rewrite with_amounts_weights.
  - apply Forall_lookup. intros i c Hc.
    apply with_amounts_lookup in Hc as (part & amt & _ & Ha & ->).
    pose proof (Split_parts_currency _ _ _ Hrun) as Hcur.
    by eapply Forall_lookup in Hcur.
Qed.

Lemma CalculateNegotiatedRefund_conserves_witness :
  let parts := [ {| refund.Name := "Base";
                    refund.Amount := New 100000 "USD" |};
                 {| refund.Name := "VAT";
                    refund.Amount := New 25000 "USD" |} ] in
  let refundAmount := New 10000 "USD" in
  int64.in_range (Amount refundAmount)
  /\ valid_weights (refund.weights_of parts)
  /\ Amount refundAmount <= Zsum (refund.weights_of parts)
  /\ exists result,
       @refund.CalculateNegotiatedRefund short_slice_sorter parts refundAmount
       = Value result
       /\ refund.Total result = refundAmount
       /\ refund.Name <$> refund.Components result = refund.Name <$> parts
       /\ Zsum (refund.weights_of (refund.Components result))
          = Amount refundAmount
       /\ Forall (fun c => Currency (refund.Amount c) = Currency refundAmount)
            (refund.Components result).
Proof.
  intros parts refundAmount.
  assert (int64.in_range (Amount refundAmount)) as Hr
    by (apply in_range_small; simpl; lia).
  assert (valid_weights (refund.weights_of parts)) as Hw
    by (apply valid_weights_small; [repeat constructor; simpl; lia
                                   | simpl; lia]).
  assert (Amount refundAmount <= Zsum (refund.weights_of parts)) as Hle
    by (simpl; lia).
  split_and!; [exact Hr | exact Hw | exact Hle |].
  exact (CalculateNegotiatedRefund_conserves
           (contract := short_slice_sorter_contract)
           parts refundAmount Hr Hw Hle).
Defined.

(** X15. Under the same conditions a refund that is not negative gives
    every component an amount between zero and the original amount of
    that component. *)
Theorem CalculateNegotiatedRefund_capped
    {sorter : Sorter} {contract : SorterContract sorter}
    (originalParts : list refund.Component) (refundAmount : Money) :
  valid_weights (refund.weights_of originalParts) ->
  0 <= Amount refundAmount <= Zsum (refund.weights_of originalParts) ->
  exists result,
    refund.CalculateNegotiatedRefund originalParts refundAmount = Value result
    /\ Forall2 (fun original refunded =>
                  0 <= Amount (refund.Amount refunded)
                    <= Amount (refund.Amount original))
         originalParts (refund.Components result).
Proof.
  intros Hw [H0 Hle].
  pose proof (valid_sum_positive _ Hw) as HS.
  assert (int64.in_range (Amount refundAmount)) as Hr
    by (unfold int64.in_range, int64.MinInt64, int64.MaxInt64 in *; lia).
  destruct (negotiated_valid originalParts refundAmount Hr Hw Hle)
    as (allocated & Hrun & Hlen & Hsum & Hres).
  eexists. split; [exact Hres |]. cbn [refund.Components].
  apply Forall2_same_length_lookup. split.
  { unfold refund.with_amounts. rewrite length_zip_with. lia. }
  intros i original refunded Ho Hc.
  apply with_amounts_lookup in Hc as (part & amt & Hp & Ha & ->).
  rewrite Ho in Hp. injection Hp as <-. cbn [refund.Amount].
  assert (refund.weights_of originalParts !! i
          = Some (Amount (refund.Amount original))) as Hwi.
  { unfold refund.weights_of. by rewrite list_lookup_fmap, Ho. }
  destruct (Split_valid_share refundAmount _ Hr Hw allocated i _ amt
              Hrun Hwi Ha) as [_ Hshare].
  eapply share_within_weight; [exact (proj1 HS) | | | exact Hshare].
  - lia.
  - apply list_elem_of_lookup_2 in Hwi.
    by apply (valid_weight_bounds _ Hw) in Hwi as [? _].
Qed.

Lemma CalculateNegotiatedRefund_capped_witness :
  let parts := [ {| refund.Name := "Base";
                    refund.Amount := New 100000 "USD" |};
                 {| refund.Name := "VAT";
                    refund.Amount := New 25000 "USD" |} ] in
  let refundAmount := New 10001 "USD" in
  valid_weights (refund.weights_of parts)
  /\ 0 <= Amount refundAmount <= Zsum (refund.weights_of parts)
  /\ exists result,
       @refund.CalculateNegotiatedRefund short_slice_sorter parts refundAmount
       = Value result
       /\ Forall2 (fun original refunded =>
                     0 <= Amount (refund.Amount refunded)
                       <= Amount (refund.Amount original))
            parts (refund.Components result).
Proof.
  intros parts refundAmount.
  assert (valid_weights (refund.weights_of parts)) as Hw
    by (apply valid_weights_small; [repeat constructor; simpl; lia
                                   | simpl; lia]).
  assert (0 <= Amount refundAmount <= Zsum (refund.weights_of parts)) as Hle
    by (simpl; lia).
  split; [exact Hw |]. split; [exact Hle |].
  exact (CalculateNegotiatedRefund_capped
           (contract := short_slice_sorter_contract)
           parts refundAmount Hw Hle).
Defined.

(** X16. A refund of the whole original total gives every component
    back its original amount, in the currency of the request: the
    currencies of the original components are not looked at. *)
Theorem CalculateNegotiatedRefund_full
    {sorter : Sorter} {contract : SorterContract sorter}
    (originalParts : list refund.Component) (refundAmount : Money) :
  valid_weights (refund.weights_of originalParts) ->
  Amount refundAmount = Zsum (refund.weights_of originalParts) ->
  refund.CalculateNegotiatedRefund originalParts refundAmount
  = Value {| refund.Components :=
               (fun part =>
                  {| refund.Name := refund.Name part;
                     refund.Amount :=
                       New (Amount (refund.Amount part))
                         (Currency refundAmount) |}) <$> originalParts;
             refund.Total := refundAmount |}.
Proof.
  intros Hw Heq.
  pose proof (valid_sum_positive _ Hw) as HS.
  assert (int64.in_range (Amount refundAmount)) as Hr
    by (unfold int64.in_range, int64.MinInt64, int64.MaxInt64 in *; lia).
  destruct (negotiated_valid originalParts refundAmount Hr Hw ltac:(lia))
    as (allocated & Hrun & Hlen & Hsum & Hres).
  rewrite Hres. f_equal. f_equal. apply list_eq. intros i.
  rewrite list_lookup_fmap. unfold refund.with_amounts.
  rewrite lookup_zip_with.
  destruct (originalParts !! i) as [part |] eqn:Hi; [| done].
  destruct (lookup_lt_is_Some_2 allocated i) as [amt Ha].
  { rewrite Hlen. by eapply lookup_lt_Some. }
  rewrite Ha. simpl. do 2 f_equal.
  assert (refund.weights_of originalParts !! i
          = Some (Amount (refund.Amount part))) as Hwi.
  { unfold refund.weights_of. by rewrite list_lookup_fmap, Hi. }
  destruct (Split_valid_share refundAmount _ Hr Hw allocated i _ amt
              Hrun Hwi Ha) as [Hcur Hshare].
  rewrite Heq, Z.mul_comm, Z.mod_mul, Z.div_mul in Hshare by lia.
  destruct amt as [a c]. simpl in *. f_equal; [lia | done].
Qed.

Lemma CalculateNegotiatedRefund_full_witness :
  let parts := [ {| refund.Name := "Base";
                    refund.Amount := New 100000 "USD" |};
                 {| refund.Name := "VAT";
                    refund.Amount := New 25000 "USD" |} ] in
  let refundAmount := New 125000 "EUR" in
  valid_weights (refund.weights_of parts)
  /\ Amount refundAmount = Zsum (refund.weights_of parts)
  /\ @refund.CalculateNegotiatedRefund short_slice_sorter parts refundAmount
     = Value {| refund.Components :=
                  [ {| refund.Name := "Base";
                       refund.Amount := New 100000 "EUR" |};
                    {| refund.Name := "VAT";
                       refund.Amount := New 25000 "EUR" |} ];
                refund.Total := refundAmount |}.
Proof.
  intros parts refundAmount.
  assert (valid_weights (refund.weights_of parts)) as Hw
    by (apply valid_weights_small; [repeat constructor; simpl; lia
                                   | simpl; lia]).
  assert (Amount refundAmount = Zsum (refund.weights_of parts)) as Heq
    by (simpl; lia).
  split_and!; [exact Hw | exact Heq |].
  exact (CalculateNegotiatedRefund_full
           (contract := short_slice_sorter_contract)
           parts refundAmount Hw Heq).
Defined.

(** X17. Over components with non-negative amounts whose total fits
    [int64], the three ways [CalculateNegotiatedRefund] ends are decided
    by the amounts alone: the refusal of a refund above the original
    total, the error of [allocate.Split] when the total is zero (no
    component, or only zero amounts) and the refund is not above it, and
    a result otherwise; it does not panic. *)
Theorem CalculateNegotiatedRefund_outcomes
    {sorter : Sorter} {contract : SorterContract sorter}
    (originalParts : list refund.Component) (refundAmount : Money) :
  int64.in_range (Amount refundAmount) ->
  Forall (fun w => 0 <= w) (refund.weights_of originalParts) ->
  Zsum (refund.weights_of originalParts) <= int64.MaxInt64 ->
  let total := Zsum (refund.weights_of originalParts) in
  let outcome := refund.CalculateNegotiatedRefund originalParts refundAmount in
  (outcome = Error refund.RefundExceedsOriginal
   <-> total < Amount refundAmount)
  /\ (outcome = Error (refund.Allocate ErrInvalidWeights)
      <-> Amount refundAmount <= total /\ total = 0)
  /\ ((exists result, outcome = Value result)
      <-> Amount refundAmount <= total /\ 0 < total).
Proof.
  intros Hr Hnn Hmax total outcome.
  pose proof (Zsum_nonneg _ Hnn) as H0. fold total in H0, Hmax.
  assert (refund.total_of originalParts = total) as Htotal.
  { rewrite total_of_wrap. apply int64_facts.wrap_id.
    unfold int64.in_range, int64.MinInt64, int64.MaxInt64 in *.
    fold total. lia. }
  destruct (Z.lt_ge_cases total (Amount refundAmount)) as [Hlt | Hge].
  - assert (outcome = Error refund.RefundExceedsOriginal) as ->.
    { unfold outcome, refund.CalculateNegotiatedRefund.
      rewrite Htotal. by destruct (Z.ltb_spec total (Amount refundAmount));
        [| lia]. }
    split; [done |]. split.
    + split; [done | intros []; lia].
    + split; [by intros [] | intros []; lia].
  - destruct (decide (total = 0)) as [Hz | Hnz].
    + assert (outcome = Error (refund.Allocate ErrInvalidWeights)) as ->.
      { unfold outcome, refund.CalculateNegotiatedRefund.
        rewrite Htotal.
        destruct (Z.ltb_spec total (Amount refundAmount)); [lia |].
        unfold Split. destruct (decide _); [done |].
        rewrite sumWeights_wrap. fold total. rewrite Hz.
        by rewrite decide_True. }
      split; [split; [done | lia] |]. split.
      * done.
      * split; [by intros [] | intros []; lia].
    + assert (valid_weights (refund.weights_of originalParts)) as Hw
        by (split; [done | fold total; lia]).
      destruct (negotiated_valid originalParts refundAmount Hr Hw Hge)
        as (allocated & _ & _ & _ & Hres).
      fold outcome in Hres. rewrite Hres.
      split; [split; [done | lia] |]. split.
      * split; [done | intros []; lia].
      * split; [intros _; lia | intros _; by eexists].
Qed.

Lemma CalculateNegotiatedRefund_outcomes_witness :
  let parts := [ {| refund.Name := "Base";
                    refund.Amount := New 100000 "USD" |};
                 {| refund.Name := "VAT";
                    refund.Amount := New 25000 "USD" |} ] in
  let refundAmount := New 125001 "USD" in
  int64.in_range (Amount refundAmount)
  /\ Forall (fun w => 0 <= w) (refund.weights_of parts)
  /\ Zsum (refund.weights_of parts) <= int64.MaxInt64
  /\ @refund.CalculateNegotiatedRefund short_slice_sorter parts refundAmount
     = Error refund.RefundExceedsOriginal.
Proof.
  intros parts refundAmount.
  assert (int64.in_range (Amount refundAmount)) as Hr
    by (apply in_range_small; simpl; lia).
  assert (Forall (fun w => 0 <= w) (refund.weights_of parts)) as Hnn
    by (repeat constructor; simpl; lia).
  assert (Zsum (refund.weights_of parts) <= int64.MaxInt64) as Hmax
    by (unfold int64.MaxInt64; simpl; lia).
  split_and!; [exact Hr | exact Hnn | exact Hmax |].
  apply (CalculateNegotiatedRefund_outcomes
           (contract := short_slice_sorter_contract)
           parts refundAmount Hr Hnn Hmax).
  simpl. lia.
Defined.

Lemma share_within_total T S w p :
  0 < S -> 0 <= w <= S -> 0 <= T ->
  p = (T * w) `div` S \/ (p = (T * w) `div` S + 1 /\ 0 < (T * w) `mod` S) ->
  0 <= p <= T.
Proof.
  intros HS Hw HT Hp. rewrite (Z.mul_comm T w) in Hp.
  by apply (share_within_weight w S T p).
Qed.

Lemma Forall2_Zsum_le (comps : list refund.Component) (vals : list Z) :
  Forall2 (fun comp v => 0 <= v <= Amount (refund.Amount comp)) comps vals ->
  Forall (fun v => 0 <= v) vals
  /\ 0 <= Zsum vals <= Zsum (refund.weights_of comps).
Proof.
  unfold refund.weights_of.
  induction 1 as [| comp v comps vals Hv _ [IH1 IH2]].
  - split; [constructor | simpl; lia].
  - split; [constructor; [lia | done] |].
    rewrite fmap_cons. cbn [Zsum foldr].
    fold (Zsum vals).
    fold (Zsum ((fun part => Amount (refund.Amount part)) <$> comps)). lia.
Qed.

Section Itemized.

Import int64 int64_facts.

Context {sorter : Sorter} {contract : SorterContract sorter}.

Variables quantity returnQty : Z.
Hypothesis returned : 0 < returnQty <= quantity.
Hypothesis purchased : quantity <= MaxInt64.

Lemma level_1_weights :
  int64.sub quantity returnQty = quantity - returnQty
  /\ valid_weights [returnQty; quantity - returnQty]
  /\ Zsum [returnQty; quantity - returnQty] = quantity.
Proof.
  split_and!.
  - unfold int64.sub. apply wrap_id.
    unfold in_range, MinInt64, MaxInt64 in *. lia.
  - split; [repeat constructor; lia | simpl; lia].
  - simpl. lia.
Qed.

(** Level 1 neither fails nor panics: every component contributes the
    floor of its share of the returned quantity, or one unit more where
    that share is not whole. *)
Lemma level_1_run components maxRefundableTotal :
  in_range maxRefundableTotal ->
  Forall (fun comp => in_range (Amount (refund.Amount comp))) components ->
  exists vals,
    refund.level_1 quantity returnQty components maxRefundableTotal
    = Value (vals, wrap (maxRefundableTotal + Zsum vals))
    /\ Forall2 (fun comp v =>
                  let a := Amount (refund.Amount comp) in
                  v = (a * returnQty) `div` quantity
                  \/ (v = (a * returnQty) `div` quantity + 1
                      /\ 0 < (a * returnQty) `mod` quantity))
         components vals.
Proof.
  destruct level_1_weights as (Hsub & Hw & Hsum).
  intros Hacc Hall. revert maxRefundableTotal Hacc.
  induction Hall as [| comp comps Hcomp _ IH]; intros acc Hacc.
  - exists []. split; [| constructor].
    cbn [refund.level_1 Zsum foldr]. by rewrite Z.add_0_r, wrap_id.
  - cbn [refund.level_1]. rewrite Hsub.
    destruct (Split_valid (refund.Amount comp) _ Hcomp Hw)
      as (parts & Hrun & Hlen & _).
    rewrite Hrun.
    destruct parts as [| v parts]; [done |].
    destruct (Split_valid_share (refund.Amount comp) _ Hcomp Hw
                (v :: parts) 0 returnQty v Hrun eq_refl eq_refl)
      as [_ Hshare].
    rewrite Hsum in Hshare.
    destruct (IH (int64.add acc (Amount v))) as (vals & Hrest & Hvals);
      [apply wrap_in_range |].
    rewrite Hrest. cbn [and_then].
    exists (Amount v :: vals). split; [| by constructor].
    do 2 f_equal. unfold int64.add. rewrite wrap_add_l.
    cbn [Zsum foldr]. fold (Zsum vals). f_equal. lia.
Qed.

End Itemized.

Lemma whole_line_vals (quantity : Z) comps vals :
  0 < quantity ->
  Forall2 (fun comp v =>
             let a := Amount (refund.Amount comp) in
             v = (a * quantity) `div` quantity
             \/ (v = (a * quantity) `div` quantity + 1
                 /\ 0 < (a * quantity) `mod` quantity))
    comps vals ->
  vals = refund.weights_of comps.
Proof.
  intros HQ. unfold refund.weights_of.
  induction 1 as [| comp v comps vals Hv _ IH]; [done |].
  rewrite fmap_cons, <- IH. f_equal. cbn zeta in Hv.
  rewrite Z.mod_mul, Z.div_mul in Hv by lia. lia.
Qed.

Lemma weights_of_elem (comp : refund.Component) comps :
  comp ∈ comps -> Amount (refund.Amount comp) ∈ refund.weights_of comps.
Proof.
  intros Hin. unfold refund.weights_of.
  apply list_elem_of_fmap. by exists comp.
Qed.

Section ItemizedRun.

Import int64 int64_facts.

Context {sorter : Sorter} {contract : SorterContract sorter}.

Variable line : refund.LineItem.LineItem.
Variable returnQty : Z.
Variable negotiatedAmount : Money.

Let quantity := refund.LineItem.Quantity line.
Let components := refund.LineItem.Components line.

Hypothesis returned : 0 < returnQty <= quantity.
Hypothesis purchased : quantity <= MaxInt64.
Hypothesis amounts_nonneg :
  Forall (fun w => 0 <= w) (refund.weights_of components).
Hypothesis amounts_fit : Zsum (refund.weights_of components) <= MaxInt64.
Hypothesis negotiated_in_range : in_range (Amount negotiatedAmount).

Lemma itemized_run :
  exists vals,
    Forall2 (fun comp v =>
               let a := Amount (refund.Amount comp) in
               0 <= v <= a
               /\ - quantity < quantity * v - returnQty * a < quantity)
      components vals
    /\ let cap := New (Zsum vals) (Currency negotiatedAmount) in
       let outcome :=
         refund.CalculateItemizedRefund line returnQty negotiatedAmount in
       (Zsum vals < Amount negotiatedAmount
        /\ outcome
           = Error (refund.NegotiatedExceedsReturned negotiatedAmount cap))
       \/ (Amount negotiatedAmount <= Zsum vals /\ Zsum vals = 0
           /\ outcome = Error (refund.Allocate ErrInvalidWeights))
       \/ (Amount negotiatedAmount <= Zsum vals /\ 0 < Zsum vals
           /\ valid_weights vals
           /\ exists allocated,
                Split negotiatedAmount vals = Ok allocated
                /\ length allocated = length components
                /\ Zsum (Amount <$> allocated) = Amount negotiatedAmount
                /\ outcome
                   = Value {| refund.MaxRefundable := cap;
                              refund.RefundedParts :=
                                refund.with_amounts components allocated |}).
Proof.
  assert (Forall (fun comp => in_range (Amount (refund.Amount comp)))
            components) as Hin.
  { apply Forall_forall. intros comp Hcomp.
    assert (Amount (refund.Amount comp) ∈ refund.weights_of components)
      as Hw by (by apply weights_of_elem).
    pose proof (Zsum_elem_le _ _ amounts_nonneg Hw).
    eapply Forall_forall in amounts_nonneg; [| exact Hw].
    unfold in_range, MinInt64, MaxInt64 in *. cbn beta in *. lia. }
  assert (in_range 0) as H0 by (by apply in_range_small).
  destruct (level_1_run quantity returnQty returned purchased components 0
              H0 Hin) as (vals & Hrun1 & Hshare).
  assert (Forall2 (fun comp v =>
                     let a := Amount (refund.Amount comp) in
                     0 <= v <= a
                     /\ - quantity < quantity * v - returnQty * a < quantity)
            components vals) as Hvals.
  { apply Forall2_same_length_lookup. split; [by eapply Forall2_length |].
    intros i comp v Hc Hv.
    pose proof (Forall2_lookup_lr _ _ _ _ _ _ Hshare Hc Hv) as Hs.
    cbn zeta in *.
    assert (0 <= Amount (refund.Amount comp)) as Ha.
    { assert (Amount (refund.Amount comp) ∈ refund.weights_of components)
        as Hw by (by eapply weights_of_elem, list_elem_of_lookup_2).
      by eapply Forall_forall in amounts_nonneg; [| exact Hw]. }
    split.
    - eapply share_within_total; [| | exact Ha | exact Hs]; lia.
    - pose proof (Z.div_mod (Amount (refund.Amount comp) * returnQty)
                    quantity ltac:(lia)) as Hdm.
      pose proof (Z.mod_pos_bound (Amount (refund.Amount comp) * returnQty)
                    quantity ltac:(lia)) as Hmb.
      destruct Hs as [-> | [-> Hpos]]; nia. }
  exists vals. split; [exact Hvals |]. intros cap outcome.
  assert (Forall2 (fun comp v => 0 <= v <= Amount (refund.Amount comp))
            components vals) as Hle.
  { eapply Forall2_impl; [exact Hvals |]. by intros comp v [? _]. }
  apply Forall2_Zsum_le in Hle as [Hnn [Hlo Hhi]].
  assert (outcome
          = if Zsum vals <? Amount negotiatedAmount
            then Error (refund.NegotiatedExceedsReturned negotiatedAmount cap)
            else
              match Split negotiatedAmount vals with
              | Err e => Error (refund.Allocate e)
              | Panic p => Panics p
              | Ok allocatedAmounts =>
                  and_then
                    (refund.rebuild components 0 allocatedAmounts
                       (replicate (length components) refund.zero_Component))
                    (fun finalParts =>
                       Value {| refund.MaxRefundable := cap;
                                refund.RefundedParts := finalParts |})
              end) as ->.
  { unfold outcome, refund.CalculateItemizedRefund. fold quantity components.
    destruct (Z.ltb_spec quantity returnQty); [lia |].
    destruct (Z.leb_spec returnQty 0); [lia |].
    rewrite Hrun1. cbn [and_then]. rewrite Z.add_0_l, wrap_id; [done |].
    unfold in_range, MinInt64, MaxInt64 in *. lia. }
  destruct (Z.ltb_spec (Zsum vals) (Amount negotiatedAmount)) as [Hlt | Hge].
  { by left. }
  right. destruct (decide (Zsum vals = 0)) as [Hz | Hnz].
  - left. split_and!; [done .. |].
    unfold Split. destruct (decide _); [done |].
    rewrite sumWeights_wrap, Hz. by rewrite decide_True.
  - right.
    assert (valid_weights vals) as Hw by (split; [done | lia]).
    destruct (Split_valid negotiatedAmount vals negotiated_in_range Hw)
      as (allocated & Hrun & Hlen & _ & _ & Hsum).
    assert (length allocated = length components) as Hlen'.
    { rewrite Hlen. symmetry. by eapply Forall2_length. }
    split_and!; [done | lia | done |].
    exists allocated. split_and!; [done .. |].
    rewrite Hrun. by rewrite rebuild_all.
Qed.

End ItemizedRun.

(** X18. Returning the whole line is a negotiated refund over the
    components of the line: the cap is their total, the breakdown is the
    one [CalculateNegotiatedRefund] gives, and a refund above the total
    is refused with the error of this function. *)
Theorem CalculateItemizedRefund_whole_line
    {sorter : Sorter} {contract : SorterContract sorter}
    (line : refund.LineItem.LineItem) (negotiatedAmount : Money) :
  0 < refund.LineItem.Quantity line <= int64.MaxInt64 ->
  Forall (fun comp => int64.in_range (Amount (refund.Amount comp)))
    (refund.LineItem.Components line) ->
  let components := refund.LineItem.Components line in
  let maxRefundable :=
    New (refund.total_of components) (Currency negotiatedAmount) in
  refund.CalculateItemizedRefund line (refund.LineItem.Quantity line)
    negotiatedAmount
  = match refund.CalculateNegotiatedRefund components negotiatedAmount with
    | Value result =>
        Value {| refund.MaxRefundable := maxRefundable;
                 refund.RefundedParts := refund.Components result |}
    | Error refund.RefundExceedsOriginal =>
        Error (refund.NegotiatedExceedsReturned negotiatedAmount
                 maxRefundable)
    | Error e => Error e
    | Panics p => Panics p
    end.
Proof.
  intros [HQ Hmax] Hin components maxRefundable.
  assert (int64.in_range 0) as H0 by (by apply in_range_small).
  destruct (level_1_run (refund.LineItem.Quantity line)
              (refund.LineItem.Quantity line) ltac:(lia) Hmax components 0
              H0 Hin) as (vals & Hrun1 & Hshare).
  apply whole_line_vals in Hshare as ->; [| done].
  unfold refund.CalculateItemizedRefund, refund.CalculateNegotiatedRefund.
  fold components.
  destruct (Z.ltb_spec (refund.LineItem.Quantity line)
              (refund.LineItem.Quantity line)); [lia |].
  destruct (Z.leb_spec (refund.LineItem.Quantity line) 0); [lia |].
  rewrite Hrun1. cbn [and_then]. rewrite Z.add_0_l, <- total_of_wrap.
  fold maxRefundable.
  destruct (_ <? _); [done |].
  destruct (Split _ _) as [allocated | e | p]; [| done | done].
  destruct (refund.rebuild _ _ _ _) as [finalParts | e | p] eqn:Hre;
    [done | | done].
  by apply rebuild_no_error in Hre.
Qed.

Lemma CalculateItemizedRefund_whole_line_witness :
  let line :=
    {| refund.LineItem.Quantity := 3;
       refund.LineItem.Components :=
         [ {| refund.Name := "Base"; refund.Amount := New 3000 "USD" |};
           {| refund.Name := "Tax"; refund.Amount := New 750 "USD" |} ] |} in
  0 < refund.LineItem.Quantity line <= int64.MaxInt64
  /\ Forall (fun comp => int64.in_range (Amount (refund.Amount comp)))
       (refund.LineItem.Components line)
  /\ @refund.CalculateItemizedRefund short_slice_sorter line 3
       (New 1000 "USD")
     = Value {| refund.MaxRefundable := New 3750 "USD";
                refund.RefundedParts :=
                  [ {| refund.Name := "Base";
                       refund.Amount := New 800 "USD" |};
                    {| refund.Name := "Tax";
                       refund.Amount := New 200 "USD" |} ] |}.
Proof.
  intros line.
  assert (0 < refund.LineItem.Quantity line <= int64.MaxInt64) as HQ
    by (unfold int64.MaxInt64; simpl; lia).
  assert (Forall (fun comp => int64.in_range (Amount (refund.Amount comp)))
            (refund.LineItem.Components line)) as Hin
    by (repeat constructor; apply in_range_small; simpl; lia).
  split; [exact HQ |]. split; [exact Hin |].
  exact (CalculateItemizedRefund_whole_line
           (contract := short_slice_sorter_contract)
           line (New 1000 "USD") HQ Hin).
Defined.

(** X19. For a return of part of a line whose component amounts are not
    negative and add up within [int64], level 1 gives every component a
    value between zero and its amount, within one unit of its share
    [amount * returnQty / quantity]; the cap is the sum of these values.
    A negotiated amount above the cap is refused with the cap in the
    error, a cap of zero gives the error of [allocate.Split], and in
    every other case the call returns a calculation that carries the
    cap. *)
Theorem CalculateItemizedRefund_cap
    {sorter : Sorter} {contract : SorterContract sorter}
    (line : refund.LineItem.LineItem) (returnQty : Z)
    (negotiatedAmount : Money) :
  let quantity := refund.LineItem.Quantity line in
  let components := refund.LineItem.Components line in
  0 < returnQty <= quantity ->
  quantity <= int64.MaxInt64 ->
  Forall (fun w => 0 <= w) (refund.weights_of components) ->
  Zsum (refund.weights_of components) <= int64.MaxInt64 ->
  int64.in_range (Amount negotiatedAmount) ->
  exists vals,
    Forall2 (fun comp v =>
               let a := Amount (refund.Amount comp) in
               0 <= v <= a
               /\ - quantity < quantity * v - returnQty * a < quantity)
      components vals
    /\ let cap := New (Zsum vals) (Currency negotiatedAmount) in
       let outcome :=
         refund.CalculateItemizedRefund line returnQty negotiatedAmount in
       (outcome
        = Error (refund.NegotiatedExceedsReturned negotiatedAmount cap)
        <-> Zsum vals < Amount negotiatedAmount)
       /\ (outcome = Error (refund.Allocate ErrInvalidWeights)
           <-> Amount negotiatedAmount <= Zsum vals /\ Zsum vals = 0)
       /\ ((exists parts,
              outcome = Value {| refund.MaxRefundable := cap;
                                 refund.RefundedParts := parts |})
           <-> Amount negotiatedAmount <= Zsum vals /\ 0 < Zsum vals).
Proof.
  intros quantity components Hret Hmax Hnn Hfit Hr.
  destruct (itemized_run line returnQty negotiatedAmount Hret Hmax Hnn Hfit
              Hr) as (vals & Hvals & Hout).
  exists vals. split; [exact Hvals |]. intros cap outcome.
  cbn zeta in Hout. fold cap outcome in Hout.
  destruct Hout as [[Hlt ->] | [(Hge & Hz & ->) | (Hge & Hpos & _ & Hok)]].
  - split; [done |]. split.
    + split; [done | intros []; lia].
    + split; [by intros [] | intros []; lia].
  - split; [split; [done | lia] |]. split.
    + done.
    + split; [by intros [] | intros []; lia].
  - destruct Hok as (allocated & _ & _ & _ & ->).
    split; [split; [done | lia] |]. split.
    + split; [done | intros []; lia].
    + split; [done | intros _; by eexists].
Qed.

Lemma CalculateItemizedRefund_cap_witness :
  let line :=
    {| refund.LineItem.Quantity := 3;
       refund.LineItem.Components :=
         [ {| refund.Name := "Base"; refund.Amount := New 1000 "USD" |};
           {| refund.Name := "Tax"; refund.Amount := New 250 "USD" |} ] |} in
  let quantity := refund.LineItem.Quantity line in
  let components := refund.LineItem.Components line in
  let negotiatedAmount := New 400 "USD" in
  0 < 1 <= quantity
  /\ quantity <= int64.MaxInt64
  /\ Forall (fun w => 0 <= w) (refund.weights_of components)
  /\ Zsum (refund.weights_of components) <= int64.MaxInt64
  /\ int64.in_range (Amount negotiatedAmount)
  /\ exists vals,
       Forall2 (fun comp v =>
                  let a := Amount (refund.Amount comp) in
                  0 <= v <= a
                  /\ - quantity < quantity * v - 1 * a < quantity)
         components vals
       /\ let cap := New (Zsum vals) (Currency negotiatedAmount) in
          let outcome :=
            @refund.CalculateItemizedRefund short_slice_sorter line 1
              negotiatedAmount in
          (outcome
           = Error (refund.NegotiatedExceedsReturned negotiatedAmount cap)
           <-> Zsum vals < Amount negotiatedAmount)
          /\ (outcome = Error (refund.Allocate ErrInvalidWeights)
              <-> Amount negotiatedAmount <= Zsum vals /\ Zsum vals = 0)
          /\ ((exists parts,
                 outcome = Value {| refund.MaxRefundable := cap;
                                    refund.RefundedParts := parts |})
              <-> Amount negotiatedAmount <= Zsum vals /\ 0 < Zsum vals).
Proof.
  intros line quantity components negotiatedAmount.
  assert (0 < 1 <= quantity) as Hret by (unfold quantity; simpl; lia).
  assert (quantity <= int64.MaxInt64) as Hmax
    by (unfold quantity, int64.MaxInt64; simpl; lia).
  assert (Forall (fun w => 0 <= w) (refund.weights_of components)) as Hnn
    by (repeat constructor; simpl; lia).
  assert (Zsum (refund.weights_of components) <= int64.MaxInt64) as Hfit
    by (unfold int64.MaxInt64; simpl; lia).
  assert (int64.in_range (Amount negotiatedAmount)) as Hr
    by (apply in_range_small; simpl; lia).
  split; [exact Hret |]. split_and!; [exact Hmax | exact Hnn | exact Hfit
                                     | exact Hr |].
  exact (CalculateItemizedRefund_cap (contract := short_slice_sorter_contract)
           line 1 negotiatedAmount Hret Hmax Hnn Hfit Hr).
Defined.

(** X20. Under the same conditions every calculation the call returns
    names the components of the line in their order, and its refunded
    amounts are in the currency of the negotiated amount and add up to
    exactly that amount; when the negotiated amount is not negative each
    refunded amount lies between zero and the amount of its
    component. *)
Theorem CalculateItemizedRefund_conserves
    {sorter : Sorter} {contract : SorterContract sorter}
    (line : refund.LineItem.LineItem) (returnQty : Z)
    (negotiatedAmount : Money) (calculation : refund.RefundCalculation) :
  let quantity := refund.LineItem.Quantity line in
  let components := refund.LineItem.Components line in
  0 < returnQty <= quantity ->
  quantity <= int64.MaxInt64 ->
  Forall (fun w => 0 <= w) (refund.weights_of components) ->
  Zsum (refund.weights_of components) <= int64.MaxInt64 ->
  int64.in_range (Amount negotiatedAmount) ->
  refund.CalculateItemizedRefund line returnQty negotiatedAmount
  = Value calculation ->
  let parts := refund.RefundedParts calculation in
  refund.Name <$> parts = refund.Name <$> components
  /\ Zsum (refund.weights_of parts) = Amount negotiatedAmount
  /\ Forall (fun part =>
               Currency (refund.Amount part) = Currency negotiatedAmount)
       parts
  /\ (0 <= Amount negotiatedAmount ->
      Forall2 (fun comp part =>
                 0 <= Amount (refund.Amount part)
                   <= Amount (refund.Amount comp))
        components parts).
Proof.
  intros quantity components Hret Hmax Hnn Hfit Hr Hcall parts.
  destruct (itemized_run line returnQty negotiatedAmount Hret Hmax Hnn Hfit
              Hr) as (vals & Hvals & Hout).
  cbn zeta in Hout. rewrite Hcall in Hout.
  destruct Hout as [[_ ?] | [(_ & _ & ?) | (Hge & Hpos & Hw & Hok)]];
    [done | done |].
  destruct Hok as (allocated & Hrun & Hlen & Hsum & Hcalc).
  injection Hcalc as ->. subst quantity components parts.
  cbn [refund.RefundedParts].
  split; [by apply with_amounts_names |].
  split; [by rewrite with_amounts_weights |].
  split.
  - apply Forall_lookup. intros i c Hc.
    apply with_amounts_lookup in Hc as (part & amt & _ & Ha & ->).
    pose proof (Split_parts_currency _ _ _ Hrun) as Hcur.
    by eapply Forall_lookup in Hcur.
  - intros H0. apply Forall2_same_length_lookup. split.
    { unfold refund.with_amounts. rewrite length_zip_with. lia. }
    intros i comp c Hcomp Hc.
    apply with_amounts_lookup in Hc as (part & amt & Hp & Ha & ->).
    rewrite Hcomp in Hp. injection Hp as <-. cbn [refund.Amount].
    destruct (Forall2_lookup_l _ _ _ _ _ Hvals Hcomp) as (v & Hv & Hbound).
    cbn zeta in Hbound. destruct Hbound as [[Hv0 Hva] _].
    destruct (Split_valid_share negotiatedAmount vals Hr Hw allocated i v amt
                Hrun Hv Ha) as [_ Hshare].
    pose proof (share_within_weight (Amount negotiatedAmount) (Zsum vals)
                  v (Amount amt) Hpos ltac:(lia) Hv0 Hshare).
    lia.
Qed.

Lemma CalculateItemizedRefund_conserves_witness :
  let line :=
    {| refund.LineItem.Quantity := 3;
       refund.LineItem.Components :=
         [ {| refund.Name := "Base"; refund.Amount := New 1000 "USD" |};
           {| refund.Name := "Tax"; refund.Amount := New 250 "USD" |} ] |} in
  let quantity := refund.LineItem.Quantity line in
  let components := refund.LineItem.Components line in
  let negotiatedAmount := New 400 "USD" in
  let calculation :=
    {| refund.MaxRefundable := New 416 "USD";
       refund.RefundedParts :=
         [ {| refund.Name := "Base"; refund.Amount := New 320 "USD" |};
           {| refund.Name := "Tax"; refund.Amount := New 80 "USD" |} ] |} in
  let parts := refund.RefundedParts calculation in
  0 < 1 <= quantity
  /\ quantity <= int64.MaxInt64
  /\ Forall (fun w => 0 <= w) (refund.weights_of components)
  /\ Zsum (refund.weights_of components) <= int64.MaxInt64
  /\ int64.in_range (Amount negotiatedAmount)
  /\ @refund.CalculateItemizedRefund short_slice_sorter line 1
       negotiatedAmount
     = Value calculation
  /\ refund.Name <$> parts = refund.Name <$> components
  /\ Zsum (refund.weights_of parts) = Amount negotiatedAmount
  /\ Forall (fun part =>
               Currency (refund.Amount part) = Currency negotiatedAmount)
       parts
  /\ (0 <= Amount negotiatedAmount ->
      Forall2 (fun comp part =>
                 0 <= Amount (refund.Amount part)
                   <= Amount (refund.Amount comp))
        components parts).
Proof.
  intros line quantity components negotiatedAmount calculation parts.
  assert (0 < 1 <= quantity) as Hret by (unfold quantity; simpl; lia).
  assert (quantity <= int64.MaxInt64) as Hmax
    by (unfold quantity, int64.MaxInt64; simpl; lia).
  assert (Forall (fun w => 0 <= w) (refund.weights_of components)) as Hnn
    by (repeat constructor; simpl; lia).
  assert (Zsum (refund.weights_of components) <= int64.MaxInt64) as Hfit
    by (unfold int64.MaxInt64; simpl; lia).
  assert (int64.in_range (Amount negotiatedAmount)) as Hr
    by (apply in_range_small; simpl; lia).
  assert (@refund.CalculateItemizedRefund short_slice_sorter line 1
            negotiatedAmount = Value calculation) as Hcall
    by (vm_compute; reflexivity).
  split; [exact Hret |].
  split_and!; [exact Hmax | exact Hnn | exact Hfit | exact Hr | exact Hcall
              | ..];
    apply (CalculateItemizedRefund_conserves
             (contract := short_slice_sorter_contract)
             line 1 negotiatedAmount calculation
             Hret Hmax Hnn Hfit Hr Hcall).
Defined.

(** ** Rationals: [math/big.Rat] and [roundRat] *)

Section Rationals.

Import int64 int64_facts big_facts.

Lemma this_Add x y : (this (bigRat.Add x y) == this x + this y)%Q.
Proof. unfold bigRat.Add, Qcplus. simpl. apply Qred_correct. Qed.

Lemma this_Mul x y : (this (bigRat.Mul x y) == this x * this y)%Q.
Proof. unfold bigRat.Mul, Qcmult. simpl. apply Qred_correct. Qed.

Lemma this_div (x y : Qc) : (this (x / y)%Qc == this x / this y)%Q.
Proof.
  unfold Qcdiv, Qcmult, Qcinv. simpl. by rewrite !Qred_correct.
Qed.

Lemma this_SetInt64 z : this (bigRat.SetInt64 z) = inject_Z z.
Proof. done. Qed.

Lemma this_half : (this (bigRat.NewRat 1 2) == 1 # 2)%Q.
Proof. done. Qed.

Lemma this_one : bigRat.NewRat 1 1 = 1%Qc.
Proof. done. Qed.

Lemma Qfloor_unique (q : Q) (z : Z) :
  (inject_Z z <= q)%Q -> (q < inject_Z z + 1)%Q -> Qfloor q = z.
Proof.
  intros Hlo Hhi.
  pose proof (Qfloor_le q) as Hfl. pose proof (Qlt_floor q) as Hfu.
  rewrite inject_Z_plus in Hfu. change (inject_Z 1) with 1%Q in Hfu.
  assert (inject_Z (Qfloor q) < inject_Z (z + 1))%Q as H1
    by (rewrite inject_Z_plus; change (inject_Z 1) with 1%Q; lra).
  assert (inject_Z z < inject_Z (Qfloor q + 1))%Q as H2
    by (rewrite inject_Z_plus; change (inject_Z 1) with 1%Q; lra).
  rewrite <- Zlt_Qlt in H1, H2. lia.
Qed.

Lemma round_half_up_spec (x : Qc) (z : Z) :
  round_half_up x = z
  <-> (inject_Z z <= this x + (1 # 2))%Q
      /\ (this x + (1 # 2) < inject_Z z + 1)%Q.
Proof.
  unfold round_half_up. split.
  - intros <-. split; [apply Qfloor_le |].
    pose proof (Qlt_floor (this x + (1 # 2))) as Hfu.
    by rewrite inject_Z_plus in Hfu.
  - intros [Hlo Hhi]. by apply Qfloor_unique.
Qed.

(** [roundRat] is the nearest integer, a half going up, reduced to
    [int64]; the two copies of the function are the same. *)
Lemma roundRat_floor r : tax.roundRat r = wrap (round_half_up r).
Proof.
  unfold tax.roundRat, round_half_up, bigRat.Num, bigRat.Denom.
  rewrite Div_floor by done. rewrite Int64_wrap. f_equal.
  transitivity (Qfloor (this (bigRat.Add r (bigRat.NewRat 1 2)))).
  - by destruct (this _).
  - apply Qfloor_comp. by rewrite this_Add, this_half.
Qed.

Lemma exchange_roundRat r : exchange.roundRat r = tax.roundRat r.
Proof. done. Qed.

(** Comparing an integer with a rational that lies between integers. *)
Lemma inject_Z_le_half (a c : Z) (q : Q) :
  (inject_Z a <= q + (1 # 2))%Q -> (q <= inject_Z c)%Q -> a <= c.
Proof.
  intros H1 H2.
  assert (inject_Z a < inject_Z (c + 1))%Q as H
    by (rewrite inject_Z_plus; change (inject_Z 1) with 1%Q; lra).
  rewrite <- Zlt_Qlt in H. lia.
Qed.

Lemma inject_Z_ge_half (a c : Z) (q : Q) :
  (q + (1 # 2) < inject_Z a + 1)%Q -> (inject_Z c <= q)%Q -> c <= a.
Proof.
  intros H1 H2.
  assert (inject_Z c < inject_Z (a + 1))%Q as H
    by (rewrite inject_Z_plus; change (inject_Z 1) with 1%Q; lra).
  rewrite <- Zlt_Qlt in H. lia.
Qed.

End Rationals.

(** X21. [roundRat], in both packages that carry a copy of it, returns
    the integer nearest to its argument, a half going up (towards plus
    infinity, also for negative numbers), reduced to [int64]; when that
    integer is an [int64] it is returned as it is. *)
Theorem roundRat_nearest (r : bigRat.Rat) :
  exists z : Z,
    (inject_Z z - (1 # 2) <= this r)%Q
    /\ (this r < inject_Z z + (1 # 2))%Q
    /\ tax.roundRat r = int64.wrap z
    /\ exchange.roundRat r = int64.wrap z
    /\ (int64.in_range z -> tax.roundRat r = z).
Proof.
  exists (round_half_up r).
  destruct (proj1 (round_half_up_spec r _) eq_refl) as [Hlo Hhi].
  split; [lra |]. split; [lra |].
  split; [apply roundRat_floor |]. split; [apply roundRat_floor |].
  intros Hz. rewrite roundRat_floor. by apply int64_facts.wrap_id.
Qed.

(** ** [pkg/tax] *)

Lemma one_plus_rate_zero (r : Qc) :
  bigRat.Add (bigRat.NewRat 1 1) r = 0%Qc <-> r = (- 1)%Qc.
Proof.
  rewrite this_one. unfold bigRat.Add. split.
  - intros H. replace r with ((1 + r) - 1)%Qc by ring. rewrite H. ring.
  - intros ->. by apply Qc_is_canon.
Qed.

(** X22. The two panics of [CalculateInclusive] and the rates that cause
    them, whatever the gross amount is: a rate that holds no value (the
    zero [Rate{}]) is a nil pointer dereferenced, the rate -1 (minus one
    hundred percent) is the division by zero of [Rat.Quo], and every
    other rate gives a result. *)
Theorem CalculateInclusive_panics (gross : Money) (taxRate : rate.Rate) :
  (tax.CalculateInclusive gross taxRate = Panics NilDereference
   <-> rate.value taxRate = None)
  /\ (tax.CalculateInclusive gross taxRate = Panics DivisionByZero
      <-> rate.value taxRate = Some (- 1)%Qc)
  /\ ((exists result, tax.CalculateInclusive gross taxRate = Value result)
      <-> exists r, rate.value taxRate = Some r /\ r <> (- 1)%Qc).
Proof.
  unfold tax.CalculateInclusive, rate.Raw, bigRat.Quo.
  destruct (rate.value taxRate) as [r |].
  - pose proof (one_plus_rate_zero r) as Hzero.
    destruct (decide _) as [Hz | Hnz]; cbn [and_then].
    + apply Hzero in Hz as ->.
      split; [done |]. split; [done |].
      split; [by intros [] | by intros (r & [= <-] & Hr)].
    + split; [done |]. split.
      * split; [done |]. intros [= ->]. by destruct Hnz; apply Hzero.
      * split; [| by eexists].
        intros _. exists r. split; [done |]. intros ->.
        by destruct Hnz; apply Hzero.
  - split; [done |]. split; [done |].
    split; [by intros [] | by intros (r & ? & _)].
Qed.

Section Tax.

Import int64 int64_facts.

Variable taxRate : rate.Rate.
Variable rateRat : Qc.
Hypothesis rate_value : rate.value taxRate = Some rateRat.
Hypothesis rate_nonneg : (0 <= rateRat)%Qc.

Let r : Q := this rateRat.

Lemma rate_nonneg_Q : (0 <= r)%Q.
Proof. exact rate_nonneg. Qed.

Lemma inclusive_run gross :
  exists baseRat,
    (this baseRat * (1 + r) == inject_Z (Amount gross))%Q
    /\ tax.CalculateInclusive gross taxRate
       = Value
           {| tax.Base := New (tax.roundRat baseRat) (Currency gross);
              tax.Tax :=
                New (int64.sub (Amount gross) (tax.roundRat baseRat))
                  (Currency gross);
              tax.Total := gross |}.
Proof.
  pose proof rate_nonneg_Q as Hr.
  unfold tax.CalculateInclusive, bigRat.Quo, rate.Raw.
  rewrite rate_value.
  destruct (decide _) as [Hz | Hnz].
  { apply one_plus_rate_zero in Hz. exfalso.
    unfold r in Hr. rewrite Hz in Hr. by apply Hr. }
  eexists. split; [| done].
  rewrite this_div, this_SetInt64, this_Add, this_one.
  change (this 1%Qc) with 1%Q. fold r. field. lra.
Qed.

End Tax.

(** X23. For a rate that holds a value that is not negative,
    [CalculateInclusive] splits any [int64] gross amount into a base and
    a tax of the sign of the gross amount that add up to it exactly,
    without wrap-around; the base is the integer nearest to
    [gross / (1 + rate)], a half going up. *)
Theorem CalculateInclusive_shares
    (gross : Money) (taxRate : rate.Rate) (rateRat : Qc) :
  rate.value taxRate = Some rateRat ->
  (0 <= rateRat)%Qc ->
  int64.in_range (Amount gross) ->
  exists result,
    tax.CalculateInclusive gross taxRate = Value result
    /\ tax.Total result = gross
    /\ Currency (tax.Base result) = Currency gross
    /\ Currency (tax.Tax result) = Currency gross
    /\ Z.min 0 (Amount gross) <= Amount (tax.Base result)
       <= Z.max 0 (Amount gross)
    /\ Amount (tax.Tax result)
       = Amount gross - Amount (tax.Base result)
    /\ ((inject_Z (Amount (tax.Base result)) - (1 # 2))
          * (1 + this rateRat)
        <= inject_Z (Amount gross))%Q
    /\ (inject_Z (Amount gross)
        < (inject_Z (Amount (tax.Base result)) + (1 # 2))
          * (1 + this rateRat))%Q.
Proof.
  intros Hvalue Hrate Hg.
  destruct (inclusive_run taxRate rateRat Hvalue Hrate gross)
    as (x & Hx & Hrun).
  pose proof (rate_nonneg_Q rateRat Hrate) as Hr. cbn zeta in Hx, Hr.
  set (r := this rateRat) in *.
  set (g := Amount gross) in *.
  destruct (proj1 (round_half_up_spec x _) eq_refl) as [Hlo Hhi].
  set (b := round_half_up x) in *.
  assert (Z.min 0 g <= b <= Z.max 0 g) as Hb.
  { destruct (Z.le_gt_cases 0 g) as [H0 | H0].
    - assert (0 <= inject_Z g)%Q as Hg0
        by (change 0%Q with (inject_Z 0); by rewrite <- Zle_Qle).
      assert (0 <= this x)%Q by nra.
      assert (this x <= inject_Z g)%Q by nra.
      pose proof (inject_Z_le_half b g (this x) Hlo ltac:(done)).
      pose proof (inject_Z_ge_half b 0 (this x) Hhi ltac:(done)). lia.
    - assert (inject_Z g <= 0)%Q as Hg0
        by (change 0%Q with (inject_Z 0); rewrite <- Zle_Qle; lia).
      assert (this x <= 0)%Q by nra.
      assert (inject_Z g <= this x)%Q by nra.
      pose proof (inject_Z_le_half b 0 (this x) Hlo ltac:(done)).
      pose proof (inject_Z_ge_half b g (this x) Hhi ltac:(done)). lia. }
  assert (tax.roundRat x = b) as Hround.
  { rewrite roundRat_floor. apply int64_facts.wrap_id.
    unfold int64.in_range, int64.MinInt64, int64.MaxInt64 in *. lia. }
  rewrite Hround in Hrun.
  eexists. split; [exact Hrun |].
  cbn [tax.Total tax.Base tax.Tax Amount Currency].
  split; [done |]. split; [done |]. split; [done |]. split; [exact Hb |].
  split.
  - unfold int64.sub. apply int64_facts.wrap_id.
    unfold int64.in_range, int64.MinInt64, int64.MaxInt64 in *. lia.
  - split; nra.
Qed.

Lemma CalculateInclusive_shares_witness :
  let gross := New 12500 "USD" in
  let rateRat := Q2Qc (1 # 4) in
  let taxRate := {| rate.value := Some rateRat |} in
  rate.value taxRate = Some rateRat
  /\ (0 <= rateRat)%Qc
  /\ int64.in_range (Amount gross)
  /\ exists result,
       tax.CalculateInclusive gross taxRate = Value result
       /\ tax.Total result = gross
       /\ Currency (tax.Base result) = Currency gross
       /\ Currency (tax.Tax result) = Currency gross
       /\ Z.min 0 (Amount gross) <= Amount (tax.Base result)
          <= Z.max 0 (Amount gross)
       /\ Amount (tax.Tax result)
          = Amount gross - Amount (tax.Base result)
       /\ ((inject_Z (Amount (tax.Base result)) - (1 # 2))
             * (1 + this rateRat)
           <= inject_Z (Amount gross))%Q
       /\ (inject_Z (Amount gross)
           < (inject_Z (Amount (tax.Base result)) + (1 # 2))
             * (1 + this rateRat))%Q.
Proof.
  intros gross rateRat taxRate.
  assert (rate.value taxRate = Some rateRat) as Hvalue by reflexivity.
  assert (0 <= rateRat)%Qc as Hrate by (vm_compute; discriminate).
  assert (int64.in_range (Amount gross)) as Hg
    by (apply in_range_small; simpl; lia).
  split; [exact Hvalue |]. split; [exact Hrate |]. split; [exact Hg |].
  exact (CalculateInclusive_shares gross taxRate rateRat Hvalue Hrate Hg).
Defined.

(** X24. Backing the tax out of what [CalculateExclusive] returned gives
    the same three amounts back: for a rate that holds a value that is
    not negative, [CalculateInclusive] on the total of
    [CalculateExclusive] returns the result of [CalculateExclusive], as
    long as neither the tax nor the total leaves [int64]. *)
Theorem CalculateExclusive_then_Inclusive
    (base : Money) (taxRate : rate.Rate) (rateRat : Qc) :
  rate.value taxRate = Some rateRat ->
  (0 <= rateRat)%Qc ->
  let taxCents :=
    round_half_up (bigRat.SetInt64 (Amount base) * rateRat)%Qc in
  int64.in_range (Amount base) ->
  int64.in_range taxCents ->
  int64.in_range (Amount base + taxCents) ->
  exists result,
    tax.CalculateExclusive base taxRate = Value result
    /\ Amount (tax.Tax result) = taxCents
    /\ Amount (tax.Total result) = Amount base + taxCents
    /\ tax.CalculateInclusive (tax.Total result) taxRate = Value result.
Proof.
  intros Hvalue Hrate t Hb Ht Hsum.
  pose proof (rate_nonneg_Q rateRat Hrate) as Hr. cbn zeta in Hr.
  set (r := this rateRat) in *.
  assert (tax.roundRat
            (bigRat.Mul (bigRat.SetInt64 (Amount base)) rateRat) = t)
    as Hround.
  { rewrite roundRat_floor. by apply int64_facts.wrap_id. }
  exists {| tax.Base := base;
            tax.Tax := New t (Currency base);
            tax.Total := New (Amount base + t) (Currency base) |}.
  split.
  { unfold tax.CalculateExclusive, rate.Raw. rewrite Hvalue, Hround.
    unfold int64.add. by rewrite int64_facts.wrap_id. }
  cbn [tax.Tax tax.Total Amount].
  split; [done |]. split; [done |].
  destruct (inclusive_run taxRate rateRat Hvalue Hrate
              (New (Amount base + t) (Currency base)))
    as (x & Hx & Hrun).
  cbn zeta in Hx. fold r in Hx. cbn [Amount Currency] in Hx, Hrun.
  rewrite Hrun.
  destruct (proj1 (round_half_up_spec _ _) (eq_refl t)) as [Hlo Hhi].
  rewrite this_Mul, this_SetInt64 in Hlo, Hhi. fold r in Hlo, Hhi.
  rewrite inject_Z_plus in Hx.
  assert (round_half_up x = Amount base) as Hback.
  { apply round_half_up_spec.
    set (b := inject_Z (Amount base)) in *.
    set (tq := inject_Z t) in *.
    split; [nra |].
    destruct (Qlt_le_dec 0 r) as [Hpos | Hzero]; [nra |].
    assert (r == 0)%Q as Hr0 by lra.
    assert (t <= 0) as Ht0.
    { apply (inject_Z_le_half t 0 0); [| done].
      fold tq. rewrite Hr0 in Hlo. lra. }
    assert (tq <= 0)%Q
      by (unfold tq; change 0%Q with (inject_Z 0); by rewrite <- Zle_Qle).
    rewrite Hr0 in Hx. lra. }
  assert (tax.roundRat x = Amount base) as ->.
  { rewrite roundRat_floor, Hback. by apply int64_facts.wrap_id. }
  unfold int64.sub.
  replace (Amount base + t - Amount base) with t by lia.
  rewrite int64_facts.wrap_id by done.
  by destruct base.
Qed.

Lemma CalculateExclusive_then_Inclusive_witness :
  let base := New 9999 "USD" in
  let rateRat := Q2Qc (11 # 100) in
  let taxRate := {| rate.value := Some rateRat |} in
  let taxCents :=
    round_half_up (bigRat.SetInt64 (Amount base) * rateRat)%Qc in
  rate.value taxRate = Some rateRat
  /\ (0 <= rateRat)%Qc
  /\ int64.in_range (Amount base)
  /\ int64.in_range taxCents
  /\ int64.in_range (Amount base + taxCents)
  /\ exists result,
       tax.CalculateExclusive base taxRate = Value result
       /\ Amount (tax.Tax result) = taxCents
       /\ Amount (tax.Total result) = Amount base + taxCents
       /\ tax.CalculateInclusive (tax.Total result) taxRate = Value result.
Proof.
  intros base rateRat taxRate taxCents.
  assert (rate.value taxRate = Some rateRat) as Hvalue by reflexivity.
  assert (0 <= rateRat)%Qc as Hrate by (vm_compute; discriminate).
  assert (int64.in_range (Amount base)) as Hb
    by (apply in_range_small; simpl; lia).
  assert (int64.in_range taxCents) as Ht
    by (apply in_range_small; vm_compute; split; discriminate).
  assert (int64.in_range (Amount base + taxCents)) as Hsum
    by (apply in_range_small; vm_compute; split; discriminate).
  split; [exact Hvalue |]. split; [exact Hrate |]. split; [exact Hb |].
  split; [exact Ht |]. split; [exact Hsum |].
  exact (CalculateExclusive_then_Inclusive base taxRate rateRat
           Hvalue Hrate Hb Ht Hsum).
Defined.

(** ** [pkg/exchange] *)

Lemma Convert_run (amount : Money) (r : exchange.Rate) (price : Qc) :
  Currency amount = exchange.Source r ->
  rate.value (exchange.Price r) = Some price ->
  exchange.Convert amount r
  = Value (New (int64.wrap
                  (round_half_up
                     (bigRat.Mul price (bigRat.SetInt64 (Amount amount)))))
             (exchange.Target r)).
Proof.
  intros Hcur Hprice. unfold exchange.Convert, rate.Mul.
  rewrite decide_False by (by intros ?).
  rewrite Hprice. cbn [and_then].
  by rewrite exchange_roundRat, roundRat_floor.
Qed.

Lemma this_price_Mul (price : Qc) (quantity : Z) :
  (this (bigRat.Mul price (bigRat.SetInt64 quantity))
   == this price * inject_Z quantity)%Q.
Proof. by rewrite this_Mul, this_SetInt64. Qed.

(** The rounding of [price * quantity] stays within [P * M], and so
    within [int64], for a price between zero and [P] and a quantity
    between [- M] and [M]. *)
Lemma round_price_bound (price : Qc) (quantity P M : Z) :
  (0 <= this price <= inject_Z P)%Q ->
  - M <= quantity <= M ->
  - (P * M)
  <= round_half_up (bigRat.Mul price (bigRat.SetInt64 quantity))
  <= P * M.
Proof.
  intros [Hp0 HpP] [Hlo Hhi].
  destruct (proj1 (round_half_up_spec
                     (bigRat.Mul price (bigRat.SetInt64 quantity)) _)
              eq_refl) as [Hrl Hru].
  rewrite this_price_Mul in Hrl, Hru.
  set (z := round_half_up _) in *.
  set (p := this price) in *.
  assert (inject_Z (- M) <= inject_Z quantity)%Q as Hq1
    by (by rewrite <- Zle_Qle).
  assert (inject_Z quantity <= inject_Z M)%Q as Hq2
    by (by rewrite <- Zle_Qle).
  rewrite inject_Z_opp in Hq1.
  assert (0 <= inject_Z M)%Q as HM by lra.
  split.
  - apply (inject_Z_ge_half z (- (P * M)) (p * inject_Z quantity) Hru).
    rewrite inject_Z_opp, inject_Z_mult. nra.
  - apply (inject_Z_le_half z (P * M) (p * inject_Z quantity) Hrl).
    rewrite inject_Z_mult. nra.
Qed.

(** X25. [Convert] is monotone in the amount for a price that is not
    negative: for a rate whose price holds a value between zero and [P]
    and two amounts in the source currency between [- M] and [M], with
    [P * M] within [int64], the larger amount is converted to at least
    as much, in the target currency. *)
Theorem Convert_monotone
    (a b : Money) (r : exchange.Rate) (price : Qc) (P M : Z) :
  Currency a = exchange.Source r ->
  Currency b = exchange.Source r ->
  rate.value (exchange.Price r) = Some price ->
  (0 <= this price <= inject_Z P)%Q ->
  P * M <= int64.MaxInt64 ->
  - M <= Amount a ->
  Amount a <= Amount b ->
  Amount b <= M ->
  exists x y,
    exchange.Convert a r = Value (New x (exchange.Target r))
    /\ exchange.Convert b r = Value (New y (exchange.Target r))
    /\ x <= y.
Proof.
  intros Ha Hb Hprice Hp HPM HaM Hab HbM.
  rewrite (Convert_run a r price Ha Hprice), (Convert_run b r price Hb Hprice).
  pose proof (round_price_bound price (Amount a) P M Hp ltac:(lia)) as Hra.
  pose proof (round_price_bound price (Amount b) P M Hp ltac:(lia)) as Hrb.
  rewrite !int64_facts.wrap_id
    by (unfold int64.in_range, int64.MinInt64, int64.MaxInt64 in *; lia).
  do 2 eexists. split; [done |]. split; [done |].
  unfold round_half_up. apply Qfloor_resp_le.
  rewrite !this_price_Mul.
  assert (inject_Z (Amount a) <= inject_Z (Amount b))%Q
    by (by rewrite <- Zle_Qle).
  destruct Hp as [Hp0 _]. nra.
Qed.

Lemma Convert_monotone_witness :
  let price := Q2Qc (11 # 10) in
  let r := {| exchange.Source := "EUR"; exchange.Target := "USD";
              exchange.Price := {| rate.value := Some price |} |} in
  let a := New 1005 "EUR" in
  let b := New 1006 "EUR" in
  Currency a = exchange.Source r
  /\ Currency b = exchange.Source r
  /\ rate.value (exchange.Price r) = Some price
  /\ (0 <= this price <= inject_Z 2)%Q
  /\ 2 * 10000 <= int64.MaxInt64
  /\ - 10000 <= Amount a
  /\ Amount a <= Amount b
  /\ Amount b <= 10000
  /\ exists x y,
       exchange.Convert a r = Value (New x (exchange.Target r))
       /\ exchange.Convert b r = Value (New y (exchange.Target r))
       /\ x <= y.
Proof.
  intros price r a b.
  assert (Currency a = exchange.Source r) as Ha by reflexivity.
  assert (Currency b = exchange.Source r) as Hb by reflexivity.
  assert (rate.value (exchange.Price r) = Some price) as Hprice
    by reflexivity.
  assert (0 <= this price <= inject_Z 2)%Q as Hp
    by (split; vm_compute; discriminate).
  assert (2 * 10000 <= int64.MaxInt64) as HPM
    by (unfold int64.MaxInt64; lia).
  assert (- 10000 <= Amount a) as HaM by (simpl; lia).
  assert (Amount a <= Amount b) as Hab by (simpl; lia).
  assert (Amount b <= 10000) as HbM by (simpl; lia).
  split; [exact Ha |]. split; [exact Hb |]. split; [exact Hprice |].
  split; [exact Hp |].
  split; [exact HPM |]. split; [exact HaM |]. split; [exact Hab |].
  split; [exact HbM |].
  exact (Convert_monotone a b r price 2 10000
           Ha Hb Hprice Hp HPM HaM Hab HbM).
Defined.

(** X26. [SettlePayment] returns the converted amount, the size of the
    difference between it and the original value as a gain or loss that
    is never negative, and [IsGain] exactly when the converted amount is
    at least the original value, as long as the difference lies strictly
    above [MinInt64] and within [int64]. The gain or loss is in the
    currency of the original value, which is not compared with the
    target currency of the rate. *)
Theorem SettlePayment_gain_loss
    (foreignAmount originalValue actualValue : Money)
    (currentRate : exchange.Rate) :
  exchange.Convert foreignAmount currentRate = Value actualValue ->
  int64.MinInt64 < Amount actualValue - Amount originalValue
    <= int64.MaxInt64 ->
  exchange.SettlePayment foreignAmount currentRate originalValue
  = Value {| exchange.ConvertedAmount := actualValue;
             exchange.GainLoss :=
               New (Z.abs (Amount actualValue - Amount originalValue))
                 (Currency originalValue);
             exchange.IsGain :=
               bool_decide (Amount originalValue <= Amount actualValue) |}.
Proof.
  intros Hconv Hdiff. unfold exchange.SettlePayment.
  rewrite Hconv. cbn [and_then]. unfold int64.sub.
  rewrite int64_facts.wrap_id
    by (unfold int64.in_range, int64.MinInt64, int64.MaxInt64 in *; lia).
  set (diff := Amount actualValue - Amount originalValue) in *.
  do 2 f_equal.
  - destruct (Z.ltb_spec diff 0).
    + rewrite int64_facts.wrap_id
        by (unfold int64.in_range, int64.MinInt64, int64.MaxInt64 in *; lia).
      f_equal. lia.
    + f_equal. lia.
  - destruct (Z.leb_spec 0 diff).
    + rewrite bool_decide_eq_true_2; [done | lia].
    + rewrite bool_decide_eq_false_2; [done | lia].
Qed.

Lemma SettlePayment_gain_loss_witness :
  let r := {| exchange.Source := "EUR"; exchange.Target := "USD";
              exchange.Price :=
                {| rate.value := Some (Q2Qc (105 # 100)) |} |} in
  let foreignAmount := New 10000 "EUR" in
  let originalValue := New 11000 "USD" in
  let actualValue := New 10500 "USD" in
  exchange.Convert foreignAmount r = Value actualValue
  /\ int64.MinInt64 < Amount actualValue - Amount originalValue
       <= int64.MaxInt64
  /\ exchange.SettlePayment foreignAmount r originalValue
     = Value {| exchange.ConvertedAmount := actualValue;
                exchange.GainLoss := New 500 "USD";
                exchange.IsGain := false |}.
Proof.
  intros r foreignAmount originalValue actualValue.
  assert (exchange.Convert foreignAmount r = Value actualValue) as Hconv
    by (vm_compute; reflexivity).
  assert (int64.MinInt64 < Amount actualValue - Amount originalValue
            <= int64.MaxInt64) as Hdiff
    by (unfold int64.MinInt64, int64.MaxInt64; simpl; lia).
  split; [exact Hconv |]. split; [exact Hdiff |].
  exact (SettlePayment_gain_loss foreignAmount originalValue actualValue r
           Hconv Hdiff).
Defined.

(** ** [pkg/pricing] *)

Lemma fill_done tiers remainingUsage total :
  remainingUsage <= 0 ->
  pricing.fill tiers remainingUsage total = Value total.
Proof.
  intros Hle. destruct tiers as [| tier rest]; [done |].
  cbn [pricing.fill]. by destruct (Z.leb_spec remainingUsage 0); [| lia].
Qed.

Lemma fill_open_tier tier after remainingUsage total :
  pricing.UpTo tier = 0 ->
  pricing.fill (tier :: after) remainingUsage total
  = pricing.fill [tier] remainingUsage total.
Proof.
  intros Hopen. cbn [pricing.fill].
  destruct (remainingUsage <=? 0); [done |].
  rewrite Hopen. cbn [Z.eqb orb].
  destruct (rate.Mul _ _) as [tierCost | e | p]; [| done | done].
  cbn [and_then]. unfold int64.sub. rewrite Z.sub_diag.
  by rewrite fill_done.
Qed.

Lemma fill_after_open_tier before tier after remainingUsage total :
  pricing.UpTo tier = 0 ->
  pricing.fill (before ++ tier :: after) remainingUsage total
  = pricing.fill (before ++ [tier]) remainingUsage total.
Proof.
  intros Hopen. revert remainingUsage total.
  induction before as [| t before IH]; intros remainingUsage total.
  - by apply fill_open_tier.
  - cbn [app pricing.fill]. destruct (remainingUsage <=? 0); [done |].
    destruct (rate.Mul _ _) as [tierCost | e | p]; [| done | done].
    cbn [and_then]. apply IH.
Qed.

(** X27. Tiers listed after a tier with [UpTo = 0] are never charged:
    the outcome is the one of the list cut after that tier, for every
    usage and whatever the other tiers are. *)
Theorem CalculateGraduatedCost_open_tier_is_last
    (usage : Z) (before after : list pricing.Tier) (tier : pricing.Tier) :
  pricing.UpTo tier = 0 ->
  pricing.CalculateGraduatedCost usage (before ++ tier :: after)
  = pricing.CalculateGraduatedCost usage (before ++ [tier]).
Proof.
  intros Hopen. unfold pricing.CalculateGraduatedCost.
  by rewrite fill_after_open_tier.
Qed.

Lemma CalculateGraduatedCost_open_tier_is_last_witness :
  let first := {| pricing.UpTo := 1000;
                  pricing.Price :=
                    {| rate.value := Some (Q2Qc (1 # 10)) |} |} in
  let open := {| pricing.UpTo := 0;
                 pricing.Price :=
                   {| rate.value := Some (Q2Qc (5 # 100)) |} |} in
  let late := {| pricing.UpTo := 500;
                 pricing.Price :=
                   {| rate.value := Some (Q2Qc (1 # 100)) |} |} in
  pricing.UpTo open = 0
  /\ pricing.CalculateGraduatedCost 3000 ([first] ++ open :: [late])
     = pricing.CalculateGraduatedCost 3000 ([first] ++ [open]).
Proof.
  intros first open late.
  assert (pricing.UpTo open = 0) as Hopen by reflexivity.
  split; [exact Hopen |].
  exact (CalculateGraduatedCost_open_tier_is_last 3000 [first] [late] open
           Hopen).
Defined.

Lemma capacity_nonneg tiers :
  Forall (fun tier => 0 < pricing.UpTo tier) tiers ->
  0 <= Zsum (pricing.UpTo <$> tiers).
Proof.
  induction 1 as [| tier rest Htier _ IH]; [done |].
  rewrite fmap_cons. cbn [Zsum foldr]. fold (Zsum (pricing.UpTo <$> rest)).
  lia.
Qed.

Lemma fill_over_capacity tiers remainingUsage total :
  Forall (fun tier => 0 < pricing.UpTo tier) tiers ->
  Zsum (pricing.UpTo <$> tiers) <= remainingUsage <= int64.MaxInt64 ->
  pricing.fill tiers remainingUsage total
  = pricing.fill tiers (Zsum (pricing.UpTo <$> tiers)) total.
Proof.
  intros Hall. revert remainingUsage total.
  induction Hall as [| tier rest Htier Hrest IH]; intros u total Hu; [done |].
  rewrite fmap_cons in *. cbn [Zsum foldr] in *.
  fold (Zsum (pricing.UpTo <$> rest)) in *.
  set (capacity := Zsum (pricing.UpTo <$> rest)) in *.
  assert (0 <= capacity) as Hcap by (by apply capacity_nonneg).
  assert (forall v,
            pricing.UpTo tier + capacity <= v <= int64.MaxInt64 ->
            pricing.fill (tier :: rest) v total
            = and_then (rate.Mul (pricing.Price tier) (pricing.UpTo tier))
                (fun tierCost =>
                   pricing.fill rest capacity (bigRat.Add total tierCost)))
    as Hstep.
  { intros v Hv. cbn [pricing.fill].
    destruct (Z.leb_spec v 0); [lia |].
    destruct (Z.eqb_spec (pricing.UpTo tier) 0); [lia |]. cbn [orb].
    destruct (Z.leb_spec v (pricing.UpTo tier)).
    - assert (v = pricing.UpTo tier) as -> by lia.
      assert (capacity = 0) as -> by lia.
      destruct (rate.Mul _ _) as [tierCost | e | p]; [| done | done].
      cbn [and_then].
      unfold int64.sub. rewrite Z.sub_diag. by rewrite !fill_done.
    - destruct (rate.Mul _ _) as [tierCost | e | p]; [| done | done].
      cbn [and_then].
      unfold int64.sub. rewrite int64_facts.wrap_id
        by (unfold int64.in_range, int64.MinInt64, int64.MaxInt64 in *; lia).
      apply IH. lia. }
  rewrite (Hstep u) by lia.
  rewrite (Hstep (pricing.UpTo tier + capacity)); [done |]. lia.
Qed.

Lemma fill_priced tiers remainingUsage total :
  Forall (fun tier => is_Some (rate.value (pricing.Price tier))) tiers ->
  exists filled, pricing.fill tiers remainingUsage total = Value filled.
Proof.
  intros Hall. revert remainingUsage total.
  induction Hall as [| tier rest [price Hprice] _ IH]; intros u total.
  - by eexists.
  - cbn [pricing.fill]. destruct (u <=? 0); [by eexists |].
    unfold rate.Mul. rewrite Hprice. cbn [and_then]. apply IH.
Qed.

(** X28. Usage beyond the capacity of the tiers is not charged: when
    every tier has a positive [UpTo], any usage at or above the sum of
    the [UpTo]s ends as that sum does; and when every price holds a
    value, it ends with a cost and no error. *)
Theorem CalculateGraduatedCost_over_capacity
    (usage : Z) (tiers : list pricing.Tier) :
  Forall (fun tier => 0 < pricing.UpTo tier) tiers ->
  Zsum (pricing.UpTo <$> tiers) <= usage <= int64.MaxInt64 ->
  pricing.CalculateGraduatedCost usage tiers
  = pricing.CalculateGraduatedCost (Zsum (pricing.UpTo <$> tiers)) tiers
  /\ (Forall (fun tier => is_Some (rate.value (pricing.Price tier))) tiers ->
      exists cost,
        pricing.CalculateGraduatedCost usage tiers
        = Value (New cost "USD")).
Proof.
  intros Hall Hu.
  pose proof (capacity_nonneg tiers Hall) as Hcap.
  unfold pricing.CalculateGraduatedCost.
  destruct (Z.ltb_spec usage 0); [lia |].
  destruct (Z.ltb_spec (Zsum (pricing.UpTo <$> tiers)) 0); [lia |].
  split; [by rewrite (fill_over_capacity tiers usage _ Hall Hu) |].
  intros Hpriced.
  destruct (fill_priced tiers usage (bigRat.SetInt64 0) Hpriced)
    as [filled ->].
  by eexists.
Qed.

Lemma CalculateGraduatedCost_over_capacity_witness :
  let tiers :=
    [ {| pricing.UpTo := 1000;
         pricing.Price := {| rate.value := Some (Q2Qc (1 # 10)) |} |};
      {| pricing.UpTo := 4000;
         pricing.Price := {| rate.value := Some (Q2Qc (5 # 100)) |} |} ] in
  Forall (fun tier => 0 < pricing.UpTo tier) tiers
  /\ Zsum (pricing.UpTo <$> tiers) <= 9000 <= int64.MaxInt64
  /\ Forall (fun tier => is_Some (rate.value (pricing.Price tier))) tiers
  /\ pricing.CalculateGraduatedCost 9000 tiers
     = pricing.CalculateGraduatedCost (Zsum (pricing.UpTo <$> tiers)) tiers
  /\ exists cost,
       pricing.CalculateGraduatedCost 9000 tiers = Value (New cost "USD").
Proof.
  intros tiers.
  assert (Forall (fun tier => 0 < pricing.UpTo tier) tiers) as Hall
    by (repeat constructor; simpl; lia).
  assert (Zsum (pricing.UpTo <$> tiers) <= 9000 <= int64.MaxInt64) as Hu
    by (unfold int64.MaxInt64; simpl; lia).
  assert (Forall (fun tier => is_Some (rate.value (pricing.Price tier)))
            tiers) as Hpriced
    by (repeat constructor; by eexists).
  split; [exact Hall |]. split; [exact Hu |]. split; [exact Hpriced |].
  split.
  - exact (proj1 (CalculateGraduatedCost_over_capacity 9000 tiers Hall Hu)).
  - exact (proj2 (CalculateGraduatedCost_over_capacity 9000 tiers Hall Hu)
             Hpriced).
Defined.

Lemma this_hundred : (this (bigRat.NewRat 100 1) == 100 # 1)%Q.
Proof. done. Qed.

Lemma inject_Z_nonneg (z : Z) : 0 <= z -> (0 <= inject_Z z)%Q.
Proof. intros Hz. change 0%Q with (inject_Z 0). by rewrite <- Zle_Qle. Qed.

(** One turn of the loop on a usage that is left and a tier whose price
    holds a value: the tier takes all of the usage when it is open
    ([UpTo = 0]) and as much as [UpTo] otherwise. *)
Lemma fill_step tier rest u price :
  0 <= pricing.UpTo tier ->
  rate.value (pricing.Price tier) = Some price ->
  0 < u <= int64.MaxInt64 ->
  exists c,
    0 <= c <= u
    /\ (pricing.UpTo tier = 0 -> c = u)
    /\ (pricing.UpTo tier <> 0 -> c = Z.min u (pricing.UpTo tier))
    /\ forall T,
         pricing.fill (tier :: rest) u T
         = pricing.fill rest (u - c)
             (bigRat.Add T (bigRat.Mul price (bigRat.SetInt64 c))).
Proof.
  intros Hup Hprice Hu. cbn [pricing.fill]. unfold rate.Mul.
  rewrite Hprice. cbn [and_then].
  destruct (Z.leb_spec u 0); [lia |].
  exists (if (pricing.UpTo tier =? 0) || (u <=? pricing.UpTo tier)
          then u else pricing.UpTo tier).
  destruct (Z.eqb_spec (pricing.UpTo tier) 0);
    destruct (Z.leb_spec u (pricing.UpTo tier)); cbn [orb];
    (split; [lia |]; split; [intros; lia |]; split; [intros; lia |];
     intros T; unfold int64.sub; rewrite int64_facts.wrap_id; [done |];
     unfold int64.in_range, int64.MinInt64, int64.MaxInt64 in *; lia).
Qed.

Section PricingMonotone.

Import int64.

Variable P : Z.
Hypothesis P_nonneg : 0 <= P.

(** Tiers with an [UpTo] that is not negative and a price that holds a
    value between zero and [P]. *)
Let priced (tier : pricing.Tier) : Prop :=
  0 <= pricing.UpTo tier
  /\ exists price,
       rate.value (pricing.Price tier) = Some price
       /\ (0 <= this price <= inject_Z P)%Q.

Lemma fill_monotone tiers :
  Forall priced tiers ->
  forall u1 u2 T1 T2,
    0 <= u1 <= u2 -> u2 <= MaxInt64 ->
    (this T1 <= this T2)%Q ->
    exists F1 F2,
      pricing.fill tiers u1 T1 = Value F1
      /\ pricing.fill tiers u2 T2 = Value F2
      /\ (this F1 <= this F2)%Q.
Proof.
  induction 1 as [| tier rest [Hup (price & Hprice & Hp0 & HpP)] _ IH];
    intros u1 u2 T1 T2 Hu Hmax HT; [by exists T1, T2 |].
  set (p := this price) in *.
  destruct (decide (u1 = 0)) as [-> | Hu1].
  - rewrite fill_done by lia.
    destruct (decide (u2 = 0)) as [-> | Hu2].
    { rewrite fill_done by lia. by exists T1, T2. }
    destruct (fill_step tier rest u2 price Hup Hprice ltac:(lia))
      as (c2 & Hc2 & _ & _ & ->).
    destruct (IH 0 (u2 - c2) T1
                (bigRat.Add T2 (bigRat.Mul price (bigRat.SetInt64 c2))))
      as (F1 & F2 & HF1 & HF2 & HF); [lia | lia | |].
    { rewrite this_Add, this_price_Mul. fold p.
      pose proof (inject_Z_nonneg c2 ltac:(lia)). nra. }
    rewrite fill_done in HF1 by lia. injection HF1 as <-.
    by exists T1, F2.
  - destruct (fill_step tier rest u1 price Hup Hprice ltac:(lia))
      as (c1 & Hc1 & Hopen1 & Hcap1 & ->).
    destruct (fill_step tier rest u2 price Hup Hprice ltac:(lia))
      as (c2 & Hc2 & Hopen2 & Hcap2 & ->).
    assert (c1 <= c2 /\ u1 - c1 <= u2 - c2) as [Hc Hrem].
    { destruct (decide (pricing.UpTo tier = 0)) as [H0 | H0].
      - rewrite (Hopen1 H0), (Hopen2 H0). lia.
      - rewrite (Hcap1 H0), (Hcap2 H0). lia. }
    apply IH; [lia | lia |].
    rewrite !this_Add, !this_price_Mul. fold p.
    assert (inject_Z c1 <= inject_Z c2)%Q by (by rewrite <- Zle_Qle).
    pose proof (inject_Z_nonneg c1 ltac:(lia)). nra.
Qed.

Lemma fill_upper tiers :
  Forall priced tiers ->
  forall u T,
    0 <= u <= MaxInt64 ->
    exists F,
      pricing.fill tiers u T = Value F
      /\ (this F <= this T + inject_Z P * inject_Z u)%Q.
Proof.
  pose proof (inject_Z_nonneg P P_nonneg) as HP.
  induction 1 as [| tier rest [Hup (price & Hprice & Hp0 & HpP)] _ IH];
    intros u T Hu.
  - exists T. split; [done |].
    pose proof (inject_Z_nonneg u ltac:(lia)). nra.
  - set (p := this price) in *.
    destruct (decide (u = 0)) as [-> | Hu0].
    + rewrite fill_done by lia. exists T. split; [done |].
      change (inject_Z 0) with 0%Q. lra.
    + destruct (fill_step tier rest u price Hup Hprice ltac:(lia))
        as (c & Hc & _ & _ & ->).
      destruct (IH (u - c)
                  (bigRat.Add T (bigRat.Mul price (bigRat.SetInt64 c))))
        as (F & HF & Hbound); [lia |].
      exists F. split; [done |].
      eapply Qle_trans; [exact Hbound |].
      rewrite this_Add, this_price_Mul. fold p.
      replace u with ((u - c) + c) at 2 by lia.
      rewrite (inject_Z_plus (u - c) c).
      pose proof (inject_Z_nonneg c ltac:(lia)).
      pose proof (inject_Z_nonneg (u - c) ltac:(lia)). nra.
Qed.

(** The cost in cents, before it is reduced to [int64]. *)
Lemma cost_bounds tiers u :
  Forall priced tiers ->
  0 <= u <= MaxInt64 ->
  exists total,
    pricing.fill tiers u (bigRat.SetInt64 0) = Value total
    /\ 0 <= round_half_up (bigRat.Mul total (bigRat.NewRat 100 1))
       <= 100 * P * u.
Proof.
  intros Htiers Hu.
  destruct (fill_upper tiers Htiers u (bigRat.SetInt64 0) Hu)
    as (total & Hfill & Hhi).
  destruct (fill_monotone tiers Htiers 0 u (bigRat.SetInt64 0)
              (bigRat.SetInt64 0) ltac:(lia) ltac:(lia) ltac:(done))
    as (F1 & F2 & HF1 & HF2 & Hlo).
  rewrite fill_done in HF1 by lia. injection HF1 as <-.
  rewrite Hfill in HF2. injection HF2 as <-.
  rewrite this_SetInt64 in Hhi, Hlo. change (inject_Z 0) with 0%Q in Hhi, Hlo.
  exists total. split; [done |].
  destruct (proj1 (round_half_up_spec
                     (bigRat.Mul total (bigRat.NewRat 100 1)) _) eq_refl)
    as [Hrl Hru].
  rewrite this_Mul, this_hundred in Hrl, Hru.
  split.
  - apply (inject_Z_ge_half _ 0 (this total * (100 # 1)) Hru).
    change (inject_Z 0) with 0%Q. lra.
  - apply (inject_Z_le_half _ (100 * P * u) (this total * (100 # 1)) Hrl).
    rewrite !inject_Z_mult. change (inject_Z 100) with (100 # 1)%Q. lra.
Qed.

End PricingMonotone.

Lemma CalculateGraduatedCost_run usage tiers total :
  0 <= usage ->
  pricing.fill tiers usage (bigRat.SetInt64 0) = Value total ->
  pricing.CalculateGraduatedCost usage tiers
  = Value (New (int64.wrap
                  (round_half_up (bigRat.Mul total (bigRat.NewRat 100 1))))
             "USD").
Proof.
  intros Hu Hfill. unfold pricing.CalculateGraduatedCost.
  destruct (Z.ltb_spec usage 0); [lia |].
  rewrite Hfill. cbn [and_then].
  by rewrite <- roundRat_floor.
Qed.

(** X29. With tiers whose [UpTo] is not negative and whose prices hold
    values between zero and [P], the cost never goes down when the usage
    goes up, and it is not negative: for usages
    [0 <= usage1 <= usage2] with [100 * P * usage2] within [int64], both
    calls return a cost in USD and the first is at most the second. *)
Theorem CalculateGraduatedCost_monotone
    (usage1 usage2 P : Z) (tiers : list pricing.Tier) :
  Forall (fun tier =>
            0 <= pricing.UpTo tier
            /\ exists price,
                 rate.value (pricing.Price tier) = Some price
                 /\ (0 <= this price <= inject_Z P)%Q) tiers ->
  0 <= P ->
  0 <= usage1 ->
  usage1 <= usage2 ->
  usage2 <= int64.MaxInt64 ->
  100 * P * usage2 <= int64.MaxInt64 ->
  exists cost1 cost2,
    pricing.CalculateGraduatedCost usage1 tiers = Value (New cost1 "USD")
    /\ pricing.CalculateGraduatedCost usage2 tiers = Value (New cost2 "USD")
    /\ 0 <= cost1 /\ cost1 <= cost2.
Proof.
  intros Htiers HP H1 H12 Hmax Hfit.
  destruct (cost_bounds P HP tiers usage1 Htiers ltac:(lia))
    as (total1 & Hfill1 & Hb1).
  destruct (cost_bounds P HP tiers usage2 Htiers ltac:(lia))
    as (total2 & Hfill2 & Hb2).
  rewrite (CalculateGraduatedCost_run usage1 tiers total1) by (done || lia).
  rewrite (CalculateGraduatedCost_run usage2 tiers total2) by (done || lia).
  assert (100 * P * usage1 <= 100 * P * usage2) by nia.
  rewrite !int64_facts.wrap_id
    by (unfold int64.in_range, int64.MinInt64, int64.MaxInt64 in *; lia).
  do 2 eexists. split; [done |]. split; [done |]. split; [lia |].
  unfold round_half_up. apply Qfloor_resp_le.
  rewrite !this_Mul, this_hundred.
  destruct (fill_monotone P tiers Htiers usage1 usage2 (bigRat.SetInt64 0)
              (bigRat.SetInt64 0) ltac:(lia) ltac:(lia) ltac:(done))
    as (F1 & F2 & HF1 & HF2 & HF).
  rewrite Hfill1 in HF1. injection HF1 as <-.
  rewrite Hfill2 in HF2. injection HF2 as <-.
  lra.
Qed.

Lemma CalculateGraduatedCost_monotone_witness :
  let tiers :=
    [ {| pricing.UpTo := 1000;
         pricing.Price := {| rate.value := Some (Q2Qc (1 # 10)) |} |};
      {| pricing.UpTo := 0;
         pricing.Price := {| rate.value := Some (Q2Qc (5 # 100)) |} |} ] in
  Forall (fun tier =>
            0 <= pricing.UpTo tier
            /\ exists price,
                 rate.value (pricing.Price tier) = Some price
                 /\ (0 <= this price <= inject_Z 1)%Q) tiers
  /\ 0 <= 1
  /\ 0 <= 1500
  /\ 1500 <= 2500
  /\ 2500 <= int64.MaxInt64
  /\ 100 * 1 * 2500 <= int64.MaxInt64
  /\ exists cost1 cost2,
       pricing.CalculateGraduatedCost 1500 tiers = Value (New cost1 "USD")
       /\ pricing.CalculateGraduatedCost 2500 tiers
          = Value (New cost2 "USD")
       /\ 0 <= cost1 /\ cost1 <= cost2.
Proof.
  intros tiers.
  assert (Forall (fun tier =>
                    0 <= pricing.UpTo tier
                    /\ exists price,
                         rate.value (pricing.Price tier) = Some price
                         /\ (0 <= this price <= inject_Z 1)%Q) tiers)
    as Htiers.
  { repeat constructor; simpl; try lia;
      (eexists; split; [reflexivity |]; split; vm_compute; discriminate). }
  assert (0 <= 1) as HP by lia.
  assert (0 <= 1500) as H1 by lia.
  assert (1500 <= 2500) as H12 by lia.
  assert (2500 <= int64.MaxInt64) as Hmax by (unfold int64.MaxInt64; lia).
  assert (100 * 1 * 2500 <= int64.MaxInt64) as Hfit
    by (unfold int64.MaxInt64; lia).
  split; [exact Htiers |]. split; [exact HP |]. split; [exact H1 |].
  split; [exact H12 |]. split; [exact Hmax |]. split; [exact Hfit |].
  exact (CalculateGraduatedCost_monotone 1500 2500 1 tiers
           Htiers HP H1 H12 Hmax Hfit).
Defined.
